(** * codna: a shallow embedding of the simulation engine

    The development follows the Python sources class by class:
    [code_token.py] (tokens and the bonding table), [grid.py] (cells and
    the grid), [physics.py] (the per-tick movement pass and the spillover
    sweep), [biochemistry.py] (chains, grammar validation and repair),
    [damage.py], [vent.py] and [simulation.py] (the tick).

    Python objects live in a heap: a token is a heap index, a chain an
    index into the engine's chain list, a cell its coordinate triple (the
    grid holds exactly one [Cell] object per in-bounds triple).  Python
    floats are IEEE binary64 numbers, modelled by Rocq's primitive floats;
    Python integers are [Z].  Loops and recursions that the sources do not
    bound take a [fuel] argument and return [None] when it runs out. *)

From Stdlib Require Import ZArith Ascii String List Bool Lia DecimalString.
From Stdlib Require Import FunctionalExtensionality.
From Stdlib Require Import Uint63 PrimFloat FloatOps SpecFloat FloatAxioms.
From stdpp Require Import base option list gmap.

Set Warnings "-inexact-float".
Local Open Scope string_scope.
Local Open Scope Z_scope.

(** ** The interpreter's part

    [str.isidentifier], [str.isdigit] and the success of [float(s)] are
    builtins; the development is parametric in them. *)
Class PyStr := {
  str_isidentifier : string -> bool;
  str_isdigit : string -> bool;
  float_parses : string -> bool
}.

(** The random source and the iteration order of a [set] of objects hashed
    by identity.  Both are indexed by a clock that counts the draws and
    the set iterations made so far, so that any sequence of draws and of
    orders is an instance: [rand_below k n] is the draw made at time [k]
    read as an index below [n] (as [random.choice] does), [rand_float k]
    the draw read as a float in [0,1) ([random.random]), [set_order k s]
    the order in which iterating the set [s] at time [k] yields its
    members. *)
Class PyRandom := {
  rand_below : nat -> nat -> nat;
  rand_float : nat -> float;
  set_order : nat -> gset nat -> list nat
}.

(** [int(f)] on a float: truncation toward zero.  (Python raises on
    infinities and NaN; the model returns 0 there.) *)
Definition int_of_float (f : float) : Z :=
  match Prim2SF f with
  | S754_finite s m e =>
      let v := if 0 <=? e then Z.pos m * 2 ^ e else Z.pos m / 2 ^ (- e) in
      if s then - v else v
  | _ => 0
  end.

(** [float(n)] on an integer (exact below 2^53 in absolute value). *)
Definition float_of_int (n : Z) : float :=
  if n <? 0 then PrimFloat.opp (PrimFloat.of_uint63 (Uint63.of_Z (- n)))
  else PrimFloat.of_uint63 (Uint63.of_Z n).

(** [min(a, b)] and [max(a, b)]: the first argument unless the second is
    strictly smaller (larger). *)
Definition py_min (a b : float) : float := if PrimFloat.ltb b a then b else a.
Definition py_max (a b : float) : float := if PrimFloat.ltb a b then b else a.

(** [list.remove(v)]: the first occurrence goes. *)
Fixpoint list_remove_first (v : nat) (l : list nat) : list nat :=
  match l with
  | [] => []
  | a :: l' => if Nat.eqb a v then l' else a :: list_remove_first v l'
  end.

(** [v in l] on a list of references. *)
Definition list_mem (v : nat) (l : list nat) : bool := existsb (Nat.eqb v) l.

(** [min(l, key=...)]: the first element of least key. *)
Fixpoint min_by (key : nat -> Z) (l : list nat) (best : nat) : nat :=
  match l with
  | [] => best
  | a :: l' => min_by key l' (if key a <? key best then a else best)
  end.

(** [sorted(l, key=...)]: a stable sort, here by insertion from the right:
    [a] precedes the elements already placed, so it goes before every
    element whose key is not strictly smaller. *)
Fixpoint insert_by (key : nat -> Z) (a : nat) (l : list nat) : list nat :=
  match l with
  | [] => [a]
  | b :: l' => if key b <? key a then b :: insert_by key a l' else a :: b :: l'
  end.

Definition sorted_by (key : nat -> Z) (l : list nat) : list nat :=
  foldr (insert_by key) [] l.

(** A loop over a list whose body may run out of fuel. *)
Fixpoint foldM {A S : Type} (body : S -> A -> option S) (s : S) (l : list A)
  : option S :=
  match l with
  | [] => Some s
  | a :: l' => match body s a with
               | Some s' => foldM body s' l'
               | None => None
               end
  end.

(** The eight horizontal offsets and the 26 spatial ones, in the order the
    nested [for dx in [-1, 0, 1]] loops visit them. *)
Definition offsets2 : list (Z * Z) :=
  dx ← [-1; 0; 1]; dy ← [-1; 0; 1];
  if (dx =? 0) && (dy =? 0) then [] else [(dx, dy)].

Definition offsets3 : list (Z * Z * Z) :=
  dx ← [-1; 0; 1]; dy ← [-1; 0; 1]; dz ← [-1; 0; 1];
  if (dx =? 0) && (dy =? 0) && (dz =? 0) then [] else [(dx, dy, dz)].

(** ** code_token.py *)

Inductive TokenType :=
  | keyword | operator | punctuation | identifier | literal | unknown.

Definition TokenType_eqb (a b : TokenType) : bool :=
  match a, b with
  | keyword, keyword | operator, operator | punctuation, punctuation
  | identifier, identifier | literal, literal | unknown, unknown => true
  | _, _ => false
  end.

(** A token reference (Python object identity) is an index of the heap. *)
Abbreviation tok := nat.

(** Membership of a string in a Python set literal of strings. *)
Definition in_set (v : string) (s : list string) : bool :=
  existsb (String.eqb v) s.

Definition in_types (t : TokenType) (s : list TokenType) : bool :=
  existsb (TokenType_eqb t) s.

Fixpoint dict_get (d : list (string * string)) (k : string) : option string :=
  match d with
  | [] => None
  | (k', v) :: d' => if String.eqb k k' then Some v else dict_get d' k
  end.

Module Token.

(** The fields of a [Token] object.  The metadata entries
    ['bond_strength'], ['expecting'] and ['can_start_chain'] are written
    once by the constructor and never read; they are left out. *)
Record t := mk {
  value : string;
  mass : Z;
  energy : Z;
  x : float; y : float; z : float;
  vx : float; vy : float; vz : float;
  type : TokenType;        (* metadata['type'] *)
  damaged : bool;          (* metadata['damaged'] *)
  chain_id : option nat;
  next_token : option tok;
  prev_token : option tok
}.

Definition set_energy (e : Z) (a : t) : t :=
  mk (value a) (mass a) e (x a) (y a) (z a) (vx a) (vy a) (vz a)
     (type a) (damaged a) (chain_id a) (next_token a) (prev_token a).
Definition set_pos (px py pz : float) (a : t) : t :=
  mk (value a) (mass a) (energy a) px py pz (vx a) (vy a) (vz a)
     (type a) (damaged a) (chain_id a) (next_token a) (prev_token a).
Definition set_vel (wx wy wz : float) (a : t) : t :=
  mk (value a) (mass a) (energy a) (x a) (y a) (z a) wx wy wz
     (type a) (damaged a) (chain_id a) (next_token a) (prev_token a).
Definition set_type (ty : TokenType) (a : t) : t :=
  mk (value a) (mass a) (energy a) (x a) (y a) (z a) (vx a) (vy a) (vz a)
     ty (damaged a) (chain_id a) (next_token a) (prev_token a).
Definition set_damaged (d : bool) (a : t) : t :=
  mk (value a) (mass a) (energy a) (x a) (y a) (z a) (vx a) (vy a) (vz a)
     (type a) d (chain_id a) (next_token a) (prev_token a).
Definition set_chain_id (c : option nat) (a : t) : t :=
  mk (value a) (mass a) (energy a) (x a) (y a) (z a) (vx a) (vy a) (vz a)
     (type a) (damaged a) c (next_token a) (prev_token a).
Definition set_next_token (n : option tok) (a : t) : t :=
  mk (value a) (mass a) (energy a) (x a) (y a) (z a) (vx a) (vy a) (vz a)
     (type a) (damaged a) (chain_id a) n (prev_token a).
Definition set_prev_token (p : option tok) (a : t) : t :=
  mk (value a) (mass a) (energy a) (x a) (y a) (z a) (vx a) (vy a) (vz a)
     (type a) (damaged a) (chain_id a) (next_token a) p.

Definition KEYWORDS : list string :=
  ["if"; "else"; "for"; "while"; "function"; "class"; "return";
   "int"; "float"; "var"; "let"; "const"].
Definition OPERATORS : list string :=
  ["+"; "-"; "*"; "/"; "="; "=="; "!="; "<"; ">"; "<="; ">="; "&&"; "||"].
Definition PUNCTUATION : list string :=
  ["("; ")"; "{"; "}"; "["; "]"; ";"; ","; "."].
Definition MATCHING_PAIRS : list (string * string) :=
  [("(", ")"); ("{", "}"); ("[", "]")].

Section Init.
Context `{PyStr}.

Definition _is_number (v : string) : bool := float_parses v.

Definition _determine_type (v : string) : TokenType :=
  if in_set v KEYWORDS then keyword
  else if in_set v OPERATORS then operator
  else if in_set v PUNCTUATION then punctuation
  else if str_isidentifier v then identifier
  else if str_isdigit v || _is_number v then literal
  else unknown.

(** [Token.__init__] *)
Definition init (v : string) (px py pz : float) (e : Z) : t :=
  {| value := v;
     mass := Z.of_nat (String.length v);
     energy := e;
     x := px; y := py; z := pz;
     vx := 0; vy := 0; vz := 0;
     type := _determine_type v;
     damaged := false;
     chain_id := None;
     next_token := None;
     prev_token := None |}.
End Init.

(** [Token.can_bond_with]: one branch per [return] of the source, in the
    source's order; a nested [if] is the conjunction of its tests. *)
Definition can_bond_with (self other : t) : bool * Z :=
  if damaged self || damaged other then (false, 0)
  else
    let my_type := type self in
    let other_type := type other in
    if match dict_get MATCHING_PAIRS (value self) with
       | Some closing => String.eqb (value other) closing
       | None => false
       end
    then (true, 100)
    else if TokenType_eqb my_type keyword
            && (in_set (value self) ["if"; "while"; "for"]
                && String.eqb (value other) "(")
    then (true, 90)
    else if TokenType_eqb my_type keyword
            && (in_set (value self) ["int"; "float"; "var"; "let"; "const"]
                && TokenType_eqb other_type identifier)
    then (true, 85)
    else if TokenType_eqb my_type operator
            && (String.eqb (value self) "="
                && in_types other_type [identifier; literal])
    then (true, 80)
    else if TokenType_eqb my_type operator
            && (in_set (value self) ["+"; "-"; "*"; "/"; "=="; "!="; "<"; ">"]
                && in_types other_type [identifier; literal])
    then (true, 75)
    else if String.eqb (value self) "("
            && in_types other_type [identifier; literal; keyword]
    then (true, 70)
    else if String.eqb (value self) ","
            && in_types other_type [identifier; literal]
    then (true, 60)
    else if in_types my_type [identifier; literal]
            && in_set (value other) ["+"; "-"; "*"; "/"; "="; ";"; ","; ")"]
    then (true, 50)
    else (false, 0).

Definition mutually_exclusive_sets : list (list string) :=
  [["if"; "while"; "for"]; ["int"; "float"; "var"];
   ["++"; "--"]; ["&&"; "||"]].

(** [Token.is_mutually_exclusive_with] *)
Definition is_mutually_exclusive_with (self other : t) : bool :=
  existsb (fun exclusive_set =>
             in_set (value self) exclusive_set
             && in_set (value other) exclusive_set
             && negb (String.eqb (value self) (value other)))
          mutually_exclusive_sets.

(** *** The heap of token objects *)

Abbreviation heap := (list t).

(** What a dangling reference reads as; references handed out by [alloc]
    never dangle. *)
Definition blank : t :=
  mk "" 0 0 0 0 0 0 0 0 unknown false None None None.

Definition get (h : heap) (r : tok) : t := default blank (h !! r).
Definition upd (f : t -> t) (r : tok) (h : heap) : heap := alter f r h.
Definition alloc (a : t) (h : heap) : heap * tok :=
  ((h ++ [a])%list, length h).

(** [Token.update_position] *)
Definition update_position (h : heap) (self : tok) : heap :=
  let a := get h self in
  let a1 :=
    if 0 <? energy a
    then set_energy (energy a - 1) (set_pos (x a) (y a) (z a + 1)%float a)
    else set_pos (x a) (y a) (z a - 1)%float a in
  let a2 := set_pos (x a1 + vx a1)%float (y a1 + vy a1)%float
                    (z a1 + vz a1)%float a1 in
  let a3 := set_vel (vx a2 * 0.9)%float (vy a2 * 0.9)%float
                    (vz a2 * 0.9)%float a2 in
  upd (fun _ => a3) self h.

(** [Token.bond_to]; the four assignments in the source's order. *)
Definition bond_to (h : heap) (self other : tok) (cid : nat) : heap * Z :=
  let h1 := upd (set_next_token (Some other)) self h in
  let h2 := upd (set_prev_token (Some self)) other h1 in
  let h3 := upd (set_chain_id (Some cid)) self h2 in
  let h4 := upd (set_chain_id (Some cid)) other h3 in
  (h4, 1).

(** [Token.break_bond] *)
Definition break_bond (h : heap) (self : tok) : heap :=
  match next_token (get h self) with
  | Some n =>
      let h1 := upd (set_prev_token None) n h in
      upd (set_next_token None) self h1
  | None => h
  end.

(** [Token.get_chain_length] and [Token.get_chain_mass]: the [while
    current] walk along [next_token]. *)
Fixpoint walk_length (fuel : nat) (h : heap) (current : option tok) (acc : Z)
  : option Z :=
  match current with
  | None => Some acc
  | Some c =>
      match fuel with
      | O => None
      | S fuel' => walk_length fuel' h (next_token (get h c)) (acc + 1)
      end
  end.

Definition get_chain_length (fuel : nat) (h : heap) (self : tok) : option Z :=
  walk_length fuel h (next_token (get h self)) 1.

Fixpoint walk_mass (fuel : nat) (h : heap) (current : option tok) (acc : Z)
  : option Z :=
  match current with
  | None => Some acc
  | Some c =>
      match fuel with
      | O => None
      | S fuel' =>
          walk_mass fuel' h (next_token (get h c)) (acc + mass (get h c))
      end
  end.

Definition get_chain_mass (fuel : nat) (h : heap) (self : tok) : option Z :=
  walk_mass fuel h (next_token (get h self)) (mass (get h self)).

(** [Token.apply_damage]; [k] is the clock. *)
Definition apply_damage `{PyRandom} (h : heap) (self : tok)
    (damage_probability : float) (k : nat) : heap * nat :=
  if PrimFloat.ltb (rand_float k) damage_probability then
    let h1 := upd (set_damaged true) self h in
    if PrimFloat.ltb (rand_float (S k)) 0.3%float
    then (upd (set_type unknown) self h1, S (S k))
    else (h1, S (S k))
  else (h, S k).

End Token.

(** ** grid.py: cells *)

(** A [Cell] object is identified with the triple it is stored under;
    [cell.x], [cell.y], [cell.z] are the components of that triple. *)
Definition cell_ref := (Z * Z * Z)%type.

Definition cell_ref_eqb (a b : cell_ref) : bool :=
  let '(ax, ay, az) := a in
  let '(bx, by_, bz) := b in
  (ax =? bx) && (ay =? by_) && (az =? bz).

Module Cell.

Definition MAX_CAPACITY : Z := 1000.

Record t := mk {
  tokens : list tok;
  current_mass : Z
}.

(** [Cell.__init__] *)
Definition init : t := mk [] 0.

Definition can_accept (h : Token.heap) (self : t) (token : tok) : bool :=
  current_mass self + Token.mass (Token.get h token) <=? MAX_CAPACITY.

Definition add_token (h : Token.heap) (self : t) (token : tok) : t * bool :=
  if can_accept h self token
  then (mk (tokens self ++ [token])%list
           (current_mass self + Token.mass (Token.get h token)), true)
  else (self, false).

Definition remove_token (h : Token.heap) (self : t) (token : tok) : t * bool :=
  if list_mem token (tokens self)
  then (mk (list_remove_first token (tokens self))
           (current_mass self - Token.mass (Token.get h token)), true)
  else (self, false).

Definition has_mutually_exclusive_token (h : Token.heap) (self : t)
    (token : tok) : option tok :=
  List.find (fun existing_token =>
               Token.is_mutually_exclusive_with (Token.get h existing_token)
                                                (Token.get h token))
            (tokens self).

Definition get_spillover_mass (self : t) : Z :=
  Z.max 0 (current_mass self - MAX_CAPACITY).

End Cell.

(** ** biochemistry.py: chains *)

Module TokenChain.

Record t := mk {
  chain_id : nat;
  head : tok;
  tokens : list tok;
  is_valid : bool;
  last_validated_tick : Z
}.

Definition set_tokens (l : list tok) (c : t) : t :=
  mk (chain_id c) (head c) l (is_valid c) (last_validated_tick c).
Definition set_last_validated_tick (k : Z) (c : t) : t :=
  mk (chain_id c) (head c) (tokens c) (is_valid c) k.

(** [TokenChain.__init__]; [next_id] is the class counter
    [_next_chain_id], returned incremented. *)
Definition init (h : Token.heap) (next_id : nat) (head_token : tok)
  : Token.heap * t * nat :=
  let c := mk next_id head_token [head_token] true 0 in
  (Token.upd (Token.set_chain_id (Some next_id)) head_token h, c, S next_id).

(** The [while tail.next_token: tail = tail.next_token] walk. *)
Fixpoint find_tail (fuel : nat) (h : Token.heap) (tail : tok) : option tok :=
  match Token.next_token (Token.get h tail) with
  | None => Some tail
  | Some n =>
      match fuel with
      | O => None
      | S fuel' => find_tail fuel' h n
      end
  end.

Definition add_token (fuel : nat) (h : Token.heap) (self : t) (token : tok)
  : option (Token.heap * t * Z) :=
  tail ← find_tail fuel h (head self);
  let '(h1, energy) := Token.bond_to h tail token (chain_id self) in
  Some (h1, set_tokens (tokens self ++ [token])%list self, energy).

Definition remove_token (h : Token.heap) (self : t) (token : tok)
  : Token.heap * t :=
  if list_mem token (tokens self) then
    let self1 := set_tokens (list_remove_first token (tokens self)) self in
    let h1 := match Token.prev_token (Token.get h token) with
              | Some p => Token.break_bond h p
              | None => h
              end in
    let h2 := match Token.next_token (Token.get h1 token) with
              | Some n => Token.upd (Token.set_prev_token None) n h1
              | None => h1
              end in
    (Token.upd (Token.set_chain_id None) token h2, self1)
  else (h, self).

(** The forward traversal from [current] along [next_token], as
    [get_code_string] makes it. *)
Fixpoint traverse (fuel : nat) (h : Token.heap) (current : option tok)
  : option (list tok) :=
  match current with
  | None => Some []
  | Some c =>
      match fuel with
      | O => None
      | S fuel' =>
          rest ← traverse fuel' h (Token.next_token (Token.get h c));
          Some (c :: rest)
      end
  end.

Definition get_code_string (fuel : nat) (h : Token.heap) (self : t)
  : option string :=
  l ← traverse fuel h (Some (head self));
  Some (String.concat " " (map (fun r => Token.value (Token.get h r)) l)).

Definition get_total_mass (h : Token.heap) (self : t) : Z :=
  foldr Z.add 0 (map (fun r => Token.mass (Token.get h r)) (tokens self)).

Definition get_total_energy (h : Token.heap) (self : t) : Z :=
  foldr Z.add 0 (map (fun r => Token.energy (Token.get h r)) (tokens self)).

End TokenChain.

(** ** The state of a simulation

    One record for the objects a [Simulation] owns: the token heap, the
    grid (sizes, cells, the set of live tokens), the engine's chain list
    with the class counter of chain ids, the vent, the damage system's
    altitude, the tick, and the interpreter's clock (the number of draws
    and set iterations so far). *)
Record State := mkState {
  heap : Token.heap;
  size_x : Z; size_y : Z; size_z : Z;
  cells : cell_ref -> Cell.t;
  all_tokens : gset tok;
  chains : list TokenChain.t;
  _next_chain_id : nat;
  vent_x : Z; vent_y : Z; vent_z : Z;
  spawn_rate : Z;
  tick_counter : Z;
  tokens_spawned : Z;
  max_altitude : Z;
  tick : Z;
  clock : nat
}.

Definition with_heap (h : Token.heap) (s : State) : State :=
  mkState h (size_x s) (size_y s) (size_z s) (cells s) (all_tokens s)
          (chains s) (_next_chain_id s) (vent_x s) (vent_y s) (vent_z s)
          (spawn_rate s) (tick_counter s) (tokens_spawned s) (max_altitude s)
          (tick s) (clock s).
Definition with_cells (c : cell_ref -> Cell.t) (s : State) : State :=
  mkState (heap s) (size_x s) (size_y s) (size_z s) c (all_tokens s)
          (chains s) (_next_chain_id s) (vent_x s) (vent_y s) (vent_z s)
          (spawn_rate s) (tick_counter s) (tokens_spawned s) (max_altitude s)
          (tick s) (clock s).
Definition with_all_tokens (a : gset tok) (s : State) : State :=
  mkState (heap s) (size_x s) (size_y s) (size_z s) (cells s) a
          (chains s) (_next_chain_id s) (vent_x s) (vent_y s) (vent_z s)
          (spawn_rate s) (tick_counter s) (tokens_spawned s) (max_altitude s)
          (tick s) (clock s).
Definition with_chains (c : list TokenChain.t) (s : State) : State :=
  mkState (heap s) (size_x s) (size_y s) (size_z s) (cells s) (all_tokens s)
          c (_next_chain_id s) (vent_x s) (vent_y s) (vent_z s)
          (spawn_rate s) (tick_counter s) (tokens_spawned s) (max_altitude s)
          (tick s) (clock s).
Definition with_next_chain_id (n : nat) (s : State) : State :=
  mkState (heap s) (size_x s) (size_y s) (size_z s) (cells s) (all_tokens s)
          (chains s) n (vent_x s) (vent_y s) (vent_z s)
          (spawn_rate s) (tick_counter s) (tokens_spawned s) (max_altitude s)
          (tick s) (clock s).
Definition with_vent (counter spawned : Z) (s : State) : State :=
  mkState (heap s) (size_x s) (size_y s) (size_z s) (cells s) (all_tokens s)
          (chains s) (_next_chain_id s) (vent_x s) (vent_y s) (vent_z s)
          (spawn_rate s) counter spawned (max_altitude s)
          (tick s) (clock s).
Definition with_tick (k : Z) (s : State) : State :=
  mkState (heap s) (size_x s) (size_y s) (size_z s) (cells s) (all_tokens s)
          (chains s) (_next_chain_id s) (vent_x s) (vent_y s) (vent_z s)
          (spawn_rate s) (tick_counter s) (tokens_spawned s) (max_altitude s)
          k (clock s).
Definition with_clock (k : nat) (s : State) : State :=
  mkState (heap s) (size_x s) (size_y s) (size_z s) (cells s) (all_tokens s)
          (chains s) (_next_chain_id s) (vent_x s) (vent_y s) (vent_z s)
          (spawn_rate s) (tick_counter s) (tokens_spawned s) (max_altitude s)
          (tick s) k.

(** Reading and writing a token's fields through the state. *)
Definition deref (s : State) (r : tok) : Token.t := Token.get (heap s) r.
Definition upd_token (f : Token.t -> Token.t) (r : tok) (s : State) : State :=
  with_heap (Token.upd f r (heap s)) s.

(** Replacing the content of one cell. *)
Definition set_cell (r : cell_ref) (c : Cell.t) (s : State) : State :=
  with_cells (fun r' => if cell_ref_eqb r' r then c else cells s r') s.

(** [cell.add_token(token)] and [cell.remove_token(token)] on the cell
    stored at [r]. *)
Definition cell_add_token (r : cell_ref) (token : tok) (s : State) : State :=
  set_cell r (Cell.add_token (heap s) (cells s r) token).1 s.
Definition cell_remove_token (r : cell_ref) (token : tok) (s : State) : State :=
  set_cell r (Cell.remove_token (heap s) (cells s r) token).1 s.

(** [float(cell.x), float(cell.y), float(cell.z)] *)
Definition cell_pos (r : cell_ref) : float * float * float :=
  let '(cx, cy, cz) := r in (float_of_int cx, float_of_int cy, float_of_int cz).

(** ** grid.py: the grid *)

(** [Grid.__init__]: every cell empty, no live token. *)
Definition Grid_init (sx sy sz : Z) (s : State) : State :=
  mkState (heap s) sx sy sz (fun _ => Cell.init) ∅
          (chains s) (_next_chain_id s) (vent_x s) (vent_y s) (vent_z s)
          (spawn_rate s) (tick_counter s) (tokens_spawned s) (max_altitude s)
          (tick s) (clock s).

Definition is_valid_position (s : State) (px py pz : Z) : bool :=
  (0 <=? px) && (px <? size_x s) &&
  (0 <=? py) && (py <? size_y s) &&
  (0 <=? pz) && (pz <? size_z s).

Definition get_cell (s : State) (px py pz : Z) : option cell_ref :=
  if is_valid_position s px py pz then Some (px, py, pz) else None.

Definition get_cell_from_float (s : State) (fx fy fz : float) : option cell_ref :=
  get_cell s (int_of_float fx) (int_of_float fy) (int_of_float fz).

(** [Grid._find_adjacent_cell]: the first of the eight horizontal
    neighbours that exists, is not [exclude_cell] and holds less than the
    capacity. *)
Definition _find_adjacent_cell (s : State) (fx fy fz : float)
    (exclude_cell : cell_ref) : option cell_ref :=
  let ix := int_of_float fx in
  let iy := int_of_float fy in
  let iz := int_of_float fz in
  List.find (fun cell =>
               negb (cell_ref_eqb cell exclude_cell)
               && (Cell.current_mass (cells s cell) <? Cell.MAX_CAPACITY))
            (omap (fun '(dx, dy) => get_cell s (ix + dx) (iy + dy) iz) offsets2).

(** [Grid._handle_spillover]; [move] is the recursive call of
    [move_token]. *)
Definition _handle_spillover
    (move : State -> tok -> float -> float -> float -> option (bool * State))
    (s : State) (token : tok) (full_cell : cell_ref) : option (bool * State) :=
  let '(fx, fy, fz) := cell_pos full_cell in
  match _find_adjacent_cell s fx fy fz full_cell with
  | Some adjacent =>
      let '(ax, ay, az) := cell_pos adjacent in
      move s token ax ay az
  | None => Some (false, s)
  end.

(** [Grid.move_token] *)
Fixpoint move_token (fuel : nat) (s : State) (token : tok)
    (new_x new_y new_z : float) : option (bool * State) :=
  match fuel with
  | O => None
  | S fuel' =>
      let old_cell :=
        get_cell_from_float s (Token.x (deref s token)) (Token.y (deref s token))
                            (Token.z (deref s token)) in
      match get_cell_from_float s new_x new_y new_z with
      | None =>
          (* out of bounds: the token leaves the simulation *)
          let s1 := match old_cell with
                    | Some oc => cell_remove_token oc token s
                    | None => s
                    end in
          Some (false, with_all_tokens (all_tokens s1 ∖ {[token]}) s1)
      | Some new_cell =>
          (* mutual exclusion: [None] stands for the early [return False] *)
          target ←
            match Cell.has_mutually_exclusive_token (heap s) (cells s new_cell) token with
            | Some exclusive_token =>
                m1 ← Token.get_chain_mass fuel' (heap s) token;
                m2 ← Token.get_chain_mass fuel' (heap s) exclusive_token;
                if m1 <? m2 then
                  match _find_adjacent_cell s new_x new_y new_z new_cell with
                  | Some alt_cell => Some (Some (alt_cell, cell_pos alt_cell))
                  | None => Some None
                  end
                else Some (Some (new_cell, (new_x, new_y, new_z)))
            | None => Some (Some (new_cell, (new_x, new_y, new_z)))
            end;
          match target with
          | None => Some (false, s)
          | Some (new_cell, (new_x, new_y, new_z)) =>
              if Cell.can_accept (heap s) (cells s new_cell) token then
                let s1 := match old_cell with
                          | Some oc =>
                              if negb (cell_ref_eqb oc new_cell)
                              then cell_remove_token oc token s
                              else s
                          | None => s
                          end in
                let s2 := cell_add_token new_cell token s1 in
                Some (true, upd_token (Token.set_pos new_x new_y new_z) token s2)
              else
                _handle_spillover (move_token fuel') s token new_cell
          end
      end
  end.

(** [Grid.add_token_to_grid] *)
Definition add_token_to_grid (s : State) (token : tok) : State * bool :=
  match get_cell_from_float s (Token.x (deref s token)) (Token.y (deref s token))
                            (Token.z (deref s token)) with
  | Some cell =>
      if (Cell.add_token (heap s) (cells s cell) token).2
      then let s1 := cell_add_token cell token s in
           (with_all_tokens ({[token]} ∪ all_tokens s1) s1, true)
      else (s, false)
  | None => (s, false)
  end.

(** [Grid.remove_token_from_grid] *)
Definition remove_token_from_grid (s : State) (token : tok) : State :=
  let s1 :=
    match get_cell_from_float s (Token.x (deref s token)) (Token.y (deref s token))
                              (Token.z (deref s token)) with
    | Some cell => cell_remove_token cell token s
    | None => s
    end in
  with_all_tokens (all_tokens s1 ∖ {[token]}) s1.

(** [Grid.get_total_tokens] *)
Definition get_total_tokens (s : State) : Z := Z.of_nat (size (all_tokens s)).

(** The cells in the order of the three nested [range] loops. *)
Definition all_cells (s : State) : list cell_ref :=
  cx ← seqZ 0 (size_x s); cy ← seqZ 0 (size_y s); cz ← seqZ 0 (size_z s);
  [(cx, cy, cz)].

(** ** physics.py *)

Section Physics.
Context `{PyRandom}.

(** [PhysicsEngine._push_token_aside] *)
Definition _push_token_aside (fuel : nat) (s : State) (token : tok)
    (current_cell : cell_ref) : option State :=
  let '(cx, cy, cz) := current_cell in
  let adjacent_cells :=
    List.filter (fun cell => Cell.can_accept (heap s) (cells s cell) token)
                (omap (fun '(dx, dy) => get_cell s (cx + dx) (cy + dy) cz)
                      offsets2) in
  match adjacent_cells with
  | [] => Some s
  | first :: _ =>
      let target_cell :=
        nth (rand_below (clock s) (length adjacent_cells)) adjacent_cells first in
      let '(fx, fy, fz) := cell_pos target_cell in
      match move_token fuel (with_clock (S (clock s)) s) token fx fy fz with
      | Some (_, s1) => Some s1
      | None => None
      end
  end.

(** [PhysicsEngine._handle_collisions] *)
Definition _handle_collisions (fuel : nat) (s : State) (rising_token : tok)
    (old_z : float) : option State :=
  if Token.energy (deref s rising_token) <=? 0 then Some s
  else if PrimFloat.leb (Token.z (deref s rising_token)) old_z then Some s
  else
    match get_cell_from_float s (Token.x (deref s rising_token))
                              (Token.y (deref s rising_token))
                              (Token.z (deref s rising_token)) with
    | None => Some s
    | Some cell =>
        foldM (fun s other_token =>
                 if Nat.eqb other_token rising_token then Some s
                 else if (Token.energy (deref s other_token) <=? 0)
                         && PrimFloat.ltb (Token.z (deref s other_token))
                                          (Token.z (deref s rising_token))
                 then
                   let s1 := upd_token
                               (fun a => Token.set_energy (Token.energy a - 1) a)
                               rising_token s in
                   _push_token_aside fuel s1 other_token cell
                 else Some s)
              s (Cell.tokens (cells s cell))
    end.

(** [PhysicsEngine._apply_gravity_pull].  [d**2] is read as [d*d] and
    [v ** 0.5] as the correctly rounded square root. *)
Definition _apply_gravity_pull (s : State) (token : tok) : State :=
  if 0 <? Token.energy (deref s token) then s
  else
    match get_cell_from_float s (Token.x (deref s token)) (Token.y (deref s token))
                              (Token.z (deref s token)) with
    | None => s
    | Some (cx, cy, cz) =>
        let '(lowest_cell, _) :=
          foldl (fun '(lowest_cell, lowest_z) '(dx, dy, dz) =>
                   match get_cell s (cx + dx) (cy + dy) (cz + dz) with
                   | Some cell =>
                       if (cell.2 <? lowest_z)
                          && Cell.can_accept (heap s) (cells s cell) token
                       then (Some cell, cell.2)
                       else (lowest_cell, lowest_z)
                   | None => (lowest_cell, lowest_z)
                   end)
                (None, cz) offsets3 in
        match lowest_cell with
        | Some (lx, ly, lz) =>
            let a := deref s token in
            let dx := (float_of_int lx - Token.x a)%float in
            let dy := (float_of_int ly - Token.y a)%float in
            let dz := (float_of_int lz - Token.z a)%float in
            let distance := PrimFloat.sqrt (dx * dx + dy * dy + dz * dz)%float in
            if PrimFloat.ltb 0 distance then
              upd_token (fun a =>
                           Token.set_vel
                             (Token.vx a + 0.1 * dx / distance)%float
                             (Token.vy a + 0.1 * dy / distance)%float
                             (Token.vz a + 0.1 * dz / distance)%float a)
                        token s
            else s
        | None => s
        end
    end.

(** The body of the [for token in tokens_to_update] loop of
    [PhysicsEngine.update_all_tokens], up to the clamping of the new
    position: the state reached and the clamped position. *)
Definition before_move (fuel : nat) (s : State) (token : tok)
  : option (State * (float * float * float)) :=
  let old_z := Token.z (deref s token) in
  let s1 := with_heap (Token.update_position (heap s) token) s in
  match _handle_collisions fuel s1 token old_z with
  | Some s2 =>
      let s3 := _apply_gravity_pull s2 token in
      let new_x := py_max 0 (py_min (float_of_int (size_x s3 - 1))
                                    (Token.x (deref s3 token))) in
      let new_y := py_max 0 (py_min (float_of_int (size_y s3 - 1))
                                    (Token.y (deref s3 token))) in
      let new_z := py_max 0 (py_min (float_of_int (size_z s3 - 1))
                                    (Token.z (deref s3 token))) in
      Some (s3, (new_x, new_y, new_z))
  | None => None
  end.

(** The whole body of the loop. *)
Definition update_token (fuel : nat) (s : State) (token : tok) : option State :=
  if negb (bool_decide (token ∈ all_tokens s)) then Some s
  else
    let old_x := Token.x (deref s token) in
    let old_y := Token.y (deref s token) in
    let old_z := Token.z (deref s token) in
    match before_move fuel s token with
    | Some (s3, (new_x, new_y, new_z)) =>
        if PrimFloat.ltb new_z 0 then Some (remove_token_from_grid s3 token)
        else
          match move_token fuel s3 token new_x new_y new_z with
          | Some (success, s4) =>
              if success then Some s4
              else Some (upd_token (Token.set_pos old_x old_y old_z) token s4)
          | None => None
          end
    | None => None
    end.

(** [PhysicsEngine.update_all_tokens] *)
Definition update_all_tokens (fuel : nat) (s : State) : option State :=
  let tokens_to_update := set_order (clock s) (all_tokens s) in
  foldM (update_token fuel) (with_clock (S (clock s)) s) tokens_to_update.

(** [PhysicsEngine._redistribute_tokens]: one round of the [while] loop
    per unit of fuel. *)
Fixpoint _redistribute_tokens (fuel : nat) (s : State) (cell : cell_ref)
  : option State :=
  match fuel with
  | O => None
  | S fuel' =>
      match Cell.tokens (cells s cell) with
      | first :: rest =>
          if Cell.MAX_CAPACITY <? Cell.current_mass (cells s cell) then
            let lightest_token :=
              min_by (fun r => Token.mass (deref s r)) rest first in
            let '(fx, fy, fz) := cell_pos cell in
            match _find_adjacent_cell s fx fy fz cell with
            | Some adjacent =>
                let '(ax, ay, az) := cell_pos adjacent in
                match move_token fuel' s lightest_token ax ay az with
                | Some (_, s1) => _redistribute_tokens fuel' s1 cell
                | None => None
                end
            | None => Some (remove_token_from_grid s lightest_token)
            end
          else Some s
      | [] => Some s
      end
  end.

(** [PhysicsEngine.handle_spillover] *)
Definition handle_spillover (fuel : nat) (s : State) : option State :=
  foldM (fun s cell =>
           if Cell.MAX_CAPACITY <? Cell.current_mass (cells s cell)
           then _redistribute_tokens fuel s cell
           else Some s)
        s (all_cells s).

End Physics.

(** ** biochemistry.py: the engine *)

(** [chain.add_token(token)] and friends act on the chain object stored at
    index [i] of [self.chains]. *)
Definition chain_at (s : State) (i : nat) : TokenChain.t :=
  default (TokenChain.mk 0%nat 0%nat [] true 0) (chains s !! i).
Definition set_chain (i : nat) (c : TokenChain.t) (s : State) : State :=
  with_chains (<[i := c]> (chains s)) s.

(** [BiochemistryEngine._distribute_energy] *)
Definition _distribute_energy (h : Token.heap) (chain : TokenChain.t)
    (energy : Z) : Token.heap :=
  let tokens_sorted :=
    sorted_by (fun r => Token.energy (Token.get h r)) (TokenChain.tokens chain) in
  foldl (fun h r => Token.upd (fun a => Token.set_energy (Token.energy a + 1) a) r h)
        h (take (Z.to_nat energy) tokens_sorted).

(** [BiochemistryEngine._create_or_extend_chain] *)
Definition _create_or_extend_chain (fuel : nat) (s : State) (token1 token2 : tok)
  : option State :=
  let '(h1, chain, next_id) :=
    TokenChain.init (heap s) (_next_chain_id s) token1 in
  match TokenChain.add_token fuel h1 chain token2 with
  | Some (h2, chain1, energy) =>
      let s1 := with_chains (chains s ++ [chain1])%list
                  (with_next_chain_id next_id (with_heap h2 s)) in
      Some (with_heap (_distribute_energy (heap s1) chain1 energy) s1)
  | None => None
  end.

(** [BiochemistryEngine._get_chains_in_cell]: the chains, by index. *)
Definition _get_chains_in_cell (s : State) (cell : cell_ref) : list nat :=
  let chain_ids :=
    omap (fun r => Token.chain_id (deref s r)) (Cell.tokens (cells s cell)) in
  List.filter (fun i => list_mem (TokenChain.chain_id (chain_at s i)) chain_ids)
              (seq 0%nat (length (chains s))).

(** The inner [for token2 in free_tokens[i+1:]] loop with its [break]. *)
Fixpoint first_bond (fuel : nat) (s : State) (token1 : tok) (l : list tok)
  : option State :=
  match l with
  | [] => Some s
  | token2 :: l' =>
      let '(can_bond, strength) :=
        Token.can_bond_with (deref s token1) (deref s token2) in
      if can_bond && (50 <? strength)
      then _create_or_extend_chain fuel s token1 token2
      else first_bond fuel s token1 l'
  end.

(** The outer [for i, token1 in enumerate(free_tokens)] loop. *)
Fixpoint bond_pairs (fuel : nat) (s : State) (free_tokens : list tok)
  : option State :=
  match free_tokens with
  | [] => Some s
  | token1 :: rest =>
      match first_bond fuel s token1 rest with
      | Some s1 => bond_pairs fuel s1 rest
      | None => None
      end
  end.

(** The inner [for token in free_tokens] loop of the extension pass, for
    the chain at index [i]. *)
Fixpoint extend_chain (fuel : nat) (s : State) (i : nat) (l : list tok)
  : option State :=
  match l with
  | [] => Some s
  | token :: l' =>
      match Token.chain_id (deref s token) with
      | Some _ => extend_chain fuel s i l'
      | None =>
          match TokenChain.find_tail fuel (heap s) (TokenChain.head (chain_at s i)) with
          | Some tail =>
              let '(can_bond, strength) :=
                Token.can_bond_with (deref s tail) (deref s token) in
              if can_bond && (50 <? strength) then
                match TokenChain.add_token fuel (heap s) (chain_at s i) token with
                | Some (h1, chain1, energy) =>
                    Some (with_heap (_distribute_energy h1 chain1 energy)
                                    (set_chain i chain1 s))
                | None => None
                end
              else extend_chain fuel s i l'
          | None => None
          end
      end
  end.

(** [BiochemistryEngine._combine_tokens_in_cell] *)
Definition _combine_tokens_in_cell (fuel : nat) (s : State) (cell : cell_ref)
  : option State :=
  let free_tokens :=
    List.filter (fun r => match Token.chain_id (deref s r) with
                          | None => negb (Token.damaged (deref s r))
                          | Some _ => false
                          end)
                (Cell.tokens (cells s cell)) in
  match free_tokens with
  | [] => Some s
  | _ =>
      match bond_pairs fuel s free_tokens with
      | Some s1 =>
          let chains_in_cell := _get_chains_in_cell s1 cell in
          foldM (fun s i => extend_chain fuel s i free_tokens) s1 chains_in_cell
      | None => None
      end
  end.

(** [BiochemistryEngine._attempt_token_combinations] *)
Definition _attempt_token_combinations (fuel : nat) (s : State) : option State :=
  foldM (fun s cell =>
           if (length (Cell.tokens (cells s cell)) <? 2)%nat then Some s
           else _combine_tokens_in_cell fuel s cell)
        s (all_cells s).

(** [BiochemistryEngine._check_grammar_rule] *)
Definition _check_grammar_rule (token1 token2 : Token.t) : bool :=
  if in_set (Token.value token1) ["int"; "float"; "char"; "void"]
     && negb (in_types (Token.type token2) [identifier; punctuation])
  then false
  else if TokenType_eqb (Token.type token1) operator
          && negb (in_set (Token.value token1) ["++"; "--"])
          && negb (in_types (Token.type token2) [identifier; literal; punctuation])
  then false
  else true.

(** The [errors.append] calls of one round of the validation loop. *)
Definition link_errors (h : Token.heap) (current next_token : tok)
  : list (tok * tok) :=
  let '(can_bond, strength) :=
    Token.can_bond_with (Token.get h current) (Token.get h next_token) in
  ((if negb can_bond || (strength <? 30) then [(current, next_token)] else [])
   ++ (if negb (_check_grammar_rule (Token.get h current) (Token.get h next_token))
       then [(current, next_token)] else []))%list.

(** The [while current and current.next_token] loop of
    [_validate_grammar]. *)
Fixpoint validate_walk (fuel : nat) (h : Token.heap) (current : tok)
  : option (list (tok * tok)) :=
  match Token.next_token (Token.get h current) with
  | None => Some []
  | Some next_token =>
      match fuel with
      | O => None
      | S fuel' =>
          match validate_walk fuel' h next_token with
          | Some rest => Some (link_errors h current next_token ++ rest)%list
          | None => None
          end
      end
  end.

(** [BiochemistryEngine._validate_grammar] *)
Definition _validate_grammar (fuel : nat) (h : Token.heap) (chain : TokenChain.t)
  : option (bool * list (tok * tok)) :=
  match validate_walk fuel h (TokenChain.head chain) with
  | Some errors => Some ((length errors =? 0)%nat, errors)
  | None => None
  end.

(** The reconnection search of [_fix_grammar_errors]: the first token of
    the cell, other than the two of the link, that [token1] bonds to with
    strength above 50. *)
Definition reconnect_candidate (s : State) (cell : cell_ref) (token1 token2 : tok)
  : option tok :=
  List.find (fun other_token =>
               negb (Nat.eqb other_token token1 || Nat.eqb other_token token2)
               && (let '(can_bond, strength) :=
                     Token.can_bond_with (deref s token1) (deref s other_token) in
                   can_bond && (50 <? strength)))
            (Cell.tokens (cells s cell)).

(** One round of the loop of [_fix_grammar_errors], for the chain at
    index [i]. *)
Definition fix_one (i : nat) (s : State) (e : tok * tok) : State :=
  let '(token1, token2) := e in
  let s1 := with_heap (Token.break_bond (heap s) token1) s in
  match get_cell_from_float s1 (Token.x (deref s1 token1)) (Token.y (deref s1 token1))
                            (Token.z (deref s1 token1)) with
  | Some cell =>
      match reconnect_candidate s1 cell token1 token2 with
      | Some other_token =>
          with_heap (Token.bond_to (heap s1) token1 other_token
                                   (TokenChain.chain_id (chain_at s1 i))).1 s1
      | None =>
          let '(h2, chain1) :=
            TokenChain.remove_token (heap s1) (chain_at s1 i) token2 in
          set_chain i chain1 (with_heap h2 s1)
      end
  | None => s1
  end.

(** [BiochemistryEngine._fix_grammar_errors] *)
Definition _fix_grammar_errors (s : State) (i : nat) (errors : list (tok * tok))
  : State :=
  foldl (fix_one i) s errors.

(** [BiochemistryEngine._validate_chains] *)
Definition _validate_chains (fuel : nat) (s : State) (tick : Z) : option State :=
  foldM (fun s i =>
           if tick - TokenChain.last_validated_tick (chain_at s i) <? 10 then Some s
           else
             let s1 := set_chain i (TokenChain.set_last_validated_tick tick
                                      (chain_at s i)) s in
             match _validate_grammar fuel (heap s1) (chain_at s1 i) with
             | Some (is_valid, errors) =>
                 if negb is_valid then Some (_fix_grammar_errors s1 i errors)
                 else Some s1
             | None => None
             end)
        s (seq 0%nat (length (chains s))).

(** [BiochemistryEngine.update_all_chains] *)
Definition update_all_chains (fuel : nat) (s : State) (tick : Z) : option State :=
  match _attempt_token_combinations fuel s with
  | Some s1 =>
      match _validate_chains fuel s1 tick with
      | Some s2 =>
          Some (with_chains
                  (List.filter (fun c => negb (length (TokenChain.tokens c) =? 0)%nat)
                               (chains s2)) s2)
      | None => None
      end
  | None => None
  end.

(** [str(n)] on an integer. *)
Definition str_of_int (n : Z) : string :=
  DecimalString.NilZero.string_of_int (Z.to_int n).

Section Engine.
Context `{PyStr} `{PyRandom}.

(** [BiochemistryEngine._generate_default_value] *)
Definition _generate_default_value (s : State) : Z * State :=
  (nth (rand_below (clock s) 5) [0; 1; 2; 5; 10] 0,
   with_clock (S (clock s)) s).

(** The [while current and current.next_token] loop of
    [insert_default_values] for one chain. *)
Fixpoint insert_walk (fuel : nat) (s : State) (current : tok) : option State :=
  match Token.next_token (deref s current) with
  | None => Some s
  | Some next_token =>
      match fuel with
      | O => None
      | S fuel' =>
          let s1 :=
            if TokenType_eqb (Token.type (deref s current)) operator
               && String.eqb (Token.value (deref s current)) "="
               && TokenType_eqb (Token.type (deref s next_token)) punctuation
            then
              let '(default_value, s1) := _generate_default_value s in
              if negb (default_value =? 0) then
                let '(h, value_token) :=
                  Token.alloc (Token.init (str_of_int default_value)
                                          (Token.x (deref s1 current))
                                          (Token.y (deref s1 current))
                                          (Token.z (deref s1 current)) 10)
                              (heap s1) in
                (add_token_to_grid (with_heap h s1) value_token).1
              else s1
            else s in
          insert_walk fuel' s1 next_token
      end
  end.

(** [BiochemistryEngine.insert_default_values] *)
Definition insert_default_values (fuel : nat) (s : State) : option State :=
  foldM (fun s i => insert_walk fuel s (TokenChain.head (chain_at s i)))
        s (seq 0%nat (length (chains s))).

(** ** damage.py *)

(** [DamageSystem.calculate_damage_probability]; [n ** 3] is read as
    [n * n * n]. *)
Definition calculate_damage_probability (s : State) (fz : float) : float :=
  if PrimFloat.leb fz 0 then 0%float
  else
    let normalized_z := py_min (fz / float_of_int (max_altitude s))%float 1 in
    let damage_prob := (normalized_z * normalized_z * normalized_z * 0.5)%float in
    py_min damage_prob 0.5.

(** [DamageSystem._handle_damaged_token] *)
Definition _handle_damaged_token (s : State) (token : tok) : State :=
  match Token.chain_id (deref s token) with
  | Some _ =>
      let s0 := with_clock (S (clock s)) s in
      if PrimFloat.ltb (rand_float (clock s)) 0.7 then
        let s1 := match Token.prev_token (deref s0 token) with
                  | Some p => with_heap (Token.break_bond (heap s0) p) s0
                  | None => s0
                  end in
        let s2 := match Token.next_token (deref s1 token) with
                  | Some _ => with_heap (Token.break_bond (heap s1) token) s1
                  | None => s1
                  end in
        upd_token (Token.set_chain_id None) token s2
      else s0
  | None => s
  end.

(** [DamageSystem.apply_damage_to_all_tokens] *)
Definition apply_damage_to_all_tokens (s : State) : State :=
  foldl (fun s token =>
           if negb (bool_decide (token ∈ all_tokens s)) then s
           else
             let damage_prob :=
               calculate_damage_probability s (Token.z (deref s token)) in
             if PrimFloat.ltb 0 damage_prob then
               let '(h, k) := Token.apply_damage (heap s) token damage_prob (clock s) in
               let s1 := with_clock k (with_heap h s) in
               if Token.damaged (deref s1 token)
               then _handle_damaged_token s1 token
               else s1
             else s)
        (with_clock (S (clock s)) s) (set_order (clock s) (all_tokens s)).

(** [DamageSystem._calculate_repair_probability] *)
Definition _calculate_repair_probability (s : State) (fz : float) : float :=
  let half := (float_of_int (max_altitude s) / 2)%float in
  if PrimFloat.leb half fz then 0%float
  else
    let normalized_z := (fz / half)%float in
    ((1 - normalized_z) * 0.1)%float.

(** [DamageSystem.repair_damaged_tokens] *)
Definition repair_damaged_tokens (s : State) : State :=
  foldl (fun s token =>
           if negb (Token.damaged (deref s token)) then s
           else
             let repair_prob :=
               _calculate_repair_probability s (Token.z (deref s token)) in
             let s0 := with_clock (S (clock s)) s in
             if PrimFloat.ltb (rand_float (clock s)) repair_prob then
               upd_token (fun a =>
                            Token.set_type (Token._determine_type (Token.value a))
                                           (Token.set_damaged false a))
                         token s0
             else s0)
        (with_clock (S (clock s)) s) (set_order (clock s) (all_tokens s)).

(** ** vent.py *)

Definition C_TOKENS : list string :=
  ["if"; "else"; "for"; "while"; "return"; "int"; "float"; "char"; "void";
   "struct"; "typedef"; "sizeof"; "const"; "static"; "break"; "continue";
   "+"; "-"; "*"; "/"; "="; "=="; "!="; "<"; ">"; "<="; ">="; "&&"; "||";
   "++"; "--"; "+="; "-="; "*="; "/="; "&"; "|"; "^"; "~"; "<<"; ">>";
   "("; ")"; "{"; "}"; "["; "]"; ";"; ","; "."; "->"; "%";
   "main"; "printf"; "scanf"; "malloc"; "free"; "NULL"; "argc"; "argv";
   "i"; "j"; "k"; "x"; "y"; "z"; "n"; "count"; "sum"; "temp"; "result";
   "0"; "1"; "2"; "10"; "100"; "0x00"; "0xFF"].

(** [HydrothermalVent.spawn_token]: the new token is allocated in the
    heap. *)
Definition spawn_token (s : State) : tok * State :=
  let token_value := nth (rand_below (clock s) (length C_TOKENS)) C_TOKENS "" in
  let '(h, token) :=
    Token.alloc (Token.init token_value (float_of_int (vent_x s))
                            (float_of_int (vent_y s)) (float_of_int (vent_z s)) 50)
                (heap s) in
  (token, with_vent (tick_counter s) (tokens_spawned s + 1)
            (with_clock (S (clock s)) (with_heap h s))).

(** [HydrothermalVent.update] *)
Definition vent_update (s : State) : option tok * State :=
  let s1 := with_vent (tick_counter s + 1) (tokens_spawned s) s in
  if spawn_rate s1 <=? tick_counter s1 then
    let '(token, s2) := spawn_token (with_vent 0 (tokens_spawned s1) s1) in
    (Some token, s2)
  else (None, s1).

(** ** simulation.py *)

(** [Simulation.__init__] with the default vent position. *)
Definition Simulation_init (grid_size : Z) : State :=
  mkState [] grid_size grid_size grid_size (fun _ => Cell.init) ∅
          [] 0 (grid_size / 2) (grid_size / 2) 0 10 0 0 grid_size 0 0.

(** [Simulation.step]; the statistics of step 8 only read the state. *)
Definition step (fuel : nat) (s : State) : option State :=
  let s := with_tick (tick s + 1) s in
  (* 1. spawn *)
  let s :=
    match vent_update s with
    | (Some new_token, s1) => (add_token_to_grid s1 new_token).1
    | (None, s1) => s1
    end in
  (* 2. physics *)
  s ← update_all_tokens fuel s;
  (* 3. spillover *)
  s ← handle_spillover fuel s;
  (* 4. biochemistry *)
  s ← update_all_chains fuel s (tick s);
  (* 5. default values *)
  s ← (if tick s mod 50 =? 0 then insert_default_values fuel s else Some s);
  (* 6. damage *)
  let s := apply_damage_to_all_tokens s in
  (* 7. repair *)
  let s := if tick s mod 20 =? 0 then repair_damaged_tokens s else s in
  Some s.

(** [Simulation.run]: [num_ticks] steps. *)
Fixpoint run (fuel : nat) (num_ticks : nat) (s : State) : option State :=
  match num_ticks with
  | O => Some s
  | S n => match step fuel s with
           | Some s1 => run fuel n s1
           | None => None
           end
  end.

End Engine.

(** * Properties

    ** Well-typed tokens

    The constructor computes [metadata['type']] from the value; damage may
    overwrite it with ['unknown'] only on a token it marks damaged, and
    repair recomputes it when it clears the mark.  An undamaged token
    therefore carries the type of its value. *)
Definition token_typed `{PyStr} (a : Token.t) : Prop :=
  Token.damaged a = false -> Token.type a = Token._determine_type (Token.value a).

(** ** The bonding table, as the specification words it

    A list of rules, each a condition on the pair [(A, B)] and the result
    it gives; the first rule whose condition holds decides, and no rule
    means no bond.  "B is an identifier" reads B's type classification;
    "A is '('" reads A's value. *)
Definition is_value (a : Token.t) (v : string) : bool := String.eqb (Token.value a) v.
Definition is_type (a : Token.t) (ts : list TokenType) : bool :=
  in_types (Token.type a) ts.
Definition value_in (a : Token.t) (vs : list string) : bool :=
  in_set (Token.value a) vs.

Definition spec_bonding_rules (A B : Token.t) : list (bool * (bool * Z)) :=
  [ (Token.damaged A || Token.damaged B, (false, 0));
    (is_value A "(" && is_value B ")"
     || is_value A "{" && is_value B "}"
     || is_value A "[" && is_value B "]", (true, 100));
    (value_in A ["if"; "while"; "for"] && is_value B "(", (true, 90));
    (value_in A ["int"; "float"; "var"; "let"; "const"]
     && is_type B [identifier], (true, 85));
    (is_value A "=" && is_type B [identifier; literal], (true, 80));
    (value_in A ["+"; "-"; "*"; "/"; "=="; "!="; "<"; ">"]
     && is_type B [identifier; literal], (true, 75));
    (is_value A "(" && is_type B [identifier; literal; keyword], (true, 70));
    (is_value A "," && is_type B [identifier; literal], (true, 60));
    (is_type A [identifier; literal]
     && value_in B ["+"; "-"; "*"; "/"; "="; ";"; ","; ")"], (true, 50)) ].

Fixpoint first_match (rules : list (bool * (bool * Z))) : bool * Z :=
  match rules with
  | [] => (false, 0)
  | (condition, result) :: rest => if condition then result else first_match rest
  end.

Definition spec_can_bond (A B : Token.t) : bool * Z :=
  first_match (spec_bonding_rules A B).

(** ** Grammar validation, as the specification words it

    A link is invalid when the pair's bond strength is below 30, or when a
    grammar rule is violated: a type keyword ([int], [float], [char],
    [void]) is not followed by an identifier or punctuation, or an
    operator other than [++] and [--] is not followed by an identifier, a
    literal or punctuation. *)
Definition bond_strength (A B : Token.t) : Z := (Token.can_bond_with A B).2.

Definition is_type_keyword (a : Token.t) : bool :=
  value_in a ["int"; "float"; "char"; "void"].

Definition spec_rule_violated (A B : Token.t) : bool :=
  is_type_keyword A && negb (is_type B [identifier; punctuation])
  || is_type A [operator] && negb (value_in A ["++"; "--"])
     && negb (is_type B [identifier; literal; punctuation]).

Definition spec_link_invalid (A B : Token.t) : bool :=
  (bond_strength A B <? 30) || spec_rule_violated A B.

(** The consecutive links of a sequence of tokens. *)
Fixpoint links (l : list tok) : list (tok * tok) :=
  match l with
  | a :: (b :: _) as rest => (a, b) :: links rest
  | _ => []
  end.

(** ** Energy

    The total energy of the live tokens, as [PhysicsEngine.get_statistics]
    sums it over [all_tokens]. *)
Definition total_energy (s : State) : Z :=
  foldr Z.add 0 (map (fun r => Token.energy (deref s r)) (elements (all_tokens s))).

(** The member of a two-token chain that receives the unit of energy: the
    one of strictly lower energy, the head on a tie. *)
Definition lowest_energy (s : State) (token1 token2 : tok) : tok :=
  if Token.energy (deref s token2) <? Token.energy (deref s token1)
  then token2 else token1.

(** ** The capacity invariant

    In every cell the recorded mass is the sum of the masses of the tokens
    of its list, and is at most the capacity. *)
Definition sum_masses (h : Token.heap) (l : list tok) : Z :=
  foldr Z.add 0 (map (fun r => Token.mass (Token.get h r)) l).

Definition capacity_invariant (s : State) : Prop :=
  forall c : cell_ref,
    Cell.current_mass (cells s c) = sum_masses (heap s) (Cell.tokens (cells s c))
    /\ Cell.current_mass (cells s c) <= Cell.MAX_CAPACITY.

(** What the invariant is carried along with: references held by the
    cells and by the set of live tokens point into the heap, and no token
    has a negative mass. *)
Definition refs_allocated (s : State) : Prop :=
  (forall c r, In r (Cell.tokens (cells s c)) -> (r < length (heap s))%nat)
  /\ (forall r, r ∈ all_tokens s -> (r < length (heap s))%nat).

Definition masses_nonneg (h : Token.heap) : Prop :=
  forall r, 0 <= Token.mass (Token.get h r).

Definition grid_wf (s : State) : Prop :=
  capacity_invariant s /\ refs_allocated s /\ masses_nonneg (heap s).

(** [s'] is a well-formed successor of [s]: well-formed, with every
    reference of [s] still allocated. *)
Definition wf_step (s s' : State) : Prop :=
  grid_wf s' /\ (length (heap s) <= length (heap s'))%nat.

(** A heap that differs from [h] in mutable fields only. *)
Definition same_masses (h h' : Token.heap) : Prop :=
  length h' = length h
  /\ forall r, Token.mass (Token.get h' r) = Token.mass (Token.get h r).

(** A state that differs from [s] in token fields other than the mass
    and in fields outside the grid. *)
Definition heap_only (s s' : State) : Prop :=
  cells s' = cells s /\ all_tokens s' = all_tokens s
  /\ same_masses (heap s) (heap s').

(** ** Exact indices

    [float(n)] is exact on the indices of the grid (as it is on every
    integer below 2^53), so that [int(float(n))] is [n]. *)
Definition exact_index (n : Z) : Prop := int_of_float (float_of_int n) = n.

Definition grid_indices_exact (s : State) : Prop :=
  forall px py pz,
    is_valid_position s px py pz = true ->
    exact_index px /\ exact_index py /\ exact_index pz.

(** ** Cell membership

    How often the cell at [c] lists the token [r], and the states in which
    every cell lists [r] as often as it does in [s]. *)
Definition occurrences (s : State) (c : cell_ref) (r : tok) : nat :=
  count_occ Nat.eq_dec (Cell.tokens (cells s c)) r.

Definition same_membership (r : tok) (s s' : State) : Prop :=
  forall c, occurrences s' c r = occurrences s c r.

(** * Concrete runs

    ** An interpreter for the scenarios

    The string builtins on ASCII text: an identifier is a letter or
    underscore followed by letters, digits and underscores; [isdigit]
    holds of non-empty digit strings; [float] is taken to accept an
    optional sign, digits and at most one point.  On the tokens the vent
    emits and the engine creates these agree with Python. *)
Definition is_letter (c : Ascii.ascii) : bool :=
  let n := Ascii.nat_of_ascii c in
  ((65 <=? n) && (n <=? 90) || (97 <=? n) && (n <=? 122) || (n =? 95))%nat.
Definition is_digit (c : Ascii.ascii) : bool :=
  let n := Ascii.nat_of_ascii c in ((48 <=? n) && (n <=? 57))%nat.

Definition ascii_isidentifier (v : string) : bool :=
  match v with
  | EmptyString => false
  | String c rest =>
      is_letter c && forallb (fun c => is_letter c || is_digit c) (list_ascii_of_string rest)
  end.
Definition ascii_isdigit (v : string) : bool :=
  match v with
  | EmptyString => false
  | _ => forallb is_digit (list_ascii_of_string v)
  end.
Definition decimal_parses (v : string) : bool :=
  let body := match v with
              | String "+"%char rest | String "-"%char rest => rest
              | _ => v
              end in
  let cs := list_ascii_of_string body in
  forallb (fun c => is_digit c || Ascii.eqb c "."%char) cs
  && (1 <=? length (List.filter is_digit cs))%nat
  && (length (List.filter (Ascii.eqb "."%char) cs) <=? 1)%nat.

Definition ascii_builtins : PyStr :=
  {| str_isidentifier := ascii_isidentifier;
     str_isdigit := ascii_isdigit;
     float_parses := decimal_parses |}.

(** A generator whose draws are all zero ([random.choice] takes the first
    element, [random.random] returns 0.0), with the token set iterated in
    the order of [elements], and the same generator with the set iterated
    in the reverse order. *)
Definition zero_draws : PyRandom :=
  {| rand_below := fun _ _ => 0%nat;
     rand_float := fun _ => 0%float;
     set_order := fun _ s => elements s |}.


(** [Token(value, x, y, z, energy)] under the ASCII builtins. *)
Definition new_token (v : string) (px py pz : float) (e : Z) : Token.t :=
  @Token.init ascii_builtins v px py pz e.

(** A grid of the given sizes with no token, no chain. *)
Definition empty_grid (sx sy sz : Z) : State :=
  mkState [] sx sy sz (fun _ => Cell.init) ∅ [] 0 (sx / 2) (sy / 2) 0 10 0 0 sz 0 0.

(** Allocate the tokens in order and [add_token_to_grid] each. *)
Definition populate (s : State) (l : list Token.t) : State :=
  foldl (fun s a =>
           let '(h, r) := Token.alloc a (heap s) in
           (add_token_to_grid (with_heap h s) r).1) s l.

(** Linking the token at [a] to the token at [b] by hand, as
    [a.bond_to(b, cid)] does. *)
Definition linked (h : Token.heap) (a b : tok) (cid : nat) : Token.heap :=
  (Token.bond_to h a b cid).1.

(** The chain [int -> ;] of the specification's scenario, both tokens in
    the cell (1,1,1) of a 3x3x3 grid. *)
Definition int_semicolon : State :=
  let s := populate (empty_grid 3 3 3)
             [new_token "int" 1 1 1 0; new_token ";" 1 1 1 0] in
  with_chains [TokenChain.mk 0 0%nat [0%nat; 1%nat] true 0]
    (with_next_chain_id 1 (with_heap (linked (heap s) 0 1 0) s)).

(** The specification's sink scenario: one token at [z = 0] with energy 0
    and no velocity, in the middle of the floor of a 3x3x3 grid. *)
Definition sinking_at_floor : State :=
  populate (empty_grid 3 3 3) [new_token "x" 1 1 0 0].

(** A new simulation of side 2 to whose grid a rising [if] and, above it,
    a sinking [while] have been added. *)
Definition crossing : State :=
  populate (@Simulation_init 2)
    [new_token "if" 0 0 0 3; new_token "while" 0 0 1 0].

(** The same two tokens on a grid of one column: the [if] has nowhere to
    go. *)
Definition blocked : State :=
  populate (empty_grid 1 1 2) [new_token "if" 0 0 0 3; new_token "while" 0 0 1 0].

(** The state in which the physics pass calls [move_token] for the [if]
    token of [blocked]. *)
Definition blocked_at_move : State :=
  match @before_move zero_draws 3 blocked 0 with
  | Some (s, _) => s
  | None => blocked
  end.

(** A chain [int -> x] whose second token has been damaged, with a free
    identifier [y] in the same cell. *)
Definition damaged_link : State :=
  let s := populate (empty_grid 3 3 3)
             [new_token "int" 1 1 1 0; new_token "x" 1 1 1 0; new_token "y" 1 1 1 0] in
  with_chains [TokenChain.mk 0 0 [0; 1]%nat true 0]
    (with_next_chain_id 1
       (with_heap (Token.upd (Token.set_damaged true) 1 (linked (heap s) 0 1 0)) s)).

(** Three free tokens [if], [(], [x] in one cell. *)
Definition three_free : State :=
  populate (empty_grid 3 3 3)
    [new_token "if" 1 1 1 0; new_token "(" 1 1 1 0; new_token "x" 1 1 1 0].

(** Two tokens [(] and [)] in one cell. *)
Definition paren_pair : State :=
  populate (empty_grid 3 3 3) [new_token "(" 1 1 0 50; new_token ")" 1 1 0 50].

(** The corner cells (0,0,0) and (0,1,0) of a 3x3x3 grid each hold 333
    tokens [int] (mass 999); a token [if] (mass 2) sits at (2,2,0). *)
Definition crowded_corner : State :=
  populate (empty_grid 3 3 3)
    (repeat (new_token "int" 0 0 0 0) 333
     ++ repeat (new_token "int" 0 1 0 0) 333
     ++ [new_token "if" 2 2 0 0])%list.

(** A generator with varied draws, for longer runs. *)
Definition mixed_draws : PyRandom :=
  {| rand_below := fun k n => ((k * 7 + 3) mod n)%nat;
     rand_float := fun k => if Nat.even k then 0.25%float else 0.75%float;
     set_order := fun _ s => elements s |}.

(** * The rest of the code

    ** grid.py: the queries *)

(** The strings [metadata['type']] takes. *)
Definition type_name (t : TokenType) : string :=
  match t with
  | keyword => "keyword"
  | operator => "operator"
  | punctuation => "punctuation"
  | identifier => "identifier"
  | literal => "literal"
  | unknown => "unknown"
  end.

(** [Cell.get_tokens_by_type] *)
Definition get_tokens_by_type (h : Token.heap) (self : Cell.t) (token_type : string)
  : list tok :=
  List.filter (fun t => String.eqb (type_name (Token.type (Token.get h t))) token_type)
              (Cell.tokens self).

(** [Grid.get_adjacent_cells] *)
Definition get_adjacent_cells (s : State) (px py pz : Z) : list cell_ref :=
  omap (fun '(dx, dy, dz) => get_cell s (px + dx) (py + dy) (pz + dz)) offsets3.

(** [range(-radius, radius + 1)] *)
Definition radius_range (radius : Z) : list Z := seqZ (- radius) (2 * radius + 1).

(** [Grid.get_tokens_in_region] *)
Definition get_tokens_in_region (s : State) (px py pz : Z) (radius : Z) : list tok :=
  dx ← radius_range radius; dy ← radius_range radius; dz ← radius_range radius;
  match get_cell s (px + dx) (py + dy) (pz + dz) with
  | Some cell => Cell.tokens (cells s cell)
  | None => []
  end.

(** [Grid.get_total_mass]; a sum of integers over the set of live
    tokens. *)
Definition Grid_get_total_mass (s : State) : Z :=
  foldr Z.add 0 (map (fun r => Token.mass (deref s r)) (elements (all_tokens s))).

(** [Token.get_position] *)
Definition get_position (a : Token.t) : float * float * float :=
  (Token.x a, Token.y a, Token.z a).

(** ** The statistics

    [sum(1 for t in ... if test)] *)
Definition count_if (test : tok -> bool) (l : list tok) : Z :=
  Z.of_nat (length (List.filter test l)).

(** [sum(...)] over floats, from the integer 0. *)
Definition float_sum (l : list float) : float :=
  foldl PrimFloat.add 0%float l.

Record PhysicsStatistics := mkPhysicsStatistics {
  total_tokens : Z;
  rising_tokens : Z;
  sinking_tokens : Z;
  stat_total_energy : Z;
  average_altitude : float
}.

(** [PhysicsEngine.get_statistics]; the set is not written to between
    its iterations, which all yield the same order. *)
Definition physics_get_statistics `{PyRandom} (s : State) : PhysicsStatistics :=
  let live := set_order (clock s) (all_tokens s) in
  {| total_tokens := Z.of_nat (size (all_tokens s));
     rising_tokens := count_if (fun t => 0 <? Token.energy (deref s t)) live;
     sinking_tokens := count_if (fun t => Token.energy (deref s t) <=? 0) live;
     stat_total_energy := foldr Z.add 0 (map (fun t => Token.energy (deref s t)) live);
     average_altitude :=
       match live with
       | [] => 0%float
       | _ => (float_sum (map (fun t => Token.z (deref s t)) live)
               / float_of_int (Z.of_nat (size (all_tokens s))))%float
       end |}.

(** The altitude zones of [DamageSystem.get_statistics], in the order of
    the dictionary. *)
Inductive Zone := zone_low | zone_medium | zone_high | zone_very_high.

Definition Zone_eqb (a b : Zone) : bool :=
  match a, b with
  | zone_low, zone_low | zone_medium, zone_medium
  | zone_high, zone_high | zone_very_high, zone_very_high => true
  | _, _ => false
  end.

Definition zone_of (fz : float) : Zone :=
  if PrimFloat.ltb fz 25 then zone_low
  else if PrimFloat.ltb fz 50 then zone_medium
  else if PrimFloat.ltb fz 75 then zone_high
  else zone_very_high.

Record DamageStatistics := mkDamageStatistics {
  damaged_tokens : Z;
  damage_by_zone : Zone -> Z;
  tokens_by_zone : Zone -> Z
}.

(** [DamageSystem.get_statistics] *)
Definition damage_get_statistics `{PyRandom} (s : State) : DamageStatistics :=
  let live := set_order (clock s) (all_tokens s) in
  {| damaged_tokens := count_if (fun t => Token.damaged (deref s t)) live;
     damage_by_zone := fun zone =>
       count_if (fun t => Zone_eqb (zone_of (Token.z (deref s t))) zone
                          && Token.damaged (deref s t)) live;
     tokens_by_zone := fun zone =>
       count_if (fun t => Zone_eqb (zone_of (Token.z (deref s t))) zone) live |}.

Record BiochemistryStatistics := mkBiochemistryStatistics {
  total_chains : Z;
  valid_chains : Z;
  average_chain_length : float;
  longest_chain : Z
}.

(** [BiochemistryEngine.get_statistics]; the quotient of two integers
    below 2^53 is the quotient of the floats. *)
Definition biochemistry_get_statistics (s : State) : BiochemistryStatistics :=
  let total := Z.of_nat (length (chains s)) in
  let total_chain_length :=
    foldr Z.add 0 (map (fun c => Z.of_nat (length (TokenChain.tokens c))) (chains s)) in
  {| total_chains := total;
     valid_chains := Z.of_nat (length (List.filter TokenChain.is_valid (chains s)));
     average_chain_length :=
       if 0 <? total
       then (float_of_int total_chain_length / float_of_int total)%float
       else 0%float;
     longest_chain :=
       foldr Z.max 0 (map (fun c => Z.of_nat (length (TokenChain.tokens c))) (chains s)) |}.

(** ** Neighbourhoods

    The cell [c] exists; it is one of the eight cells around
    [(ix, iy, iz)] in its horizontal plane, one of the 26 around it in
    space, at distance at most [radius] from it along every axis. *)
Definition valid_cell (s : State) (c : cell_ref) : Prop :=
  is_valid_position s c.1.1 c.1.2 c.2 = true.

Definition horizontal_neighbour (ix iy iz : Z) (c : cell_ref) : Prop :=
  c.2 = iz /\ -1 <= c.1.1 - ix <= 1 /\ -1 <= c.1.2 - iy <= 1
  /\ (c.1.1, c.1.2) <> (ix, iy).

Definition spatial_neighbour (px py pz : Z) (c : cell_ref) : Prop :=
  -1 <= c.1.1 - px <= 1 /\ -1 <= c.1.2 - py <= 1 /\ -1 <= c.2 - pz <= 1
  /\ c <> (px, py, pz).

Definition within (radius : Z) (px py pz : Z) (c : cell_ref) : Prop :=
  - radius <= c.1.1 - px <= radius /\ - radius <= c.1.2 - py <= radius
  /\ - radius <= c.2 - pz <= radius.

(** ** Frames

    A heap that extends [h], agrees with it on [field] at every token of
    [h], and has the same [measure]. *)
Definition keeps {A M : Type} (field : Token.t -> A) (measure : Token.heap -> M)
    (h h' : Token.heap) : Prop :=
  (length h <= length h')%nat
  /\ (forall r, (r < length h)%nat -> field (Token.get h' r) = field (Token.get h r))
  /\ measure h' = measure h.

(** The parameters of the grid, of the vent and of the damage system;
    the counters of the simulation and of the vent. *)
Definition config (s : State) : Z * Z * Z * (Z * Z * Z) * Z * Z :=
  (size_x s, size_y s, size_z s, (vent_x s, vent_y s, vent_z s),
   spawn_rate s, max_altitude s).

Definition counters (s : State) : Z * Z * Z :=
  (tick s, tick_counter s, tokens_spawned s).

(** Every chain of the engine carries [is_valid = True]. *)
Definition chains_flagged_valid (s : State) : Prop :=
  Forall (fun c => TokenChain.is_valid c = true) (chains s).

(** What a pass leaves alone: [field] of every token, the [measure] of
    the heap, the observation [obs] of the state, and the validity
    flags. *)
Definition frame {A M B : Type} (field : Token.t -> A) (measure : Token.heap -> M)
    (obs : State -> B) (s s' : State) : Prop :=
  keeps field measure (heap s) (heap s')
  /\ obs s' = obs s
  /\ (chains_flagged_valid s -> chains_flagged_valid s').

(** The measure of a pass that creates no token, and of one that may. *)
Definition heap_size (h : Token.heap) : nat := length h.
Definition any_size (h : Token.heap) : unit := tt.

(** The fields of a token by the object that writes them: the fields the
    constructor fixes, the fields the physics moves, the fields the
    biochemistry and the damage system write. *)
Definition identity_fields (a : Token.t) : string * Z := (Token.value a, Token.mass a).

Definition motion_fields (a : Token.t) : float * float * float * (float * float * float) :=
  (Token.x a, Token.y a, Token.z a, (Token.vx a, Token.vy a, Token.vz a)).

Definition bond_fields (a : Token.t)
  : TokenType * bool * option nat * option tok * option tok :=
  (Token.type a, Token.damaged a, Token.chain_id a, Token.next_token a,
   Token.prev_token a).

(** The parts of the state by the object that owns them: the grid's
    cells and set of live tokens, the engine's chains and id counter. *)
Definition grid_content (s : State) : (cell_ref -> Cell.t) * gset tok :=
  (cells s, all_tokens s).

Definition chain_content (s : State) : list TokenChain.t * nat :=
  (chains s, _next_chain_id s).

(** The state after the first step of a tick: the tick counted, the vent
    updated and the token it may have spawned added to the grid. *)
Definition after_spawn `{PyStr} `{PyRandom} (s : State) : State :=
  match vent_update (with_tick (tick s + 1) s) with
  | (Some new_token, s1) => (add_token_to_grid s1 new_token).1
  | (None, s1) => s1
  end.

(** The tokens allocated between [s] and [s']. *)
Definition allocated_since (s s' : State) (r : tok) : Prop :=
  (length (heap s) <= r < length (heap s'))%nat.

(** The mass of a token is the length of its value, as the constructor
    sets it; every token of the heap is so. *)
Definition init_shaped (a : Token.t) : Prop :=
  Token.mass a = Z.of_nat (String.length (Token.value a)).

Definition masses_are_lengths (h : Token.heap) : Prop :=
  forall r, (r < length h)%nat -> init_shaped (Token.get h r).

(** From [s] to [s'] no token changes its value or mass, and the tokens
    allocated since have the mass of their value. *)
Definition identities_kept (s s' : State) : Prop :=
  frame identity_fields any_size config s s'
  /\ forall r, allocated_since s s' r -> init_shaped (deref s' r).

(** A token as [insert_default_values] creates it: a free, undamaged
    token of energy 10 whose value is one of the non-zero defaults. *)
Definition default_value_token (a : Token.t) : Prop :=
  In (Token.value a) ["1"; "2"; "5"; "10"]
  /\ init_shaped a
  /\ Token.energy a = 10
  /\ Token.damaged a = false
  /\ Token.chain_id a = None
  /\ Token.next_token a = None
  /\ Token.prev_token a = None.

(** ** More concrete runs

    The states named after a call are the state it returns. *)
Definition crossing_after_physics : State :=
  default crossing (@update_all_tokens zero_draws 3 crossing).

Definition crossing_after_sweep : State :=
  default crossing (handle_spillover 3 crossing_after_physics).

Definition three_free_after_chains : State :=
  default three_free (update_all_chains 3 three_free 10).

(** Forty-five ticks of a new simulation of side 4. *)
Definition small_run : State :=
  default (Simulation_init 4)
          (@run ascii_builtins mixed_draws 50 45 (Simulation_init 4)).

(** A chain [x -> = -> ;] in one cell: the pattern that
    [insert_default_values] looks for. *)
Definition assignment_chain : State :=
  let s := populate (empty_grid 3 3 3)
             [new_token "x" 1 1 1 0; new_token "=" 1 1 1 0; new_token ";" 1 1 1 0] in
  with_chains [TokenChain.mk 0 0 [0; 1; 2]%nat true 0]
    (with_next_chain_id 1
       (with_heap (linked (linked (heap s) 0 1 0) 1 2 0) s)).

(** A generator whose draws are all 3. *)
Definition three_draws : PyRandom :=
  {| rand_below := fun _ _ => 3%nat;
     rand_float := fun _ => 0%float;
     set_order := fun _ s => elements s |}.

Definition assignment_chain_after_insert : State :=
  default assignment_chain
          (@insert_default_values ascii_builtins three_draws 4 assignment_chain).

(** From [s] to [s'] every token of [s] is as it was, the chains are
    untouched, and every token allocated since is a free default
    value. *)
Definition only_adds_defaults (s s' : State) : Prop :=
  frame (fun a => a) any_size (fun s => (config s, counters s, chain_content s)) s s'
  /\ forall r, allocated_since s s' r -> default_value_token (deref s' r).

(** ** Where the live tokens are

    The token [r] is located: its coordinates fall in a cell of the grid,
    and that cell lists it. *)
Definition located (s : State) (r : tok) : Prop :=
  exists c,
    get_cell_from_float s (Token.x (deref s r)) (Token.y (deref s r))
                        (Token.z (deref s r)) = Some c
    /\ In r (Cell.tokens (cells s c)).

Definition all_located (s : State) : Prop :=
  forall r, r ∈ all_tokens s -> located s r.

(** Every live token but [t], the one the physics pass is moving. *)
Definition located_except (t : tok) (s : State) : Prop :=
  forall r, r ∈ all_tokens s -> r <> t -> located s r.

Definition grid_nonempty (s : State) : Prop :=
  1 <= size_x s /\ 1 <= size_y s /\ 1 <= size_z s.

(** A grid in which the simulation keeps its tokens: well formed, with
    exact indices, at least one cell, and every live token located. *)
Definition habitable (s : State) : Prop :=
  grid_wf s /\ grid_indices_exact s /\ grid_nonempty s /\ all_located s.

(** The sizes of the grid. *)
Definition sizes (s : State) : Z * Z * Z := (size_x s, size_y s, size_z s).

(** The invariant of the physics pass while it moves [t]: the grid is
    well formed and every other live token is located. *)
Definition settled_except (t : tok) (s : State) : Prop :=
  grid_wf s /\ grid_indices_exact s /\ located_except t s.

(** [crossing] after one tick. *)
Definition crossing_after_tick : State :=
  default crossing (@run ascii_builtins zero_draws 3 1 crossing).

(** * Proofs *)

(** ** Tokens *)

Lemma TokenType_eqb_eq (a b : TokenType) : TokenType_eqb a b = true <-> a = b.
Proof. destruct a, b; simpl; split; intros E; try reflexivity; discriminate E. Qed.

Lemma in_set_cons (v a : string) (l : list string) :
  in_set v (a :: l) = String.eqb v a || in_set v l.
Proof. reflexivity. Qed.

Section TokenFacts.
Context `{PyStr}.

Lemma control_flow_is_keyword (v : string) :
  in_set v ["if"; "while"; "for"] = true -> Token._determine_type v = keyword.
Proof.
  unfold in_set; simpl. rewrite !orb_true_iff.
  intros [E|[E|[E|E]]]; try discriminate E;
    apply String.eqb_eq in E; subst v; reflexivity.
Qed.

Lemma declarator_is_keyword (v : string) :
  in_set v ["int"; "float"; "var"; "let"; "const"] = true ->
  Token._determine_type v = keyword.
Proof.
  unfold in_set; simpl. rewrite !orb_true_iff.
  intros [E|[E|[E|[E|[E|E]]]]]; try discriminate E;
    apply String.eqb_eq in E; subst v; reflexivity.
Qed.

Lemma assignment_is_operator (v : string) :
  String.eqb v "=" = true -> Token._determine_type v = operator.
Proof. intros E. apply String.eqb_eq in E; subst v; reflexivity. Qed.

Lemma arithmetic_is_operator (v : string) :
  in_set v ["+"; "-"; "*"; "/"; "=="; "!="; "<"; ">"] = true ->
  Token._determine_type v = operator.
Proof.
  unfold in_set; simpl. rewrite !orb_true_iff.
  intros [E|[E|[E|[E|[E|[E|[E|[E|E]]]]]]]]; try discriminate E;
    apply String.eqb_eq in E; subst v; reflexivity.
Qed.

Lemma init_typed (v : string) (px py pz : float) (e : Z) :
  token_typed (Token.init v px py pz e).
Proof. intros _. reflexivity. Qed.
End TokenFacts.

(** A test that follows from the condition it guards adds nothing. *)
Lemma guard_absorbed (g c r : bool) :
  (c = true -> g = true) -> g && (c && r) = c && r.
Proof. destruct c; simpl; intros G; [rewrite G|rewrite andb_false_r]; reflexivity. Qed.

Lemma matching_pair_test (v w : string) :
  match dict_get Token.MATCHING_PAIRS v with
  | Some closing => String.eqb w closing
  | None => false
  end
  = String.eqb v "(" && String.eqb w ")"
    || String.eqb v "{" && String.eqb w "}"
    || String.eqb v "[" && String.eqb w "]".
Proof.
  cbn [dict_get Token.MATCHING_PAIRS].
  destruct (String.eqb_spec v "(") as [->|_]; [simpl; rewrite ?orb_false_r; reflexivity|].
  destruct (String.eqb_spec v "{") as [->|_]; [simpl; rewrite ?orb_false_r; reflexivity|].
  destruct (String.eqb_spec v "[") as [->|_]; simpl; rewrite ?orb_false_r; reflexivity.
Qed.

(** ** Grammar validation *)

(** A pair that cannot bond has strength 0. *)
Lemma cannot_bond_strength_0 (A B : Token.t) :
  (Token.can_bond_with A B).1 = false -> (Token.can_bond_with A B).2 = 0.
Proof.
  unfold Token.can_bond_with.
  repeat match goal with
         | |- context [if ?c then _ else _] => destruct c; simpl; try discriminate
         end; reflexivity.
Qed.

Lemma check_grammar_rule_spec (A B : Token.t) :
  negb (_check_grammar_rule A B) = spec_rule_violated A B.
Proof.
  unfold _check_grammar_rule, spec_rule_violated, is_type_keyword, is_type, value_in.
  change (in_types (Token.type A) [operator])
    with (TokenType_eqb (Token.type A) operator || false).
  rewrite orb_false_r.
  generalize (in_set (Token.value A) ["int"; "float"; "char"; "void"]
              && negb (in_types (Token.type B) [identifier; punctuation])).
  generalize (TokenType_eqb (Token.type A) operator
              && negb (in_set (Token.value A) ["++"; "--"])
              && negb (in_types (Token.type B) [identifier; literal; punctuation])).
  intros [] []; reflexivity.
Qed.

Lemma link_errors_spec (h : Token.heap) (c n a b : tok) :
  In (a, b) (link_errors h c n)
  <-> (a, b) = (c, n) /\ spec_link_invalid (Token.get h c) (Token.get h n) = true.
Proof.
  unfold link_errors, spec_link_invalid, bond_strength.
  rewrite <- check_grammar_rule_spec.
  pose proof (cannot_bond_strength_0 (Token.get h c) (Token.get h n)) as Z0.
  destruct (Token.can_bond_with (Token.get h c) (Token.get h n)) as [can_bond strength].
  simpl in *.
  assert (negb can_bond || (strength <? 30) = (strength <? 30)) as ->.
  { destruct can_bond; [reflexivity|]. rewrite Z0 by reflexivity. reflexivity. }
  rewrite in_app_iff.
  destruct (strength <? 30), (negb (_check_grammar_rule (Token.get h c) (Token.get h n)));
    simpl; split; intros; intuition (try discriminate; try congruence).
Qed.

Lemma traverse_starts_at (h : Token.heap) (fuel : nat) (c : tok) (l : list tok) :
  TokenChain.traverse fuel h (Some c) = Some l -> exists rest, l = c :: rest.
Proof.
  destruct fuel; [discriminate|]. cbn [TokenChain.traverse].
  destruct (TokenChain.traverse fuel h (Token.next_token (Token.get h c)));
    simpl; [|discriminate].
  intros E; injection E as <-. eexists; reflexivity.
Qed.

Lemma validate_walk_spec (h : Token.heap) (fuel : nat) :
  forall (c : tok) (l : list tok),
    TokenChain.traverse fuel h (Some c) = Some l ->
    exists errors,
      validate_walk fuel h c = Some errors
      /\ forall a b, In (a, b) errors
                     <-> In (a, b) (links l)
                         /\ spec_link_invalid (Token.get h a) (Token.get h b) = true.
Proof.
  induction fuel as [|fuel IH]; intros c l T; [discriminate T|].
  cbn [TokenChain.traverse] in T.
  destruct (TokenChain.traverse fuel h (Token.next_token (Token.get h c)))
    as [rest|] eqn:R; [|discriminate T].
  simpl in T. injection T as <-.
  cbn [validate_walk].
  destruct (Token.next_token (Token.get h c)) as [n|] eqn:N.
  - destruct (IH n rest R) as (errs & W & Spec).
    rewrite W. eexists; split; [reflexivity|].
    intros a b. rewrite in_app_iff, link_errors_spec, Spec.
    destruct (traverse_starts_at _ _ _ _ R) as (rest' & ->).
    cbn [links]. simpl.
    split.
    + intros [[E V]|[I V]].
      * injection E as -> ->. split; [left; reflexivity|exact V].
      * split; [right; exact I|exact V].
    + intros [[E|I] V].
      * injection E as <- <-. left; split; [reflexivity|exact V].
      * right; split; assumption.
  - destruct fuel; simpl in R; injection R as <-;
      (exists []; split; [reflexivity|]; intros a b; simpl; tauto).
Qed.

(** ** The heap *)

Lemma get_upd (f : Token.t -> Token.t) (r t : tok) (h : Token.heap) :
  Token.get (Token.upd f r h) t
  = if decide (r = t)
    then match h !! t with Some a => f a | None => Token.blank end
    else Token.get h t.
Proof.
  unfold Token.get, Token.upd. destruct (decide (r = t)) as [->|N].
  - rewrite list_lookup_alter_eq. destruct (h !! t); reflexivity.
  - rewrite list_lookup_alter_ne by exact N. reflexivity.
Qed.

Lemma get_upd_eq (f : Token.t -> Token.t) (r : tok) (h : Token.heap) :
  (r < length h)%nat -> Token.get (Token.upd f r h) r = f (Token.get h r).
Proof.
  intros L. rewrite get_upd. destruct (decide (r = r)) as [_|N]; [|contradiction].
  unfold Token.get. apply lookup_lt_is_Some_2 in L as [a ->]. reflexivity.
Qed.

Lemma get_upd_ne (f : Token.t -> Token.t) (r t : tok) (h : Token.heap) :
  r <> t -> Token.get (Token.upd f r h) t = Token.get h t.
Proof.
  intros N. rewrite get_upd. destruct (decide (r = t)); [contradiction|reflexivity].
Qed.

Lemma length_upd (f : Token.t -> Token.t) (r : tok) (h : Token.heap) :
  length (Token.upd f r h) = length h.
Proof. apply length_alter. Qed.

(** A field that [f] leaves alone reads the same after [upd f]. *)
Lemma field_upd {A : Type} (field : Token.t -> A) (f : Token.t -> Token.t)
    (r t : tok) (h : Token.heap) :
  (forall a, field (f a) = field a) ->
  field (Token.get (Token.upd f r h) t) = field (Token.get h t).
Proof.
  intros F. rewrite get_upd. destruct (decide (r = t)); [|reflexivity].
  unfold Token.get. destruct (h !! t); simpl; [apply F|reflexivity].
Qed.

Lemma energy_bond_to (h : Token.heap) (a b : tok) (cid : nat) (t : tok) :
  Token.energy (Token.get (Token.bond_to h a b cid).1 t) = Token.energy (Token.get h t).
Proof.
  unfold Token.bond_to; simpl.
  rewrite !(field_upd Token.energy) by reflexivity. reflexivity.
Qed.

Lemma length_bond_to (h : Token.heap) (a b : tok) (cid : nat) :
  length (Token.bond_to h a b cid).1 = length h.
Proof. unfold Token.bond_to; simpl. rewrite !length_upd. reflexivity. Qed.

(** The walk to the tail reads [next_token] only. *)
Lemma find_tail_ext (h h' : Token.heap) (fuel : nat) :
  (forall t, Token.next_token (Token.get h' t) = Token.next_token (Token.get h t)) ->
  forall c, TokenChain.find_tail fuel h' c = TokenChain.find_tail fuel h c.
Proof.
  intros E. induction fuel as [|fuel IH]; intros c; simpl; rewrite E;
    destruct (Token.next_token (Token.get h c)); auto.
Qed.

(** ** Sums over the live tokens *)

Lemma sum_pointwise (f g : tok -> Z) (l : list tok) :
  (forall t, In t l -> g t = f t) ->
  foldr Z.add 0 (map g l) = foldr Z.add 0 (map f l).
Proof.
  induction l as [|a l IH]; intros E; simpl; [reflexivity|].
  rewrite E by (left; reflexivity). rewrite IH; [reflexivity|].
  intros t I. apply E. right; exact I.
Qed.

Lemma sum_one_more (f g : tok -> Z) (r : tok) (l : list tok) :
  List.NoDup l -> In r l ->
  (forall t, g t = f t + (if Nat.eqb t r then 1 else 0)) ->
  foldr Z.add 0 (map g l) = foldr Z.add 0 (map f l) + 1.
Proof.
  intros ND I E. induction l as [|a l IH]; [destruct I|].
  inversion ND as [|? ? NI ND']; subst. simpl. rewrite E.
  destruct I as [->|I].
  - rewrite Nat.eqb_refl.
    rewrite (sum_pointwise f g l); [lia|].
    intros t It. rewrite E.
    destruct (Nat.eqb_spec t r) as [->|_]; [contradiction|lia].
  - rewrite IH by assumption.
    destruct (Nat.eqb_spec a r) as [->|_]; [contradiction|lia].
Qed.

(** ** Energy distribution on a two-token chain *)

Lemma distribute_one_unit (h : Token.heap) (chain : TokenChain.t) (token1 token2 : tok) :
  TokenChain.tokens chain = [token1; token2] ->
  token1 <> token2 ->
  (token1 < length h)%nat -> (token2 < length h)%nat ->
  forall t,
    Token.energy (Token.get (_distribute_energy h chain 1) t)
    = Token.energy (Token.get h t)
      + (if Nat.eqb t (if Token.energy (Token.get h token2)
                          <? Token.energy (Token.get h token1)
                       then token2 else token1)
         then 1 else 0).
Proof.
  intros Tk Ne L1 L2 t. unfold _distribute_energy. rewrite Tk.
  cbn [sorted_by foldr insert_by].
  destruct (Token.energy (Token.get h token2) <? Token.energy (Token.get h token1));
    change (Z.to_nat 1) with 1%nat; cbn [take foldl].
  - destruct (Nat.eqb_spec t token2) as [->|Nt].
    + rewrite get_upd_eq by assumption. simpl. reflexivity.
    + rewrite get_upd_ne by congruence. lia.
  - destruct (Nat.eqb_spec t token1) as [->|Nt].
    + rewrite get_upd_eq by assumption. simpl. reflexivity.
    + rewrite get_upd_ne by congruence. lia.
Qed.

(** ** The clamp of the physics pass *)

(** A float above zero is not below zero. *)
Lemma above_zero_not_below (v : float) :
  PrimFloat.ltb 0 v = true -> PrimFloat.ltb v 0 = false.
Proof.
  rewrite !ltb_spec. change (Prim2SF 0) with (S754_zero false).
  unfold SFltb, SFcompare.
  destruct (Prim2SF v) as [ [] | [] | | [] m e ]; simpl; congruence.
Qed.

(** [max(0, ...)] is never below zero: the test [new_z < 0] of
    [update_all_tokens] cannot succeed. *)
Lemma clamped_not_below_floor (v : float) : PrimFloat.ltb (py_max 0 v) 0 = false.
Proof.
  unfold py_max. destruct (PrimFloat.ltb 0 v) eqn:P.
  - apply above_zero_not_below. exact P.
  - reflexivity.
Qed.

(** ** Spillover *)

(** One round of [move_token] into a cell that exists, holds no token
    exclusive with the mover and cannot accept it, when the cell has an
    adjacent cell below capacity: the call recurses into that cell. *)
Lemma move_token_spills (fuel : nat) (s : State) (token : tok)
    (nx ny nz : float) (c adj : cell_ref) :
  get_cell_from_float s nx ny nz = Some c ->
  Cell.has_mutually_exclusive_token (heap s) (cells s c) token = None ->
  Cell.can_accept (heap s) (cells s c) token = false ->
  _find_adjacent_cell s (cell_pos c).1.1 (cell_pos c).1.2 (cell_pos c).2 c = Some adj ->
  move_token (S fuel) s token nx ny nz
  = move_token fuel s token (cell_pos adj).1.1 (cell_pos adj).1.2 (cell_pos adj).2.
Proof.
  intros C X A F. cbn [move_token]. rewrite C, X. cbn [mbind option_bind]. rewrite A.
  unfold _handle_spillover.
  destruct (cell_pos c) as [[fx fy] fz]. cbn [fst snd] in F. rewrite F.
  destruct (cell_pos adj) as [[ax ay] az]. reflexivity.
Qed.

(** ** Lists of references *)

Lemma list_mem_In (v : nat) (l : list nat) : list_mem v l = true <-> In v l.
Proof.
  unfold list_mem. rewrite existsb_exists. split.
  - intros (a & I & E). apply Nat.eqb_eq in E. subst. exact I.
  - intros I. exists v. split; [exact I|apply Nat.eqb_refl].
Qed.

Lemma In_remove_first (v a : nat) (l : list nat) :
  In a (list_remove_first v l) -> In a l.
Proof.
  induction l as [|b l IH]; simpl; [tauto|].
  destruct (Nat.eqb b v); simpl; tauto.
Qed.

Lemma min_by_In (key : nat -> Z) (l : list nat) (best : nat) :
  min_by key l best = best \/ In (min_by key l best) l.
Proof.
  revert best. induction l as [|a l IH]; intros best; simpl; [left; reflexivity|].
  destruct (IH (if key a <? key best then a else best)) as [E|I].
  - rewrite E. destruct (key a <? key best); auto.
  - right; right; exact I.
Qed.

Lemma sum_masses_app (h : Token.heap) (l1 l2 : list tok) :
  sum_masses h (l1 ++ l2) = sum_masses h l1 + sum_masses h l2.
Proof.
  unfold sum_masses. induction l1 as [|a l1 IH]; simpl; [reflexivity|].
  rewrite IH. lia.
Qed.

Lemma sum_masses_remove_first (h : Token.heap) (v : tok) (l : list tok) :
  In v l ->
  sum_masses h (list_remove_first v l) = sum_masses h l - Token.mass (Token.get h v).
Proof.
  unfold sum_masses. induction l as [|a l IH]; simpl; [tauto|].
  intros [->|I].
  - rewrite Nat.eqb_refl. lia.
  - destruct (Nat.eqb_spec a v) as [->|_]; [lia|]. simpl. rewrite IH by exact I. lia.
Qed.

Lemma sum_masses_ext (h h' : Token.heap) (l : list tok) :
  (forall r, Token.mass (Token.get h' r) = Token.mass (Token.get h r)) ->
  sum_masses h' l = sum_masses h l.
Proof.
  intros E. unfold sum_masses. induction l as [|a l IH]; simpl; [reflexivity|].
  rewrite E, IH. reflexivity.
Qed.

Lemma sum_masses_nonneg (h : Token.heap) (l : list tok) :
  masses_nonneg h -> 0 <= sum_masses h l.
Proof.
  intros N. unfold sum_masses. induction l as [|a l IH]; simpl; [lia|].
  specialize (N a). lia.
Qed.

(** ** Heaps that keep the masses *)

Lemma same_masses_refl (h : Token.heap) : same_masses h h.
Proof. split; reflexivity. Qed.

Lemma same_masses_trans (h1 h2 h3 : Token.heap) :
  same_masses h1 h2 -> same_masses h2 h3 -> same_masses h1 h3.
Proof.
  intros [L1 M1] [L2 M2]. split; [congruence|].
  intros r. rewrite M2. apply M1.
Qed.

Lemma same_masses_upd (f : Token.t -> Token.t) (r : tok) (h : Token.heap) :
  (forall a, Token.mass (f a) = Token.mass a) ->
  same_masses h (Token.upd f r h).
Proof.
  intros F. split; [apply length_upd|].
  intros t. apply (field_upd Token.mass). exact F.
Qed.

(** Overwriting a token by a record of the same mass. *)
Lemma same_masses_overwrite (a : Token.t) (r : tok) (h : Token.heap) :
  Token.mass a = Token.mass (Token.get h r) ->
  same_masses h (Token.upd (fun _ => a) r h).
Proof.
  intros M. split; [apply length_upd|].
  intros t. rewrite get_upd. destruct (decide (r = t)) as [->|]; [|reflexivity].
  unfold Token.get in *. destruct (h !! t); simpl in *; [exact M|reflexivity].
Qed.

Lemma same_masses_update_position (h : Token.heap) (self : tok) :
  same_masses h (Token.update_position h self).
Proof.
  unfold Token.update_position. apply same_masses_overwrite.
  destruct (0 <? Token.energy (Token.get h self)); reflexivity.
Qed.

Lemma same_masses_bond_to (h : Token.heap) (a b : tok) (cid : nat) :
  same_masses h (Token.bond_to h a b cid).1.
Proof.
  unfold Token.bond_to; simpl.
  repeat (eapply same_masses_trans; [|apply same_masses_upd; reflexivity]).
  apply same_masses_refl.
Qed.

Lemma same_masses_break_bond (h : Token.heap) (self : tok) :
  same_masses h (Token.break_bond h self).
Proof.
  unfold Token.break_bond. destruct (Token.next_token (Token.get h self)).
  - repeat (eapply same_masses_trans; [|apply same_masses_upd; reflexivity]).
    apply same_masses_refl.
  - apply same_masses_refl.
Qed.

Lemma same_masses_apply_damage `{PyRandom} (h : Token.heap) (self : tok)
    (p : float) (k : nat) :
  same_masses h (Token.apply_damage h self p k).1.
Proof.
  unfold Token.apply_damage.
  destruct (PrimFloat.ltb (rand_float k) p); [|apply same_masses_refl].
  destruct (PrimFloat.ltb (rand_float (S k)) 0.3); simpl;
    repeat (eapply same_masses_trans; [|apply same_masses_upd; reflexivity]);
    apply same_masses_refl.
Qed.

Lemma same_masses_chain_init (h : Token.heap) (n : nat) (t : tok) :
  same_masses h (TokenChain.init h n t).1.1.
Proof. apply same_masses_upd. reflexivity. Qed.

Lemma same_masses_chain_add_token (fuel : nat) (h h' : Token.heap)
    (c c' : TokenChain.t) (t : tok) (e : Z) :
  TokenChain.add_token fuel h c t = Some (h', c', e) -> same_masses h h'.
Proof.
  unfold TokenChain.add_token.
  destruct (TokenChain.find_tail fuel h (TokenChain.head c)) as [tail|];
    simpl; [|discriminate].
  intros E. injection E as <- _ _. apply same_masses_bond_to.
Qed.

Lemma same_masses_chain_remove_token (h : Token.heap) (c : TokenChain.t) (t : tok) :
  same_masses h (TokenChain.remove_token h c t).1.
Proof.
  unfold TokenChain.remove_token.
  destruct (list_mem t (TokenChain.tokens c)); simpl; [|apply same_masses_refl].
  eapply same_masses_trans; [|apply same_masses_upd; reflexivity].
  assert (same_masses h
            match Token.prev_token (Token.get h t) with
            | Some p => Token.break_bond h p
            | None => h
            end) as S1.
  { destruct (Token.prev_token (Token.get h t));
      [apply same_masses_break_bond|apply same_masses_refl]. }
  revert S1. generalize (match Token.prev_token (Token.get h t) with
                         | Some p => Token.break_bond h p
                         | None => h
                         end).
  intros h1 S1. destruct (Token.next_token (Token.get h1 t)); [|exact S1].
  eapply same_masses_trans; [exact S1|apply same_masses_upd; reflexivity].
Qed.

Lemma same_masses_distribute_energy (h : Token.heap) (c : TokenChain.t) (e : Z) :
  same_masses h (_distribute_energy h c e).
Proof.
  unfold _distribute_energy.
  generalize (take (Z.to_nat e)
                (sorted_by (fun r => Token.energy (Token.get h r)) (TokenChain.tokens c))).
  intros l. revert h. induction l as [|a l IH]; intros h; cbn [foldl];
    [apply same_masses_refl|].
  eapply same_masses_trans; [|apply IH]. apply same_masses_upd. reflexivity.
Qed.

(** ** Well-formed grids *)

Lemma cell_ref_eqb_eq (a b : cell_ref) : cell_ref_eqb a b = true <-> a = b.
Proof.
  destruct a as [[ax ay] az], b as [[bx by_] bz]. unfold cell_ref_eqb.
  rewrite !andb_true_iff, !Z.eqb_eq. split.
  - intros [[-> ->] ->]. reflexivity.
  - intros E. injection E as -> -> ->. auto.
Qed.

Lemma cells_set_cell (r c : cell_ref) (v : Cell.t) (s : State) :
  cells (set_cell r v s) c = if cell_ref_eqb c r then v else cells s c.
Proof. reflexivity. Qed.

Lemma heap_only_refl (s : State) : heap_only s s.
Proof. repeat split; reflexivity. Qed.

Lemma heap_only_trans (s1 s2 s3 : State) :
  heap_only s1 s2 -> heap_only s2 s3 -> heap_only s1 s3.
Proof.
  intros (C1 & A1 & M1) (C2 & A2 & M2). repeat split; try congruence.
  - destruct M1, M2; congruence.
  - intros r. destruct M1 as [_ M1], M2 as [_ M2]. rewrite M2. apply M1.
Qed.

Lemma heap_only_with_heap (s : State) (h : Token.heap) :
  same_masses (heap s) h -> heap_only s (with_heap h s).
Proof. intros M. split; [reflexivity|]. split; [reflexivity|exact M]. Qed.

Lemma heap_only_upd_token (f : Token.t -> Token.t) (r : tok) (s : State) :
  (forall a, Token.mass (f a) = Token.mass a) -> heap_only s (upd_token f r s).
Proof. intros F. apply heap_only_with_heap, same_masses_upd, F. Qed.

(** A state that agrees with [s] on the heap, the cells and the live set. *)
Lemma heap_only_same (s s' : State) :
  heap s' = heap s -> cells s' = cells s -> all_tokens s' = all_tokens s ->
  heap_only s s'.
Proof.
  intros H C A. split; [exact C|]. split; [exact A|]. rewrite H. apply same_masses_refl.
Qed.

Lemma wf_step_refl (s : State) : grid_wf s -> wf_step s s.
Proof. intros W. split; [exact W|lia]. Qed.

Lemma wf_step_trans (s1 s2 s3 : State) :
  wf_step s1 s2 -> wf_step s2 s3 -> wf_step s1 s3.
Proof. intros [_ L1] [W L2]. split; [exact W|lia]. Qed.

Lemma wf_heap_only (s s' : State) : grid_wf s -> heap_only s s' -> wf_step s s'.
Proof.
  intros (Cap & [RC RA] & N) (C & A & [L M]). split; [|lia].
  split; [|split; [split|]].
  - intros c. rewrite C, (sum_masses_ext (heap s)) by exact M. apply Cap.
  - intros c r. rewrite C, L. apply RC.
  - intros r. rewrite A, L. apply RA.
  - intros r. rewrite M. apply N.
Qed.

Lemma wf_cell_add_token (c : cell_ref) (r : tok) (s : State) :
  grid_wf s -> (r < length (heap s))%nat -> wf_step s (cell_add_token c r s).
Proof.
  intros (Cap & [RC RA] & N) L. split; [|simpl; lia].
  unfold cell_add_token, Cell.add_token, Cell.can_accept.
  destruct (Z.leb_spec (Cell.current_mass (cells s c) + Token.mass (Token.get (heap s) r))
                       Cell.MAX_CAPACITY) as [Le|_];
    cbn [fst]; (split; [|split; [split|]]); try assumption.
  - intros c'. rewrite cells_set_cell. cbn [heap set_cell with_cells].
    destruct (cell_ref_eqb c' c); [|apply Cap].
    cbn [Cell.current_mass Cell.tokens]. rewrite sum_masses_app.
    destruct (Cap c) as [E _]. rewrite E. unfold sum_masses at 3. simpl. split; lia.
  - intros c' t. rewrite cells_set_cell. cbn [heap set_cell with_cells].
    destruct (cell_ref_eqb c' c); [|apply RC].
    cbn [Cell.tokens]. rewrite in_app_iff. intros [I|[<-|[]]]; [eapply RC; exact I|exact L].
  - intros c'. rewrite cells_set_cell. destruct (cell_ref_eqb c' c); apply Cap.
  - intros c' t. rewrite cells_set_cell. destruct (cell_ref_eqb c' c); apply RC.
Qed.

Lemma wf_cell_remove_token (c : cell_ref) (r : tok) (s : State) :
  grid_wf s -> wf_step s (cell_remove_token c r s).
Proof.
  intros (Cap & [RC RA] & N). split; [|simpl; lia].
  unfold cell_remove_token, Cell.remove_token.
  destruct (list_mem r (Cell.tokens (cells s c))) eqn:Mem;
    cbn [fst]; (split; [|split; [split|]]); try assumption.
  - intros c'. rewrite cells_set_cell. cbn [heap set_cell with_cells].
    destruct (cell_ref_eqb c' c); [|apply Cap].
    cbn [Cell.current_mass Cell.tokens].
    rewrite sum_masses_remove_first by (apply list_mem_In; exact Mem).
    destruct (Cap c) as [E Le]. rewrite E in *. specialize (N r). split; lia.
  - intros c' t. rewrite cells_set_cell. cbn [heap set_cell with_cells].
    destruct (cell_ref_eqb c' c); [|apply RC].
    cbn [Cell.tokens]. intros I. eapply RC, In_remove_first, I.
  - intros c'. rewrite cells_set_cell. destruct (cell_ref_eqb c' c); apply Cap.
  - intros c' t. rewrite cells_set_cell. destruct (cell_ref_eqb c' c); apply RC.
Qed.

Lemma wf_discard (r : tok) (s : State) :
  grid_wf s -> wf_step s (with_all_tokens (all_tokens s ∖ {[r]}) s).
Proof.
  intros (Cap & [RC RA] & N). split; [|simpl; lia].
  split; [exact Cap|]. split; [split; [exact RC|]|exact N].
  intros t I. apply RA. cbn [all_tokens with_all_tokens] in I.
  apply elem_of_difference in I as [I _]. exact I.
Qed.

Lemma wf_register (r : tok) (s : State) :
  grid_wf s -> (r < length (heap s))%nat ->
  wf_step s (with_all_tokens ({[r]} ∪ all_tokens s) s).
Proof.
  intros (Cap & [RC RA] & N) L. split; [|simpl; lia].
  split; [exact Cap|]. split; [split; [exact RC|]|exact N].
  intros t I. cbn [all_tokens with_all_tokens heap] in *.
  apply elem_of_union in I as [I|I]; [|apply RA, I].
  apply elem_of_singleton in I. subst. exact L.
Qed.

(** ** The grid operations keep the grid well formed *)

Lemma wf_evict (s : State) (token : tok) (old_cell : option cell_ref) :
  grid_wf s ->
  let s1 := match old_cell with
            | Some oc => cell_remove_token oc token s
            | None => s
            end in
  wf_step s (with_all_tokens (all_tokens s1 ∖ {[token]}) s1).
Proof.
  intros W s1.
  assert (wf_step s s1) as W1
    by (unfold s1; destruct old_cell; [apply wf_cell_remove_token|apply wf_step_refl]; exact W).
  eapply wf_step_trans; [exact W1|]. apply wf_discard, W1.
Qed.

Lemma wf_move_token (fuel : nat) :
  forall (s : State) (token : tok) (nx ny nz : float) (b : bool) (s' : State),
    grid_wf s -> (token < length (heap s))%nat ->
    move_token fuel s token nx ny nz = Some (b, s') ->
    wf_step s s'.
Proof.
  induction fuel as [|fuel IH]; intros s token nx ny nz b s' W L M; [discriminate M|].
  cbn [move_token] in M.
  destruct (get_cell_from_float s nx ny nz) as [new_cell|].
  2:{ injection M as _ <-. apply wf_evict, W. }
  match type of M with
  | mbind _ ?target = _ => destruct target as [[[nc [[x' y'] z']]|]|]
  end; cbn [mbind option_bind] in M; [| |discriminate M].
  2:{ injection M as _ <-. apply wf_step_refl, W. }
  destruct (Cell.can_accept (heap s) (cells s nc) token).
  - injection M as _ <-.
    match goal with
    | |- wf_step s (upd_token _ _ (cell_add_token _ _ ?st)) => set (s1 := st)
    end.
    assert (wf_step s s1) as W1.
    { unfold s1. destruct (get_cell_from_float s _ _ _) as [oc|]; [|apply wf_step_refl, W].
      destruct (negb (cell_ref_eqb oc nc));
        [apply wf_cell_remove_token|apply wf_step_refl]; exact W. }
    assert (wf_step s1 (cell_add_token nc token s1)) as W2
      by (apply wf_cell_add_token; [apply W1|destruct W1; lia]).
    eapply wf_step_trans; [exact W1|].
    eapply wf_step_trans; [exact W2|].
    apply wf_heap_only; [apply W2|apply heap_only_upd_token; reflexivity].
  - unfold _handle_spillover in M.
    destruct (cell_pos nc) as [[fx fy] fz].
    destruct (_find_adjacent_cell s fx fy fz nc) as [adj|].
    + destruct (cell_pos adj) as [[ax ay] az]. eapply IH; eassumption.
    + injection M as _ <-. apply wf_step_refl, W.
Qed.

Lemma wf_add_token_to_grid (s : State) (token : tok) :
  grid_wf s -> (token < length (heap s))%nat ->
  wf_step s (add_token_to_grid s token).1.
Proof.
  intros W L. unfold add_token_to_grid.
  destruct (get_cell_from_float s _ _ _) as [cell|]; [|apply wf_step_refl, W].
  destruct (Cell.add_token (heap s) (cells s cell) token).2; [|apply wf_step_refl, W].
  cbn [fst].
  assert (wf_step s (cell_add_token cell token s)) as W1
    by (apply wf_cell_add_token; assumption).
  eapply wf_step_trans; [exact W1|].
  apply wf_register; [apply W1|destruct W1; lia].
Qed.

Lemma wf_remove_token_from_grid (s : State) (token : tok) :
  grid_wf s -> wf_step s (remove_token_from_grid s token).
Proof. intros W. unfold remove_token_from_grid. apply (wf_evict s token _ W). Qed.

(** A loop whose body keeps the grid well formed keeps it well formed;
    [ok s a] is what the body needs of the element [a] in state [s]. *)
Lemma foldM_wf_step {A : Type} (body : State -> A -> option State)
    (ok : State -> A -> Prop) :
  (forall s s' a, wf_step s s' -> ok s a -> ok s' a) ->
  (forall s a s', grid_wf s -> ok s a -> body s a = Some s' -> wf_step s s') ->
  forall l s s',
    grid_wf s -> Forall (ok s) l -> foldM body s l = Some s' -> wf_step s s'.
Proof.
  intros Mono Body. induction l as [|a l IH]; intros s s' W F R; simpl in R.
  - injection R as <-. apply wf_step_refl, W.
  - inversion F as [|? ? Oa Ol]; subst.
    destruct (body s a) as [s1|] eqn:B; [|discriminate R].
    pose proof (Body _ _ _ W Oa B) as W1.
    eapply wf_step_trans; [exact W1|].
    apply IH; [apply W1| |exact R].
    eapply Forall_impl; [exact Ol|]. intros b Ob. eapply Mono; eassumption.
Qed.

Section PhysicsFacts.
Context `{PyRandom}.

Lemma wf_push_token_aside (fuel : nat) (s : State) (token : tok)
    (current_cell : cell_ref) (s' : State) :
  grid_wf s -> (token < length (heap s))%nat ->
  _push_token_aside fuel s token current_cell = Some s' ->
  wf_step s s'.
Proof.
  intros W L P. unfold _push_token_aside in P.
  destruct current_cell as [[cx cy] cz].
  destruct (List.filter _ _) as [|first rest].
  - injection P as <-. apply wf_step_refl, W.
  - destruct (cell_pos _) as [[fx fy] fz].
    destruct (move_token _ _ _ _ _ _) as [[b s1]|] eqn:M; [|discriminate P].
    injection P as <-.
    apply wf_move_token in M; [| |exact L].
    + split; [apply M|]. destruct M as [_ M]. exact M.
    + apply (wf_heap_only s); [exact W|]. apply heap_only_same; reflexivity.
Qed.

Lemma wf_handle_collisions (fuel : nat) (s : State) (rising_token : tok)
    (old_z : float) (s' : State) :
  grid_wf s ->
  _handle_collisions fuel s rising_token old_z = Some s' ->
  wf_step s s'.
Proof.
  intros W C. unfold _handle_collisions in C.
  destruct (Token.energy (deref s rising_token) <=? 0);
    [injection C as <-; apply wf_step_refl, W|].
  destruct (PrimFloat.leb _ old_z);
    [injection C as <-; apply wf_step_refl, W|].
  destruct (get_cell_from_float s _ _ _) as [cell|];
    [|injection C as <-; apply wf_step_refl, W].
  revert C.
  apply (foldM_wf_step _ (fun s a => (a < length (heap s))%nat)).
  - intros s1 s2 a [_ Le] La. lia.
  - intros s1 a s2 W1 La B.
    destruct (Nat.eqb a rising_token); [injection B as <-; apply wf_step_refl, W1|].
    destruct (_ && _); [|injection B as <-; apply wf_step_refl, W1].
    pose proof (wf_heap_only s1 _ W1
                  (heap_only_upd_token
                     (fun a => Token.set_energy (Token.energy a - 1) a)
                     rising_token s1 (fun _ => eq_refl))) as W2.
    eapply wf_step_trans; [exact W2|].
    eapply wf_push_token_aside; [apply W2| |exact B].
    destruct W2. lia.
  - exact W.
  - apply Forall_forall. intros a I. destruct W as (_ & [RC _] & _).
    eapply RC. apply list_elem_of_In. exact I.
Qed.

Lemma heap_only_apply_gravity_pull (s : State) (token : tok) :
  heap_only s (_apply_gravity_pull s token).
Proof.
  unfold _apply_gravity_pull.
  destruct (0 <? Token.energy (deref s token)); [apply heap_only_refl|].
  destruct (get_cell_from_float s _ _ _) as [[[cx cy] cz]|]; [|apply heap_only_refl].
  destruct (foldl _ _ offsets3) as [[[[lx ly] lz]|] lowest_z]; [|apply heap_only_refl].
  destruct (PrimFloat.ltb 0 _); [|apply heap_only_refl].
  apply heap_only_upd_token. reflexivity.
Qed.

Lemma wf_before_move (fuel : nat) (s : State) (token : tok) (s3 : State)
    (p : float * float * float) :
  grid_wf s ->
  before_move fuel s token = Some (s3, p) ->
  wf_step s s3.
Proof.
  intros W B. unfold before_move in B.
  destruct (_handle_collisions fuel _ token _) as [s2|] eqn:C; [|discriminate B].
  injection B as <- _.
  pose proof (wf_heap_only s _ W
                (heap_only_with_heap s _ (same_masses_update_position (heap s) token)))
    as W1.
  pose proof (wf_handle_collisions _ _ _ _ _ (proj1 W1) C) as W2.
  eapply wf_step_trans; [exact W1|]. eapply wf_step_trans; [exact W2|].
  apply wf_heap_only; [apply W2|apply heap_only_apply_gravity_pull].
Qed.

Lemma wf_update_token (fuel : nat) (s : State) (token : tok) (s' : State) :
  grid_wf s ->
  update_token fuel s token = Some s' ->
  wf_step s s'.
Proof.
  intros W U. unfold update_token in U.
  destruct (bool_decide (token ∈ all_tokens s)) eqn:In; cbn [negb] in U;
    [|injection U as <-; apply wf_step_refl, W].
  apply bool_decide_eq_true in In.
  assert (token < length (heap s))%nat as L by (destruct W as (_ & [_ RA] & _); apply RA, In).
  destruct (before_move fuel s token) as [[s3 [[nx ny] nz]]|] eqn:B; [|discriminate U].
  pose proof (wf_before_move _ _ _ _ _ W B) as W3.
  eapply wf_step_trans; [exact W3|].
  destruct (PrimFloat.ltb nz 0).
  - injection U as <-. apply wf_remove_token_from_grid, W3.
  - destruct (move_token fuel s3 token nx ny nz) as [[success s4]|] eqn:M;
      [|discriminate U].
    apply wf_move_token in M; [|apply W3|destruct W3; lia].
    destruct success; injection U as <-; [exact M|].
    eapply wf_step_trans; [exact M|].
    apply wf_heap_only; [apply M|apply heap_only_upd_token; reflexivity].
Qed.

Lemma wf_update_all_tokens (fuel : nat) (s s' : State) :
  grid_wf s -> update_all_tokens fuel s = Some s' -> wf_step s s'.
Proof.
  intros W U. unfold update_all_tokens in U.
  assert (wf_step s (with_clock (S (clock s)) s)) as W0
    by (apply wf_heap_only; [exact W|apply heap_only_same; reflexivity]).
  eapply wf_step_trans; [exact W0|]. revert U.
  apply (foldM_wf_step _ (fun _ _ => True)).
  - auto.
  - intros s1 a s2 W1 _ B. eapply wf_update_token; eassumption.
  - apply W0.
  - apply Forall_forall. auto.
Qed.

Lemma wf_redistribute_tokens (fuel : nat) :
  forall (s : State) (cell : cell_ref) (s' : State),
    grid_wf s -> _redistribute_tokens fuel s cell = Some s' -> wf_step s s'.
Proof.
  induction fuel as [|fuel IH]; intros s cell s' W R; [discriminate R|].
  cbn [_redistribute_tokens] in R.
  destruct (Cell.tokens (cells s cell)) as [|first rest] eqn:T;
    [injection R as <-; apply wf_step_refl, W|].
  destruct (Cell.MAX_CAPACITY <? _); [|injection R as <-; apply wf_step_refl, W].
  destruct (cell_pos cell) as [[fx fy] fz].
  destruct (_find_adjacent_cell s fx fy fz cell) as [adjacent|].
  - destruct (cell_pos adjacent) as [[ax ay] az].
    destruct (move_token fuel s _ ax ay az) as [[b s1]|] eqn:M; [|discriminate R].
    apply wf_move_token in M; [|exact W|].
    + eapply wf_step_trans; [exact M|]. eapply IH; [apply M|exact R].
    + destruct W as (_ & [RC _] & _). apply (RC cell). rewrite T.
      destruct (min_by_In (fun r => Token.mass (deref s r)) rest first) as [->|I];
        [left; reflexivity|right; exact I].
  - injection R as <-. apply wf_remove_token_from_grid, W.
Qed.

Lemma wf_handle_spillover (fuel : nat) (s s' : State) :
  grid_wf s -> handle_spillover fuel s = Some s' -> wf_step s s'.
Proof.
  intros W. unfold handle_spillover.
  apply (foldM_wf_step _ (fun _ _ => True)).
  - auto.
  - intros s1 c s2 W1 _ B.
    destruct (Cell.MAX_CAPACITY <? _);
      [eapply wf_redistribute_tokens; eassumption|].
    injection B as <-. apply wf_step_refl, W1.
  - exact W.
  - apply Forall_forall. auto.
Qed.

End PhysicsFacts.

(** ** The biochemistry and damage passes touch the heap only *)

Lemma foldM_heap_only {A : Type} (body : State -> A -> option State) :
  (forall s a s', body s a = Some s' -> heap_only s s') ->
  forall l s s', foldM body s l = Some s' -> heap_only s s'.
Proof.
  intros Body. induction l as [|a l IH]; intros s s' R; simpl in R.
  - injection R as <-. apply heap_only_refl.
  - destruct (body s a) as [s1|] eqn:B; [|discriminate R].
    eapply heap_only_trans; [eapply Body, B|apply IH, R].
Qed.

Lemma foldl_heap_only {A : Type} (f : State -> A -> State) :
  (forall s a, heap_only s (f s a)) ->
  forall l s, heap_only s (foldl f s l).
Proof.
  intros F. induction l as [|a l IH]; intros s; cbn [foldl]; [apply heap_only_refl|].
  eapply heap_only_trans; [apply F|apply IH].
Qed.

Lemma heap_only_set_chain (i : nat) (c : TokenChain.t) (s : State) :
  heap_only s (set_chain i c s).
Proof. apply heap_only_same; reflexivity. Qed.

Lemma heap_only_create_or_extend_chain (fuel : nat) (s : State)
    (token1 token2 : tok) (s' : State) :
  _create_or_extend_chain fuel s token1 token2 = Some s' -> heap_only s s'.
Proof.
  unfold _create_or_extend_chain.
  destruct (TokenChain.init (heap s) (_next_chain_id s) token1) as [[h1 chain] next_id] eqn:I.
  destruct (TokenChain.add_token fuel h1 chain token2) as [[[h2 chain1] energy]|] eqn:A;
    [|discriminate].
  intros E. injection E as <-.
  apply same_masses_chain_add_token in A.
  pose proof (same_masses_chain_init (heap s) (_next_chain_id s) token1) as M1.
  rewrite I in M1. cbn [fst] in M1.
  split; [reflexivity|]. split; [reflexivity|]. cbn [heap with_heap with_chains with_next_chain_id].
  eapply same_masses_trans; [exact M1|].
  eapply same_masses_trans; [exact A|]. apply same_masses_distribute_energy.
Qed.

Lemma heap_only_first_bond (fuel : nat) (token1 : tok) (l : list tok) :
  forall s s', first_bond fuel s token1 l = Some s' -> heap_only s s'.
Proof.
  induction l as [|token2 l IH]; intros s s' F; cbn [first_bond] in F.
  - injection F as <-. apply heap_only_refl.
  - destruct (Token.can_bond_with _ _) as [can_bond strength].
    destruct (can_bond && (50 <? strength));
      [eapply heap_only_create_or_extend_chain, F|apply IH, F].
Qed.

Lemma heap_only_bond_pairs (fuel : nat) (l : list tok) :
  forall s s', bond_pairs fuel s l = Some s' -> heap_only s s'.
Proof.
  induction l as [|token1 l IH]; intros s s' B; cbn [bond_pairs] in B.
  - injection B as <-. apply heap_only_refl.
  - destruct (first_bond fuel s token1 l) as [s1|] eqn:F; [|discriminate B].
    eapply heap_only_trans; [eapply heap_only_first_bond, F|apply IH, B].
Qed.

Lemma heap_only_extend_chain (fuel : nat) (i : nat) (l : list tok) :
  forall s s', extend_chain fuel s i l = Some s' -> heap_only s s'.
Proof.
  induction l as [|token l IH]; intros s s' E; cbn [extend_chain] in E.
  - injection E as <-. apply heap_only_refl.
  - destruct (Token.chain_id (deref s token)); [apply IH, E|].
    destruct (TokenChain.find_tail fuel (heap s) _) as [tail|]; [|discriminate E].
    destruct (Token.can_bond_with _ _) as [can_bond strength].
    destruct (can_bond && (50 <? strength)); [|apply IH, E].
    destruct (TokenChain.add_token fuel (heap s) _ token) as [[[h1 chain1] energy]|] eqn:A;
      [|discriminate E].
    injection E as <-. apply same_masses_chain_add_token in A.
    split; [reflexivity|]. split; [reflexivity|]. cbn [heap with_heap set_chain with_chains].
    eapply same_masses_trans; [exact A|apply same_masses_distribute_energy].
Qed.

Lemma heap_only_combine_tokens_in_cell (fuel : nat) (s : State) (cell : cell_ref)
    (s' : State) :
  _combine_tokens_in_cell fuel s cell = Some s' -> heap_only s s'.
Proof.
  unfold _combine_tokens_in_cell.
  destruct (List.filter _ _) as [|t0 free] eqn:F.
  - intros E. injection E as <-. apply heap_only_refl.
  - destruct (bond_pairs fuel s (t0 :: free)) as [s1|] eqn:B; [|discriminate].
    intros E. eapply heap_only_trans; [eapply heap_only_bond_pairs, B|].
    revert E. apply foldM_heap_only. intros s2 i s3. apply heap_only_extend_chain.
Qed.

Lemma heap_only_attempt_token_combinations (fuel : nat) (s s' : State) :
  _attempt_token_combinations fuel s = Some s' -> heap_only s s'.
Proof.
  unfold _attempt_token_combinations. apply foldM_heap_only.
  intros s1 cell s2 E.
  destruct (length _ <? 2)%nat; [injection E as <-; apply heap_only_refl|].
  eapply heap_only_combine_tokens_in_cell, E.
Qed.

Lemma heap_only_fix_one (i : nat) (s : State) (e : tok * tok) :
  heap_only s (fix_one i s e).
Proof.
  unfold fix_one. destruct e as [token1 token2].
  set (s1 := with_heap (Token.break_bond (heap s) token1) s).
  assert (heap_only s s1) as H1
    by (apply heap_only_with_heap, same_masses_break_bond).
  eapply heap_only_trans; [exact H1|].
  destruct (get_cell_from_float s1 _ _ _) as [cell|]; [|apply heap_only_refl].
  destruct (reconnect_candidate s1 cell token1 token2) as [other|].
  - apply heap_only_with_heap, same_masses_bond_to.
  - destruct (TokenChain.remove_token (heap s1) (chain_at s1 i) token2)
      as [h2 chain1] eqn:R.
    pose proof (same_masses_chain_remove_token (heap s1) (chain_at s1 i) token2) as M.
    rewrite R in M. cbn [fst] in M.
    split; [reflexivity|]. split; [reflexivity|exact M].
Qed.

Lemma heap_only_validate_chains (fuel : nat) (s : State) (tick : Z) (s' : State) :
  _validate_chains fuel s tick = Some s' -> heap_only s s'.
Proof.
  unfold _validate_chains. apply foldM_heap_only.
  intros s1 i s2 E.
  destruct (_ <? 10); [injection E as <-; apply heap_only_refl|].
  destruct (_validate_grammar fuel _ _) as [[is_valid errors]|]; [|discriminate E].
  eapply heap_only_trans; [apply (heap_only_set_chain i)|].
  destruct (negb is_valid); injection E as <-; [|apply heap_only_refl].
  unfold _fix_grammar_errors. apply foldl_heap_only. intros s3 e. apply heap_only_fix_one.
Qed.

Lemma heap_only_update_all_chains (fuel : nat) (s : State) (tick : Z) (s' : State) :
  update_all_chains fuel s tick = Some s' -> heap_only s s'.
Proof.
  unfold update_all_chains.
  destruct (_attempt_token_combinations fuel s) as [s1|] eqn:A; [|discriminate].
  destruct (_validate_chains fuel s1 tick) as [s2|] eqn:V; [|discriminate].
  intros E. injection E as <-.
  eapply heap_only_trans; [eapply heap_only_attempt_token_combinations, A|].
  eapply heap_only_trans; [eapply heap_only_validate_chains, V|].
  apply heap_only_same; reflexivity.
Qed.

(** ** Allocation *)

Lemma get_alloc_old (a : Token.t) (h : Token.heap) (r : tok) :
  (r < length h)%nat -> Token.get (Token.alloc a h).1 r = Token.get h r.
Proof.
  intros L. unfold Token.get, Token.alloc. cbn [fst].
  rewrite lookup_app_l by exact L. reflexivity.
Qed.

Lemma mass_alloc_nonneg (a : Token.t) (h : Token.heap) :
  0 <= Token.mass a -> masses_nonneg h -> masses_nonneg (Token.alloc a h).1.
Proof.
  intros Ma N r. unfold Token.get, Token.alloc. cbn [fst].
  destruct (decide (r < length h)%nat) as [L|G].
  - rewrite lookup_app_l by exact L. apply N.
  - rewrite lookup_app_r by lia.
    destruct (r - length h)%nat as [|k]; simpl; [exact Ma|].
    destruct k; simpl; lia.
Qed.

Lemma sum_masses_alloc (a : Token.t) (h : Token.heap) (l : list tok) :
  (forall r, In r l -> (r < length h)%nat) ->
  sum_masses (Token.alloc a h).1 l = sum_masses h l.
Proof.
  unfold sum_masses. induction l as [|b l IH]; intros A; cbn [map foldr]; [reflexivity|].
  rewrite get_alloc_old by (apply A; left; reflexivity).
  rewrite IH; [reflexivity|]. intros r I. apply A. right; exact I.
Qed.

Lemma wf_alloc (a : Token.t) (s : State) :
  grid_wf s -> 0 <= Token.mass a ->
  wf_step s (with_heap (Token.alloc a (heap s)).1 s)
  /\ ((Token.alloc a (heap s)).2 < length (Token.alloc a (heap s)).1)%nat.
Proof.
  intros (Cap & [RC RA] & N) Ma.
  assert (length (Token.alloc a (heap s)).1 = S (length (heap s))) as Len
    by (unfold Token.alloc; cbn [fst]; rewrite length_app; simpl; lia).
  split; [|rewrite Len; unfold Token.alloc; cbn [snd]; lia].
  split; [|cbn [heap with_heap]; lia].
  unfold grid_wf, capacity_invariant, refs_allocated.
  cbn [heap cells all_tokens with_heap].
  split; [|split; [split|]].
  - intros c. rewrite sum_masses_alloc by apply RC. apply Cap.
  - intros c r I. rewrite Len. specialize (RC c r I). lia.
  - intros r I. rewrite Len. specialize (RA r I). lia.
  - apply mass_alloc_nonneg; assumption.
Qed.

Lemma init_mass_nonneg `{PyStr} (v : string) (px py pz : float) (e : Z) :
  0 <= Token.mass (Token.init v px py pz e).
Proof. simpl. lia. Qed.

(** ** The tick keeps the grid well formed *)

Section EngineFacts.
Context `{PyStr} `{PyRandom}.

Lemma wf_insert_walk (fuel : nat) :
  forall (s : State) (current : tok) (s' : State),
    grid_wf s -> insert_walk fuel s current = Some s' -> wf_step s s'.
Proof.
  induction fuel as [|fuel IH]; intros s current s' W I; cbn [insert_walk] in I.
  - destruct (Token.next_token (deref s current)); [discriminate I|].
    injection I as <-. apply wf_step_refl, W.
  - destruct (Token.next_token (deref s current)) as [next_token|];
      [|injection I as <-; apply wf_step_refl, W].
    match type of I with
    | insert_walk fuel ?s1 _ = _ => assert (wf_step s s1) as W1
    end.
    { destruct (_ && _); [|apply wf_step_refl, W].
      unfold _generate_default_value.
      set (s1 := with_clock (S (clock s)) s).
      assert (wf_step s s1) as W1
        by (apply wf_heap_only; [exact W|apply heap_only_same; reflexivity]).
      destruct (negb (_ =? 0)); [|exact W1].
      eapply wf_step_trans; [exact W1|].
      match goal with
      | |- context [Token.alloc ?a (heap s1)] =>
          destruct (wf_alloc a s1 (proj1 W1) (init_mass_nonneg _ _ _ _ _)) as [Wa La];
          destruct (Token.alloc a (heap s1)) as [h value_token]
      end.
      cbn [fst snd] in *.
      eapply wf_step_trans; [exact Wa|].
      apply wf_add_token_to_grid; [apply Wa|exact La]. }
    eapply wf_step_trans; [exact W1|]. eapply IH; [apply W1|exact I].
Qed.

Lemma wf_insert_default_values (fuel : nat) (s s' : State) :
  grid_wf s -> insert_default_values fuel s = Some s' -> wf_step s s'.
Proof.
  intros W. unfold insert_default_values.
  apply (foldM_wf_step _ (fun _ _ => True)).
  - auto.
  - intros s1 i s2 W1 _ B. eapply wf_insert_walk; eassumption.
  - exact W.
  - apply Forall_forall. auto.
Qed.

Lemma heap_only_handle_damaged_token (s : State) (token : tok) :
  heap_only s (_handle_damaged_token s token).
Proof.
  unfold _handle_damaged_token.
  destruct (Token.chain_id (deref s token)); [|apply heap_only_refl].
  set (s0 := with_clock (S (clock s)) s).
  assert (heap_only s s0) as H0' by (apply heap_only_same; reflexivity).
  destruct (PrimFloat.ltb _ 0.7); [|exact H0'].
  eapply heap_only_trans; [exact H0'|].
  eapply heap_only_trans; [|apply heap_only_upd_token; reflexivity].
  match goal with
  | |- heap_only s0 (match _ with Some _ => _ | None => ?st end) =>
      assert (heap_only s0 st) as H1';
      [|revert H1'; generalize st; intros s1 H1']
  end.
  { destruct (Token.prev_token (deref s0 token));
      [apply heap_only_with_heap, same_masses_break_bond|apply heap_only_refl]. }
  eapply heap_only_trans; [exact H1'|].
  destruct (Token.next_token (deref s1 token));
    [apply heap_only_with_heap, same_masses_break_bond|apply heap_only_refl].
Qed.

Lemma heap_only_apply_damage_to_all_tokens (s : State) :
  heap_only s (apply_damage_to_all_tokens s).
Proof.
  unfold apply_damage_to_all_tokens.
  eapply heap_only_trans; [apply (heap_only_same s (with_clock (S (clock s)) s)); reflexivity|].
  apply foldl_heap_only. intros s1 token.
  destruct (negb _); [apply heap_only_refl|].
  destruct (PrimFloat.ltb 0 _); [|apply heap_only_refl].
  pose proof (same_masses_apply_damage (heap s1) token
                (calculate_damage_probability s1 (Token.z (deref s1 token))) (clock s1)) as M.
  destruct (Token.apply_damage _ _ _ _) as [h k]. cbn [fst] in M.
  assert (heap_only s1 (with_clock k (with_heap h s1))) as H1'
    by (split; [reflexivity|]; split; [reflexivity|exact M]).
  destruct (Token.damaged _); [|exact H1'].
  eapply heap_only_trans; [exact H1'|apply heap_only_handle_damaged_token].
Qed.

Lemma heap_only_repair_damaged_tokens (s : State) :
  heap_only s (repair_damaged_tokens s).
Proof.
  unfold repair_damaged_tokens.
  eapply heap_only_trans; [apply (heap_only_same s (with_clock (S (clock s)) s)); reflexivity|].
  apply foldl_heap_only. intros s1 token.
  destruct (negb _); [apply heap_only_refl|].
  assert (heap_only s1 (with_clock (S (clock s1)) s1)) as H1'
    by (apply heap_only_same; reflexivity).
  destruct (PrimFloat.ltb _ _); [|exact H1'].
  eapply heap_only_trans; [exact H1'|]. apply heap_only_upd_token. reflexivity.
Qed.

Lemma wf_spawn (s : State) :
  grid_wf s ->
  wf_step s (match vent_update s with
             | (Some new_token, s1) => (add_token_to_grid s1 new_token).1
             | (None, s1) => s1
             end).
Proof.
  intros W. unfold vent_update.
  set (s1 := with_vent (tick_counter s + 1) (tokens_spawned s) s).
  assert (wf_step s s1) as W1
    by (apply wf_heap_only; [exact W|apply heap_only_same; reflexivity]).
  destruct (spawn_rate s1 <=? tick_counter s1); [|exact W1].
  unfold spawn_token.
  set (s2 := with_vent 0 (tokens_spawned s1) s1).
  assert (wf_step s1 s2) as W2
    by (apply wf_heap_only; [apply W1|apply heap_only_same; reflexivity]).
  eapply wf_step_trans; [exact W1|]. eapply wf_step_trans; [exact W2|].
  match goal with
  | |- context [Token.alloc ?a (heap s2)] =>
      destruct (wf_alloc a s2 (proj1 W2) (init_mass_nonneg _ _ _ _ _)) as [Wa La];
      destruct (Token.alloc a (heap s2)) as [h token]
  end.
  cbn [fst snd] in *.
  set (s3 := with_vent _ _ (with_clock _ (with_heap h s2))).
  assert (wf_step (with_heap h s2) s3) as W3
    by (apply wf_heap_only; [apply Wa|apply heap_only_same; reflexivity]).
  eapply wf_step_trans; [exact Wa|]. eapply wf_step_trans; [exact W3|].
  apply wf_add_token_to_grid; [apply W3|exact La].
Qed.

Lemma wf_step_of_step (fuel : nat) (s s' : State) :
  grid_wf s -> step fuel s = Some s' -> wf_step s s'.
Proof.
  intros W S. unfold step in S.
  set (s0 := with_tick (tick s + 1) s) in S.
  assert (wf_step s s0) as W0
    by (apply wf_heap_only; [exact W|apply heap_only_same; reflexivity]).
  pose proof (wf_spawn s0 (proj1 W0)) as W1.
  revert S W1. generalize (match vent_update s0 with
                           | (Some new_token, s1) => (add_token_to_grid s1 new_token).1
                           | (None, s1) => s1
                           end).
  intros s1 S W1.
  destruct (update_all_tokens fuel s1) as [s2|] eqn:U; [|discriminate S].
  cbn [mbind option_bind] in S.
  pose proof (wf_update_all_tokens _ _ _ (proj1 W1) U) as W2.
  destruct (handle_spillover fuel s2) as [s3|] eqn:Sp; [|discriminate S].
  cbn [mbind option_bind] in S.
  pose proof (wf_handle_spillover _ _ _ (proj1 W2) Sp) as W3.
  destruct (update_all_chains fuel s3 (tick s3)) as [s4|] eqn:C; [|discriminate S].
  cbn [mbind option_bind] in S.
  pose proof (wf_heap_only _ _ (proj1 W3) (heap_only_update_all_chains _ _ _ _ C)) as W4.
  match type of S with
  | mbind _ ?m = _ => destruct m as [s5|] eqn:D; [|discriminate S]
  end.
  cbn [mbind option_bind] in S.
  assert (wf_step s4 s5) as W5.
  { destruct (tick s4 mod 50 =? 0);
      [eapply wf_insert_default_values; [apply W4|exact D]|].
    injection D as <-. apply wf_step_refl, W4. }
  injection S as <-.
  pose proof (wf_heap_only _ _ (proj1 W5) (heap_only_apply_damage_to_all_tokens s5)) as W6.
  eapply wf_step_trans; [exact W0|]. eapply wf_step_trans; [exact W1|].
  eapply wf_step_trans; [exact W2|]. eapply wf_step_trans; [exact W3|].
  eapply wf_step_trans; [exact W4|]. eapply wf_step_trans; [exact W5|].
  eapply wf_step_trans; [exact W6|].
  destruct (tick _ mod 20 =? 0); [|apply wf_step_refl, W6].
  apply wf_heap_only; [apply W6|apply heap_only_repair_damaged_tokens].
Qed.

Lemma wf_run (fuel : nat) (n : nat) :
  forall s s', grid_wf s -> run fuel n s = Some s' -> grid_wf s'.
Proof.
  induction n as [|n IH]; intros s s' W R; cbn [run] in R.
  - injection R as <-. exact W.
  - destruct (step fuel s) as [s1|] eqn:S; [|discriminate R].
    eapply IH; [|exact R]. eapply wf_step_of_step; eassumption.
Qed.

Lemma wf_Simulation_init (grid_size : Z) : grid_wf (Simulation_init grid_size).
Proof.
  split; [|split; [split|]].
  - intros c. simpl. unfold Cell.MAX_CAPACITY. split; [reflexivity|lia].
  - intros c r [].
  - intros r I. cbn [all_tokens Simulation_init] in I. set_solver.
  - intros r. cbn [heap Simulation_init]. unfold Token.get.
    rewrite lookup_nil. simpl. lia.
Qed.

End EngineFacts.

(** ** A failed move *)

Lemma find_adjacent_cell_valid (s : State) (fx fy fz : float)
    (exclude_cell adj : cell_ref) :
  _find_adjacent_cell s fx fy fz exclude_cell = Some adj ->
  is_valid_position s adj.1.1 adj.1.2 adj.2 = true.
Proof.
  unfold _find_adjacent_cell. intros F. apply find_some in F as [I _].
  apply list_elem_of_In, list_elem_of_omap in I as ([dx dy] & _ & G).
  unfold get_cell in G.
  destruct (is_valid_position s _ _ _) eqn:V; [|discriminate G].
  injection G as <-. exact V.
Qed.

Lemma get_cell_of_cell_pos (s : State) (c : cell_ref) :
  grid_indices_exact s ->
  is_valid_position s c.1.1 c.1.2 c.2 = true ->
  get_cell_from_float s (cell_pos c).1.1 (cell_pos c).1.2 (cell_pos c).2 = Some c.
Proof.
  intros X V. destruct c as [[cx cy] cz]. cbn [fst snd cell_pos] in *.
  destruct (X _ _ _ V) as (Ex & Ey & Ez).
  unfold get_cell_from_float, get_cell. rewrite Ex, Ey, Ez, V. reflexivity.
Qed.

(** A call of [move_token] with a destination inside the grid that
    reports failure returns the state it was given. *)
Lemma failed_move_keeps_state (fuel : nat) :
  forall (s : State) (token : tok) (nx ny nz : float) (s' : State),
    grid_indices_exact s ->
    get_cell_from_float s nx ny nz <> None ->
    move_token fuel s token nx ny nz = Some (false, s') ->
    s' = s.
Proof.
  induction fuel as [|fuel IH]; intros s token nx ny nz s' X B M; [discriminate M|].
  cbn [move_token] in M.
  destruct (get_cell_from_float s nx ny nz) as [new_cell|]; [|contradiction].
  match type of M with
  | mbind _ ?target = _ => destruct target as [[[nc [[x' y'] z']]|]|]
  end; cbn [mbind option_bind] in M; [| |discriminate M].
  2:{ injection M as <-. reflexivity. }
  destruct (Cell.can_accept (heap s) (cells s nc) token); [discriminate M|].
  unfold _handle_spillover in M.
  destruct (cell_pos nc) as [[fx fy] fz].
  destruct (_find_adjacent_cell s fx fy fz nc) as [adj|] eqn:F.
  - apply find_adjacent_cell_valid in F.
    pose proof (get_cell_of_cell_pos s adj X F) as G.
    destruct (cell_pos adj) as [[ax ay] az]. cbn [fst snd] in G.
    eapply IH; [exact X| |exact M]. rewrite G. discriminate.
  - injection M as <-. reflexivity.
Qed.

(** ** Exact indices *)

(** [float] is exact on the indices of every grid of side up to 1024 (the
    default side is 100). *)
Lemma small_index_exact (n : Z) : 0 <= n < 1024 -> exact_index n.
Proof.
  intros B.
  assert (forallb (fun n => int_of_float (float_of_int n) =? n) (seqZ 0 1024) = true)
    as All by (vm_compute; reflexivity).
  rewrite forallb_forall in All. apply Z.eqb_eq, All, list_elem_of_In, elem_of_seqZ. lia.
Qed.

Lemma small_grid_indices_exact (s : State) :
  size_x s <= 1024 -> size_y s <= 1024 -> size_z s <= 1024 ->
  grid_indices_exact s.
Proof.
  intros Bx By Bz px py pz V. unfold is_valid_position in V.
  rewrite !andb_true_iff, !Z.leb_le, !Z.ltb_lt in V.
  repeat split; apply small_index_exact; lia.
Qed.

(** ** Damage and repair keep tokens well typed *)

Section TypedFacts.
Context `{PyStr} `{PyRandom}.

Lemma apply_damage_typed (h : Token.heap) (self : tok) (p : float) (k : nat) (r : tok) :
  (r < length h)%nat ->
  token_typed (Token.get h r) ->
  token_typed (Token.get (Token.apply_damage h self p k).1 r).
Proof.
  intros L T. unfold Token.apply_damage.
  destruct (PrimFloat.ltb (rand_float k) p); [|exact T].
  destruct (decide (self = r)) as [->|N].
  - destruct (PrimFloat.ltb (rand_float (S k)) 0.3); cbn [fst];
      rewrite ?get_upd_eq by (rewrite ?length_upd; exact L);
      intros D; discriminate D.
  - destruct (PrimFloat.ltb (rand_float (S k)) 0.3); cbn [fst];
      rewrite ?get_upd_ne by exact N; exact T.
Qed.

(** The writes of position, velocity, energy and chain links leave the
    value, the type and the damage mark alone. *)
Lemma setters_typed (a : Token.t) :
  token_typed a ->
  (forall e, token_typed (Token.set_energy e a))
  /\ (forall px py pz, token_typed (Token.set_pos px py pz a))
  /\ (forall wx wy wz, token_typed (Token.set_vel wx wy wz a))
  /\ (forall c, token_typed (Token.set_chain_id c a))
  /\ (forall n, token_typed (Token.set_next_token n a))
  /\ (forall p, token_typed (Token.set_prev_token p a)).
Proof. intros T. repeat split; intros; exact T. Qed.

(** The update [repair_damaged_tokens] applies to a token it repairs. *)
Lemma repair_typed (a : Token.t) :
  token_typed (Token.set_type (Token._determine_type (Token.value a))
                              (Token.set_damaged false a)).
Proof. intros _. reflexivity. Qed.
End TypedFacts.

(** ** Moving one token leaves the others where they are *)

Lemma same_membership_refl (r : tok) (s : State) : same_membership r s s.
Proof. intros c. reflexivity. Qed.

Lemma same_membership_trans (r : tok) (s1 s2 s3 : State) :
  same_membership r s1 s2 -> same_membership r s2 s3 -> same_membership r s1 s3.
Proof. intros A B c. rewrite B. apply A. Qed.

Lemma same_membership_cells (r : tok) (s s' : State) :
  cells s' = cells s -> same_membership r s s'.
Proof. intros E c. unfold occurrences. rewrite E. reflexivity. Qed.

Lemma count_occ_remove_first (v r : nat) (l : list nat) :
  v <> r ->
  count_occ Nat.eq_dec (list_remove_first v l) r = count_occ Nat.eq_dec l r.
Proof.
  intros N. induction l as [|a l IH]; simpl; [reflexivity|].
  destruct (Nat.eqb_spec a v) as [->|Nav].
  - destruct (Nat.eq_dec v r); [contradiction|reflexivity].
  - simpl. rewrite IH. reflexivity.
Qed.

Lemma same_membership_cell_add_token (r : tok) (c : cell_ref) (t : tok) (s : State) :
  t <> r -> same_membership r s (cell_add_token c t s).
Proof.
  intros N c'. unfold occurrences, cell_add_token. rewrite cells_set_cell.
  destruct (cell_ref_eqb_eq c' c) as [E _].
  destruct (cell_ref_eqb c' c); [rewrite (E eq_refl)|reflexivity].
  unfold Cell.add_token. destruct (Cell.can_accept _ _ _); cbn [fst Cell.tokens];
    [|reflexivity].
  rewrite count_occ_app. simpl. destruct (Nat.eq_dec t r); [contradiction|lia].
Qed.

Lemma same_membership_cell_remove_token (r : tok) (c : cell_ref) (t : tok) (s : State) :
  t <> r -> same_membership r s (cell_remove_token c t s).
Proof.
  intros N c'. unfold occurrences, cell_remove_token. rewrite cells_set_cell.
  destruct (cell_ref_eqb_eq c' c) as [E _].
  destruct (cell_ref_eqb c' c); [rewrite (E eq_refl)|reflexivity].
  unfold Cell.remove_token. destruct (list_mem _ _); cbn [fst Cell.tokens];
    [|reflexivity].
  apply count_occ_remove_first, N.
Qed.

Lemma same_membership_move_token (r : tok) (fuel : nat) :
  forall (s : State) (t : tok) (nx ny nz : float) (b : bool) (s' : State),
    t <> r ->
    move_token fuel s t nx ny nz = Some (b, s') ->
    same_membership r s s'.
Proof.
  induction fuel as [|fuel IH]; intros s t nx ny nz b s' N M; [discriminate M|].
  cbn [move_token] in M.
  destruct (get_cell_from_float s nx ny nz) as [new_cell|].
  2:{ injection M as _ <-.
      match goal with
      | |- same_membership r s (with_all_tokens _ ?s1) =>
          apply (same_membership_trans r s s1);
          [|apply same_membership_cells; reflexivity]
      end.
      destruct (get_cell_from_float s _ _ _);
        [apply same_membership_cell_remove_token, N|apply same_membership_refl]. }
  match type of M with
  | mbind _ ?target = _ => destruct target as [[[nc [[x' y'] z']]|]|]
  end; cbn [mbind option_bind] in M; [| |discriminate M].
  2:{ injection M as _ <-. apply same_membership_refl. }
  destruct (Cell.can_accept (heap s) (cells s nc) t).
  - injection M as _ <-.
    match goal with
    | |- same_membership r s (upd_token _ _ (cell_add_token _ _ ?s1)) =>
        apply (same_membership_trans r s (cell_add_token nc t s1));
        [apply (same_membership_trans r s s1);
         [|apply same_membership_cell_add_token, N]
        |apply same_membership_cells; reflexivity]
    end.
    destruct (get_cell_from_float s _ _ _) as [oc|]; [|apply same_membership_refl].
    destruct (negb (cell_ref_eqb oc nc));
      [apply same_membership_cell_remove_token, N|apply same_membership_refl].
  - unfold _handle_spillover in M.
    destruct (cell_pos nc) as [[fx fy] fz].
    destruct (_find_adjacent_cell s fx fy fz nc) as [adj|].
    + destruct (cell_pos adj) as [[ax ay] az]. eapply IH; eassumption.
    + injection M as _ <-. apply same_membership_refl.
Qed.

Lemma foldM_same_membership {A : Type} (r : tok) (body : State -> A -> option State) :
  (forall s a s', body s a = Some s' -> same_membership r s s') ->
  forall l s s', foldM body s l = Some s' -> same_membership r s s'.
Proof.
  intros Body. induction l as [|a l IH]; intros s s' R; simpl in R.
  - injection R as <-. apply same_membership_refl.
  - destruct (body s a) as [s1|] eqn:B; [|discriminate R].
    eapply same_membership_trans; [eapply Body, B|apply IH, R].
Qed.

Section MembershipFacts.
Context `{PyRandom}.

Lemma same_membership_push_token_aside (r : tok) (fuel : nat) (s : State)
    (t : tok) (c : cell_ref) (s' : State) :
  t <> r ->
  _push_token_aside fuel s t c = Some s' ->
  same_membership r s s'.
Proof.
  intros N P. unfold _push_token_aside in P. destruct c as [[cx cy] cz].
  destruct (List.filter _ _) as [|first rest];
    [injection P as <-; apply same_membership_refl|].
  destruct (cell_pos _) as [[fx fy] fz].
  destruct (move_token _ _ _ _ _ _) as [[b s1]|] eqn:M; [|discriminate P].
  injection P as <-.
  apply (same_membership_trans r s (with_clock (S (clock s)) s));
    [apply same_membership_cells; reflexivity|].
  eapply same_membership_move_token; eassumption.
Qed.

Lemma same_membership_handle_collisions (fuel : nat) (s : State)
    (rising_token : tok) (old_z : float) (s' : State) :
  _handle_collisions fuel s rising_token old_z = Some s' ->
  same_membership rising_token s s'.
Proof.
  intros C. unfold _handle_collisions in C.
  destruct (Token.energy (deref s rising_token) <=? 0);
    [injection C as <-; apply same_membership_refl|].
  destruct (PrimFloat.leb _ old_z);
    [injection C as <-; apply same_membership_refl|].
  destruct (get_cell_from_float s _ _ _) as [cell|];
    [|injection C as <-; apply same_membership_refl].
  revert C. apply foldM_same_membership. intros s1 a s2 B.
  destruct (Nat.eqb_spec a rising_token) as [->|N];
    [injection B as <-; apply same_membership_refl|].
  destruct (_ && _); [|injection B as <-; apply same_membership_refl].
  match type of B with
  | _push_token_aside _ ?st _ _ = _ =>
      apply (same_membership_trans rising_token s1 st);
      [apply same_membership_cells; reflexivity|]
  end.
  eapply same_membership_push_token_aside; [exact N|exact B].
Qed.

Lemma same_membership_before_move (fuel : nat) (s : State) (token : tok)
    (s3 : State) (p : float * float * float) :
  before_move fuel s token = Some (s3, p) ->
  same_membership token s s3.
Proof.
  intros B. unfold before_move in B.
  destruct (_handle_collisions fuel _ token _) as [s2|] eqn:C; [|discriminate B].
  injection B as <- _.
  match type of C with
  | _handle_collisions _ ?st _ _ = _ =>
      apply (same_membership_trans token s st);
      [apply same_membership_cells; reflexivity|]
  end.
  eapply same_membership_trans; [eapply same_membership_handle_collisions, C|].
  apply same_membership_cells. apply heap_only_apply_gravity_pull.
Qed.

End MembershipFacts.

(** ** The sweep on a grid within capacity *)

Lemma foldM_idle {A : Type} (body : State -> A -> option State) (s : State)
    (l : list A) :
  (forall a, body s a = Some s) -> foldM body s l = Some s.
Proof.
  intros B. induction l as [|a l IH]; simpl; [reflexivity|]. rewrite B. exact IH.
Qed.

(** With no cell above capacity the sweep finds nothing to do, whatever
    the fuel. *)
Lemma handle_spillover_idle `{PyRandom} (fuel : nat) (s : State) :
  capacity_invariant s -> handle_spillover fuel s = Some s.
Proof.
  intros Cap. unfold handle_spillover. apply foldM_idle. intros c.
  destruct (Cap c) as [_ Le].
  destruct (Z.ltb_spec Cell.MAX_CAPACITY (Cell.current_mass (cells s c)));
    [lia|reflexivity].
Qed.

(** * The claims *)

(** C6: on every pair of tokens [(A, B)] in which [A] carries the type of
    its value unless it is damaged (as every token the program builds
    does), [can_bond_with] returns what the specification's rule table
    gives, the first matching rule deciding: damaged, matching delimiters
    (100), control keyword before an opening parenthesis (90), declarator
    before an identifier (85), assignment (80), arithmetic or comparison
    (75), opening parenthesis (70), comma (60), identifier or literal
    before a separator (50), and no bond otherwise. *)
Theorem can_bond_with_follows_rule_table `{PyStr} (A B : Token.t) :
  token_typed A ->
  Token.can_bond_with A B = spec_can_bond A B.
Proof.
  intros HA. unfold Token.can_bond_with, spec_can_bond, spec_bonding_rules.
  cbn [first_match].
  destruct (Token.damaged A || Token.damaged B) eqn:D; [reflexivity|].
  apply orb_false_iff in D as [DA _]. specialize (HA DA).
  unfold is_value, is_type, value_in.
  rewrite matching_pair_test, HA.
  rewrite (guard_absorbed (TokenType_eqb _ keyword)
             (in_set (Token.value A) ["if"; "while"; "for"]))
    by (intros E; rewrite (control_flow_is_keyword _ E); reflexivity).
  rewrite (guard_absorbed (TokenType_eqb _ keyword)
             (in_set (Token.value A) ["int"; "float"; "var"; "let"; "const"]))
    by (intros E; rewrite (declarator_is_keyword _ E); reflexivity).
  rewrite (guard_absorbed (TokenType_eqb _ operator)
             (String.eqb (Token.value A) "="))
    by (intros E; rewrite (assignment_is_operator _ E); reflexivity).
  rewrite (guard_absorbed (TokenType_eqb _ operator)
             (in_set (Token.value A) ["+"; "-"; "*"; "/"; "=="; "!="; "<"; ">"]))
    by (intros E; rewrite (arithmetic_is_operator _ E); reflexivity).
  rewrite <- HA.
  change (in_types (Token.type B) [identifier])
    with (TokenType_eqb (Token.type B) identifier || false).
  rewrite orb_false_r. reflexivity.
Qed.

(** The table at the pair [if], [(]. *)
Lemma can_bond_with_follows_rule_table_witness :
  @token_typed ascii_builtins (new_token "if" 0 0 0 50)
  /\ Token.can_bond_with (new_token "if" 0 0 0 50) (new_token "(" 0 0 0 50)
     = spec_can_bond (new_token "if" 0 0 0 50) (new_token "(" 0 0 0 50).
Proof.
  split.
  - apply init_typed.
  - apply (can_bond_with_follows_rule_table (H := ascii_builtins)).
    apply init_typed.
Defined.

(** C7: validation walks the chain from its head along [next_token]; a
    pair [(A, B)] is in the list of errors it returns exactly when it is a
    consecutive link of that walk and either its bond strength is below 30
    (a pair that cannot bond has strength 0) or a grammar rule is
    violated: [A] is a type keyword not followed by an identifier or
    punctuation, or an operator other than [++] and [--] not followed by
    an identifier, a literal or punctuation.  The chain is reported valid
    exactly when the list is empty. *)
Theorem validate_grammar_flags_invalid_links
    (fuel : nat) (h : Token.heap) (chain : TokenChain.t) (l : list tok) :
  TokenChain.traverse fuel h (Some (TokenChain.head chain)) = Some l ->
  exists errors,
    _validate_grammar fuel h chain = Some ((length errors =? 0)%nat, errors)
    /\ forall A B,
         In (A, B) errors
         <-> In (A, B) (links l)
             /\ spec_link_invalid (Token.get h A) (Token.get h B) = true.
Proof.
  intros T. destruct (validate_walk_spec h fuel _ _ T) as (errors & W & Spec).
  exists errors. unfold _validate_grammar. rewrite W. split; [reflexivity|exact Spec].
Qed.

(** Validation of the chain [int -> ;]. *)
Lemma validate_grammar_flags_invalid_links_witness :
  TokenChain.traverse 3 (heap int_semicolon) (Some 0%nat) = Some [0%nat; 1%nat]
  /\ exists errors,
       _validate_grammar 3 (heap int_semicolon) (chain_at int_semicolon 0)
       = Some ((length errors =? 0)%nat, errors)
       /\ forall A B,
            In (A, B) errors
            <-> In (A, B) (links [0%nat; 1%nat])
                /\ spec_link_invalid (Token.get (heap int_semicolon) A)
                                     (Token.get (heap int_semicolon) B) = true.
Proof.
  split.
  - vm_compute. reflexivity.
  - apply (validate_grammar_flags_invalid_links 3 (heap int_semicolon)
             (chain_at int_semicolon 0) [0%nat; 1%nat]).
    vm_compute. reflexivity.
Defined.

(** C10: forming a chain from two distinct tokens generates exactly one
    unit of energy ([bond_to] returns 1), and the unit goes to the member
    of lower energy (to the head when the two are level): that member's
    energy grows by 1, every other token keeps its energy, and when both
    tokens are live the total energy of the simulation grows by exactly
    1.  The call returns whenever the walk from the first token to its
    tail ends within the fuel. *)
Theorem create_chain_generates_one_unit
    (fuel : nat) (s : State) (token1 token2 tail : tok) :
  token1 <> token2 ->
  (token1 < length (heap s))%nat ->
  (token2 < length (heap s))%nat ->
  TokenChain.find_tail fuel (heap s) token1 = Some tail ->
  (forall h a b cid, (Token.bond_to h a b cid).2 = 1)
  /\ exists s',
       _create_or_extend_chain fuel s token1 token2 = Some s'
       /\ (forall t,
             Token.energy (deref s' t)
             = Token.energy (deref s t)
               + (if Nat.eqb t (lowest_energy s token1 token2) then 1 else 0))
       /\ Token.energy (deref s (lowest_energy s token1 token2))
          <= Z.min (Token.energy (deref s token1)) (Token.energy (deref s token2))
       /\ (token1 ∈ all_tokens s -> token2 ∈ all_tokens s ->
           total_energy s' = total_energy s + 1).
Proof.
  intros Ne L1 L2 T. split; [reflexivity|].
  unfold _create_or_extend_chain, TokenChain.init, TokenChain.add_token.
  cbn [TokenChain.head TokenChain.chain_id TokenChain.tokens].
  rewrite (find_tail_ext (heap s)) by (intros t; apply field_upd; reflexivity).
  rewrite T. cbn [mbind option_bind].
  set (h1 := Token.upd (Token.set_chain_id (Some (_next_chain_id s))) token1 (heap s)).
  destruct (Token.bond_to h1 tail token2 (_next_chain_id s)) as [h2 energy] eqn:B.
  assert (energy = 1) as -> by (unfold Token.bond_to in B; injection B as _ <-; reflexivity).
  assert (h2 = (Token.bond_to h1 tail token2 (_next_chain_id s)).1) as Hh2
    by (rewrite B; reflexivity).
  assert (forall t, Token.energy (Token.get h2 t) = Token.energy (Token.get (heap s) t)) as E2.
  { intros t. rewrite Hh2, energy_bond_to. unfold h1. apply field_upd. reflexivity. }
  assert (length h2 = length (heap s)) as Len2.
  { rewrite Hh2, length_bond_to. unfold h1. apply length_upd. }
  eexists; split; [reflexivity|].
  match goal with
  | |- (forall t, Token.energy (deref ?s2 t) = _) /\ _ =>
      assert (forall t,
                Token.energy (deref s2 t)
                = Token.energy (deref s t)
                  + (if Nat.eqb t (lowest_energy s token1 token2) then 1 else 0)) as Pt
  end.
  { intros t. unfold deref, lowest_energy. cbn [heap with_heap with_chains with_next_chain_id].
    rewrite (distribute_one_unit h2 _ token1 token2);
      [|reflexivity|assumption|rewrite Len2; assumption|rewrite Len2; assumption].
    rewrite !E2. reflexivity. }
  split; [exact Pt|]. split.
  - unfold lowest_energy, deref.
    destruct (Z.ltb_spec (Token.energy (Token.get (heap s) token2))
                         (Token.energy (Token.get (heap s) token1))); lia.
  - intros I1 I2. unfold total_energy. cbn [all_tokens with_heap with_chains with_next_chain_id].
    apply (sum_one_more _ _ (lowest_energy s token1 token2)).
    + apply NoDup_ListNoDup, NoDup_elements.
    + apply list_elem_of_In, elem_of_elements.
      unfold lowest_energy. destruct (_ <? _); assumption.
    + exact Pt.
Qed.

(** The chain formed from [(] and [)]. *)
Lemma create_chain_generates_one_unit_witness :
  (0 <> 1)%nat
  /\ (0 < length (heap paren_pair))%nat
  /\ (1 < length (heap paren_pair))%nat
  /\ TokenChain.find_tail 3 (heap paren_pair) 0 = Some 0%nat
  /\ exists s',
       _create_or_extend_chain 3 paren_pair 0 1 = Some s'
       /\ total_energy s' = total_energy paren_pair + 1.
Proof.
  assert (0 <> 1)%nat as H1 by discriminate.
  assert (0 < length (heap paren_pair))%nat as H2 by (vm_compute; lia).
  assert (1 < length (heap paren_pair))%nat as H3 by (vm_compute; lia).
  assert (TokenChain.find_tail 3 (heap paren_pair) 0 = Some 0%nat) as H4
    by (vm_compute; reflexivity).
  repeat (split; [assumption|]).
  destruct (create_chain_generates_one_unit 3 paren_pair 0 1 0 H1 H2 H3 H4)
    as (_ & s' & E & _ & _ & Tot).
  exists s'. split; [exact E|].
  apply Tot; apply (bool_decide_unpack _); vm_compute; exact I.
Defined.

(** C2 (the code does otherwise): the clamp [max(0, ...)] applied before
    the test [new_z < 0] makes the test fail on every token, so the
    physics pass never takes the removal branch; the token of the
    specification's scenario (at [z = 0], energy 0, no velocity) is still
    a live token after the pass, back at [z = 0], and its cell lists it
    twice. *)
Theorem sinking_token_is_not_removed :
  (forall `{PyRandom} fuel s token s3 nx ny nz,
      before_move fuel s token = Some (s3, (nx, ny, nz)) ->
      PrimFloat.ltb nz 0 = false)
  /\ exists s',
       @update_all_tokens zero_draws 3 sinking_at_floor = Some s'
       /\ 0%nat ∈ all_tokens s'
       /\ Token.z (deref s' 0) = 0%float
       /\ Cell.tokens (cells s' (1, 1, 0)) = [0%nat; 0%nat].
Proof.
  split.
  - intros R fuel s token s3 nx ny nz B. unfold before_move in B.
    destruct (_handle_collisions fuel _ token _); [|discriminate B].
    injection B as _ _ _ <-. apply clamped_not_below_floor.
  - eexists. split; [vm_compute; reflexivity|].
    split; [apply (bool_decide_unpack _); vm_compute; exact I|].
    split; vm_compute; reflexivity.
Qed.

(** C3 (the code does otherwise): validating the chain [int -> x] whose
    token [x] is damaged, with a free identifier [y] in the cell, breaks
    the bond and rebonds [int] to [y] without touching the member list:
    afterwards the list is [int, x] while the traversal from the head is
    [int, y].  And one combination pass over a cell holding the free
    tokens [if], [(], [x] builds two chains that share the token [(]. *)
Theorem repair_leaves_member_list_stale :
  (exists s',
      _validate_chains 3 damaged_link 10 = Some s'
      /\ TokenChain.tokens (chain_at s' 0) = [0%nat; 1%nat]
      /\ TokenChain.traverse 3 (heap s') (Some (TokenChain.head (chain_at s' 0)))
         = Some [0%nat; 2%nat])
  /\ (exists s',
        _attempt_token_combinations 3 three_free = Some s'
        /\ map TokenChain.tokens (chains s') = [[0%nat; 1%nat]; [1%nat; 2%nat]]
        /\ TokenChain.traverse 3 (heap s') (Some (TokenChain.head (chain_at s' 0)))
           = Some [0%nat; 1%nat; 2%nat]).
Proof.
  split; eexists; (split; [vm_compute; reflexivity|]); split; vm_compute; reflexivity.
Qed.

(** C4 (the code does otherwise): moving the token of [sinking_at_floor]
    from (1.0, 1.0, 0.0) to (1.5, 1.0, 0.0), inside the cell it occupies,
    succeeds and leaves the token twice in the cell's list, with its mass
    counted twice. *)
Theorem move_within_cell_duplicates_token :
  Cell.tokens (cells sinking_at_floor (1, 1, 0)) = [0%nat]
  /\ Cell.current_mass (cells sinking_at_floor (1, 1, 0)) = 1
  /\ exists s',
       move_token 1 sinking_at_floor 0 1.5 1 0 = Some (true, s')
       /\ Cell.tokens (cells s' (1, 1, 0)) = [0%nat; 0%nat]
       /\ Cell.current_mass (cells s' (1, 1, 0)) = 2.
Proof.
  split; [vm_compute; reflexivity|]. split; [vm_compute; reflexivity|].
  eexists. split; [vm_compute; reflexivity|]. split; vm_compute; reflexivity.
Qed.

(** C9 (the code does otherwise): with the corner cells (0,0,0) and
    (0,1,0) each at mass 999, moving a token of mass 2 into (0,0,0) spills
    to (0,1,0), which spills back to (0,0,0), and so on: no amount of fuel
    lets [move_token] return. *)
Theorem spillover_recursion_never_returns :
  forall fuel, move_token fuel crowded_corner 666 0 0 0 = None.
Proof.
  assert (forall fuel,
             move_token fuel crowded_corner 666 0 0 0 = None
             /\ move_token fuel crowded_corner 666 0 1 0 = None) as Both.
  { induction fuel as [|fuel [IHa IHb]]; [split; reflexivity|]. split.
    - rewrite (move_token_spills fuel crowded_corner 666 0 0 0 (0, 0, 0) (0, 1, 0))
        by (vm_compute; reflexivity).
      exact IHb.
    - rewrite (move_token_spills fuel crowded_corner 666 0 1 0 (0, 1, 0) (0, 0, 0))
        by (vm_compute; reflexivity).
      exact IHa. }
  intros fuel. apply Both.
Qed.

(** C1: from a well-formed grid (the grid of a new simulation is one),
    after any number of ticks, and after the spillover sweep of any tick,
    every cell's recorded mass is the sum of the masses of the tokens of
    its list and is at most the capacity of 1000. *)
Theorem capacity_invariant_at_tick_boundaries `{PyStr} `{PyRandom}
    (fuel : nat) (s : State) :
  grid_wf s ->
  (forall n s', run fuel n s = Some s' -> capacity_invariant s')
  /\ (forall s1 s2,
        update_all_tokens fuel s = Some s1 ->
        handle_spillover fuel s1 = Some s2 ->
        capacity_invariant s2).
Proof.
  intros W. split.
  - intros n s' R. apply (wf_run fuel n s s' W R).
  - intros s1 s2 U S.
    pose proof (wf_update_all_tokens _ _ _ W U) as W1.
    apply (wf_handle_spillover _ _ _ (proj1 W1) S).
Qed.

(** Forty-five ticks of a new simulation of side 4. *)
Lemma capacity_invariant_at_tick_boundaries_witness :
  grid_wf (@Simulation_init 4)
  /\ exists s',
       @run ascii_builtins mixed_draws 30 45 (Simulation_init 4) = Some s'
       /\ size (all_tokens s') = 4%nat
       /\ capacity_invariant s'.
Proof.
  split; [apply wf_Simulation_init|].
  eexists. split; [vm_compute; reflexivity|]. split; [vm_compute; reflexivity|].
  apply (proj1 (@capacity_invariant_at_tick_boundaries ascii_builtins mixed_draws 30
                  (Simulation_init 4) (wf_Simulation_init 4)) 45%nat).
  vm_compute. reflexivity.
Defined.

(** C8: a call of [move_token] whose destination lies inside the grid and
    which reports failure changes nothing: the state it returns is the
    state it was given (token coordinates, cell lists and masses, the set
    of live tokens).  When that call is the one the physics pass makes for
    a token, the pass then writes the token's position of before the tick
    back: the token has the coordinates it had before the tick, every cell
    lists it as often as before the tick, and cells and live set are as
    the call found them. *)
Theorem failed_move_changes_nothing
    (fuel : nat) (s : State) (token : tok) (nx ny nz : float) (s' : State) :
  grid_indices_exact s ->
  get_cell_from_float s nx ny nz <> None ->
  move_token fuel s token nx ny nz = Some (false, s') ->
  s' = s
  /\ forall `{PyRandom} (s0 : State),
       token ∈ all_tokens s0 ->
       (token < length (heap s))%nat ->
       before_move fuel s0 token = Some (s, (nx, ny, nz)) ->
       exists s1,
         update_token fuel s0 token = Some s1
         /\ cells s1 = cells s
         /\ all_tokens s1 = all_tokens s
         /\ same_membership token s0 s1
         /\ Token.x (deref s1 token) = Token.x (deref s0 token)
         /\ Token.y (deref s1 token) = Token.y (deref s0 token)
         /\ Token.z (deref s1 token) = Token.z (deref s0 token).
Proof.
  intros X B M.
  pose proof (failed_move_keeps_state fuel s token nx ny nz s' X B M) as ->.
  split; [reflexivity|].
  intros R s0 In L Bm. unfold update_token.
  rewrite (bool_decide_eq_true_2 _ In). cbn [negb]. rewrite Bm.
  assert (PrimFloat.ltb nz 0 = false) as ->.
  { unfold before_move in Bm.
    destruct (_handle_collisions _ _ _ _); [|discriminate Bm].
    injection Bm as _ _ _ <-. apply clamped_not_below_floor. }
  rewrite M. eexists. split; [reflexivity|]. split; [reflexivity|]. split; [reflexivity|].
  split.
  { apply (same_membership_trans token s0 s);
      [eapply same_membership_before_move, Bm|].
    apply same_membership_cells. reflexivity. }
  unfold upd_token.
  repeat split; unfold deref at 1; cbn [heap with_heap];
    rewrite get_upd_eq by exact L; reflexivity.
Qed.

(** The [if] token of [blocked]: repelled by the heavier [while] above
    it, with no adjacent cell to go to. *)
Lemma failed_move_changes_nothing_witness :
  grid_indices_exact blocked_at_move
  /\ get_cell_from_float blocked_at_move 0 0 1 <> None
  /\ move_token 3 blocked_at_move 0 0 0 1 = Some (false, blocked_at_move)
  /\ exists s1,
       @update_token zero_draws 3 blocked 0 = Some s1
       /\ Token.energy (deref s1 0) = 2
       /\ Token.z (deref s1 0) = Token.z (deref blocked 0).
Proof.
  assert (grid_indices_exact blocked_at_move) as X
    by (apply small_grid_indices_exact; vm_compute; discriminate).
  assert (get_cell_from_float blocked_at_move 0 0 1 <> None) as B
    by (vm_compute; discriminate).
  assert (move_token 3 blocked_at_move 0 0 0 1 = Some (false, blocked_at_move)) as M
    by (vm_compute; reflexivity).
  repeat (split; [assumption|]).
  destruct (failed_move_changes_nothing 3 blocked_at_move 0 0 0 1 blocked_at_move X B M)
    as [_ P].
  destruct (P zero_draws blocked) as (s1 & U & _ & _ & _ & _ & _ & Ez).
  - apply (bool_decide_unpack _). vm_compute. exact I.
  - vm_compute. lia.
  - vm_compute. reflexivity.
  - exists s1. split; [exact U|]. split; [|exact Ez].
    assert (@update_token zero_draws 3 blocked 0
            = Some (upd_token (Token.set_pos 0 0 0) 0 blocked_at_move)) as U'
      by (vm_compute; reflexivity).
    rewrite U' in U. injection U as <-. vm_compute. reflexivity.
Defined.




(** * Further properties of the code

    ** Tokens *)

Lemma in_set_In (v : string) (l : list string) : in_set v l = true <-> In v l.
Proof.
  unfold in_set. rewrite existsb_exists. split.
  - intros (w & I & E). apply String.eqb_eq in E. subst w. exact I.
  - intros I. exists v. split; [exact I|apply String.eqb_refl].
Qed.

Lemma string_eqb_sym (a b : string) : String.eqb a b = String.eqb b a.
Proof.
  destruct (String.eqb_spec a b) as [->|N].
  - symmetry. apply String.eqb_refl.
  - symmetry. apply String.eqb_neq. congruence.
Qed.

(** X1: mutual exclusion is a symmetric, irreflexive relation on tokens
    that reads their values only; two tokens of equal value are never
    mutually exclusive. *)
Theorem mutual_exclusion_symmetric_irreflexive (a b : Token.t) :
  Token.is_mutually_exclusive_with a b = Token.is_mutually_exclusive_with b a
  /\ Token.is_mutually_exclusive_with a a = false
  /\ (Token.value a = Token.value b -> Token.is_mutually_exclusive_with a b = false).
Proof.
  assert (forall u v : Token.t,
             Token.value u = Token.value v ->
             Token.is_mutually_exclusive_with u v = false) as Same.
  { intros u v E. unfold Token.is_mutually_exclusive_with. rewrite E.
    rewrite String.eqb_refl. simpl. rewrite !andb_false_r. reflexivity. }
  split; [|split].
  - unfold Token.is_mutually_exclusive_with.
    rewrite (string_eqb_sym (Token.value a) (Token.value b)).
    simpl. rewrite ?orb_false_r.
    repeat (f_equal; try (rewrite andb_comm; reflexivity)).
  - apply Same. reflexivity.
  - apply Same.
Qed.

(** X2: a call of [can_bond_with] returns [(False, 0)] or [(True, k)]
    with [k] one of the eight strengths of the table, all at least 50.  So
    the test [not can_bond or strength < 30] of the validation is the test
    [not can_bond], and the test [can_bond and strength > 50] of the
    combination excludes exactly the sequential rule of strength 50. *)
Theorem bond_strength_is_in_table (A B : Token.t) :
  (Token.can_bond_with A B = (false, 0)
   \/ exists k, Token.can_bond_with A B = (true, k)
                /\ In k [100; 90; 85; 80; 75; 70; 60; 50])
  /\ (let '(can_bond, strength) := Token.can_bond_with A B in
      negb can_bond || (strength <? 30) = negb can_bond)
  /\ (let '(can_bond, strength) := Token.can_bond_with A B in
      can_bond && (50 <? strength) = (60 <=? strength)).
Proof.
  unfold Token.can_bond_with.
  repeat match goal with
         | |- context [if ?c then _ else _] => destruct c
         end;
    (split; [|split; reflexivity]);
    first [ left; reflexivity
          | right; eexists; split; [reflexivity|simpl; tauto] ].
Qed.

Section BondFacts.
Context `{PyStr}.

Lemma punctuation_typed (v : string) :
  in_set v Token.PUNCTUATION = true -> Token._determine_type v = punctuation.
Proof.
  intros I. apply in_set_In in I. simpl in I.
  repeat (destruct I as [<-|I]; [reflexivity|]). destruct I.
Qed.

Lemma operator_or_punctuation_typed (v : string) :
  in_set v ["+"; "-"; "*"; "/"; "="; ";"; ","; ")"] = true ->
  in_types (Token._determine_type v) [identifier; literal] = false.
Proof.
  intros I. apply in_set_In in I. simpl in I.
  repeat (destruct I as [<-|I]; [reflexivity|]). destruct I.
Qed.

(** X3: an undamaged token carrying the type of its value never bonds
    with itself, so a cell that lists a token twice cannot make the
    combination pass link the token to itself. *)
Theorem no_token_bonds_with_itself (a : Token.t) :
  token_typed a -> Token.can_bond_with a a = (false, 0).
Proof.
  intros T. unfold Token.can_bond_with. rewrite matching_pair_test.
  destruct (Token.damaged a) eqn:D; [reflexivity|]. cbn [orb].
  specialize (T D).
  assert (in_types (Token.type a) [identifier; literal]
          && in_set (Token.value a) ["+"; "-"; "*"; "/"; "="; ";"; ","; ")"] = false)
    as ->.
  { destruct (in_set (Token.value a) ["+"; "-"; "*"; "/"; "="; ";"; ","; ")"]) eqn:I;
      [|apply andb_false_r].
    rewrite T, (operator_or_punctuation_typed _ I). reflexivity. }
  destruct (String.eqb_spec (Token.value a) "(") as [E|_].
  { rewrite E in T |- *. rewrite T. reflexivity. }
  destruct (String.eqb_spec (Token.value a) "{") as [E|_].
  { rewrite E in T |- *. rewrite T. reflexivity. }
  destruct (String.eqb_spec (Token.value a) "[") as [E|_].
  { rewrite E in T |- *. rewrite T. reflexivity. }
  destruct (String.eqb_spec (Token.value a) ",") as [E|_].
  { rewrite E in T |- *. rewrite T. reflexivity. }
  cbn [andb orb]. rewrite !andb_false_r.
  destruct (Token.type a); cbn [TokenType_eqb in_types existsb andb orb];
    rewrite ?andb_false_r; reflexivity.
Qed.

End BondFacts.

(** The token [(] under the ASCII builtins. *)
Lemma no_token_bonds_with_itself_witness :
  @token_typed ascii_builtins (new_token "(" 0 0 0 50)
  /\ Token.can_bond_with (new_token "(" 0 0 0 50) (new_token "(" 0 0 0 50) = (false, 0).
Proof.
  split; [apply init_typed|].
  apply (@no_token_bonds_with_itself ascii_builtins). apply init_typed.
Defined.

Section ValidationFacts.
Context `{PyStr}.

Lemma strong_bond_follows_grammar (A B : Token.t) :
  token_typed A ->
  (Token.can_bond_with A B).1 = true ->
  50 < (Token.can_bond_with A B).2 ->
  _check_grammar_rule A B = true.
Proof.
  intros T. unfold Token.can_bond_with. rewrite matching_pair_test.
  destruct (Token.damaged A || Token.damaged B) eqn:D; [discriminate 1|].
  apply orb_false_elim in D as [DA _]. specialize (T DA).
  unfold _check_grammar_rule.
  repeat match goal with
         | |- context [if ?c then (true, _) else _] =>
             destruct c eqn:?; [intros _ Strong|]
         end;
    try discriminate 1; try (simpl in Strong; lia); clear Strong;
    repeat match goal with
           | E : _ || _ = true |- _ => apply orb_true_iff in E as [E|E]
           | E : _ && _ = true |- _ => apply andb_true_iff in E as [? ?]
           | E : String.eqb _ _ = true |- _ => apply String.eqb_eq in E
           | E : TokenType_eqb _ _ = true |- _ => apply TokenType_eqb_eq in E
           | E : in_set _ _ = true |- _ => apply in_set_In in E; simpl in E
           | E : _ \/ _ |- _ => destruct E as [E|E]
           | E : False |- _ => destruct E
           end;
    repeat match goal with
           | E : Token.value A = _ |- _ => rewrite E in *; clear E
           | E : _ = Token.value A |- _ => rewrite <- E in *; clear E
           | E : Token.type A = _ |- _ => rewrite E in *; clear E
           end;
    try (destruct (Token.type B); try discriminate; simpl; rewrite ?andb_false_r;
         reflexivity).
Qed.

(** X4: what the engine bonds, validation accepts.  When [A] carries the
    type of its value and [A.can_bond_with(B)] allows a bond of strength
    above 50 (the condition under which the combination pass and the
    repair link two tokens), the validation loop records no error for
    the link from [A] to [B]. *)
Theorem bonded_pair_passes_validation (h : Token.heap) (a b : tok) :
  token_typed (Token.get h a) ->
  (Token.can_bond_with (Token.get h a) (Token.get h b)).1 = true ->
  50 < (Token.can_bond_with (Token.get h a) (Token.get h b)).2 ->
  link_errors h a b = [].
Proof.
  intros T Bond Strong. unfold link_errors.
  rewrite (strong_bond_follows_grammar _ _ T Bond Strong).
  destruct (Token.can_bond_with (Token.get h a) (Token.get h b)) as [can_bond strength].
  simpl in Bond, Strong. subst can_bond.
  destruct (Z.ltb_spec strength 30) as [L|_]; [lia|]. reflexivity.
Qed.

End ValidationFacts.

(** The link [if -> (] of [three_free]. *)
Lemma bonded_pair_passes_validation_witness :
  link_errors (heap three_free) 0 1 = [].
Proof.
  apply (@bonded_pair_passes_validation ascii_builtins).
  - intros _. reflexivity.
  - reflexivity.
  - vm_compute. reflexivity.
Defined.

(** ** Cells *)

Lemma remove_first_app_absent (v : nat) (l : list nat) :
  ~ In v l -> list_remove_first v (l ++ [v]) = l.
Proof.
  induction l as [|a l IH]; simpl; intros N.
  - rewrite Nat.eqb_refl. reflexivity.
  - destruct (Nat.eqb_spec a v) as [E|_]; [exfalso; apply N; left; exact E|].
    rewrite IH by (intros I; apply N; right; exact I). reflexivity.
Qed.

Lemma remove_first_Permutation (v : nat) (l : list nat) :
  In v l -> v :: list_remove_first v l ≡ₚ l.
Proof.
  induction l as [|a l IH]; simpl; intros I; [destruct I|].
  destruct (Nat.eqb_spec a v) as [->|N]; [reflexivity|].
  destruct I as [E|I]; [congruence|].
  rewrite Permutation_swap. rewrite (IH I). reflexivity.
Qed.

(** X5: adding a token to a cell that can accept it and removing it
    again restores the recorded mass and, up to order, the list; the cell
    itself is restored when it did not list the token before (otherwise
    the earlier entry is the one removed). *)
Theorem cell_add_then_remove (h : Token.heap) (c : Cell.t) (t : tok) :
  Cell.can_accept h c t = true ->
  let c1 := (Cell.add_token h c t).1 in
  (Cell.add_token h c t).2 = true
  /\ (Cell.remove_token h c1 t).2 = true
  /\ Cell.current_mass (Cell.remove_token h c1 t).1 = Cell.current_mass c
  /\ Cell.tokens (Cell.remove_token h c1 t).1 ≡ₚ Cell.tokens c
  /\ (~ In t (Cell.tokens c) -> (Cell.remove_token h c1 t).1 = c).
Proof.
  intros A. unfold Cell.add_token. rewrite A. cbn [fst snd].
  unfold Cell.remove_token. cbn [Cell.tokens Cell.current_mass].
  assert (list_mem t (Cell.tokens c ++ [t]) = true) as ->.
  { apply list_mem_In. apply in_or_app. right. left. reflexivity. }
  cbn [fst snd Cell.tokens Cell.current_mass].
  split; [reflexivity|]. split; [reflexivity|]. split; [lia|]. split.
  - apply (Permutation_cons_inv (a := t)).
    rewrite remove_first_Permutation by (apply in_or_app; right; left; reflexivity).
    symmetry. apply Permutation_cons_append.
  - intros N. rewrite (remove_first_app_absent _ _ N).
    destruct c as [l m]. cbn. f_equal. lia.
Qed.

(** An empty cell and a token of mass 1. *)
Lemma cell_add_then_remove_witness :
  Cell.can_accept (heap sinking_at_floor) Cell.init 0 = true
  /\ (Cell.remove_token (heap sinking_at_floor)
        (Cell.add_token (heap sinking_at_floor) Cell.init 0).1 0).1 = Cell.init.
Proof.
  split; [reflexivity|].
  apply (cell_add_then_remove (heap sinking_at_floor) Cell.init 0 eq_refl).
  intros [].
Defined.

(** ** The grid *)

Lemma get_cell_Some (s : State) (px py pz : Z) (c : cell_ref) :
  get_cell s px py pz = Some c <-> c = (px, py, pz) /\ valid_cell s c.
Proof.
  unfold get_cell, valid_cell. split.
  - destruct (is_valid_position s px py pz) eqn:V; [|discriminate 1].
    intros [= <-]. split; [reflexivity|exact V].
  - intros [-> V]. cbn in V. rewrite V. reflexivity.
Qed.

Lemma In_offsets2 (dx dy : Z) :
  In (dx, dy) offsets2 <-> -1 <= dx <= 1 /\ -1 <= dy <= 1 /\ (dx, dy) <> (0, 0).
Proof.
  split.
  - intros I. vm_compute in I.
    repeat (destruct I as [ [= <- <-] | I]; [repeat split; (lia || discriminate)|]).
    destruct I.
  - intros (Hx & Hy & N).
    assert (dx = -1 \/ dx = 0 \/ dx = 1) as [-> | [-> | ->] ] by lia;
      assert (dy = -1 \/ dy = 0 \/ dy = 1) as [-> | [-> | ->] ] by lia;
      try (exfalso; apply N; reflexivity); vm_compute; tauto.
Qed.

Lemma In_offsets3 (dx dy dz : Z) :
  In (dx, dy, dz) offsets3
  <-> -1 <= dx <= 1 /\ -1 <= dy <= 1 /\ -1 <= dz <= 1 /\ (dx, dy, dz) <> (0, 0, 0).
Proof.
  split.
  - intros I. vm_compute in I.
    repeat (destruct I as [ [= <- <- <-] | I]; [repeat split; (lia || discriminate)|]).
    destruct I.
  - intros (Hx & Hy & Hz & N).
    assert (dx = -1 \/ dx = 0 \/ dx = 1) as [-> | [-> | ->] ] by lia;
      assert (dy = -1 \/ dy = 0 \/ dy = 1) as [-> | [-> | ->] ] by lia;
      assert (dz = -1 \/ dz = 0 \/ dz = 1) as [-> | [-> | ->] ] by lia;
      try (exfalso; apply N; reflexivity); vm_compute; tauto.
Qed.

(** The cells the search of [_find_adjacent_cell] goes through. *)
Lemma In_horizontal_candidates (s : State) (ix iy iz : Z) (c : cell_ref) :
  In c (omap (fun '(dx, dy) => get_cell s (ix + dx) (iy + dy) iz) offsets2)
  <-> valid_cell s c /\ horizontal_neighbour ix iy iz c.
Proof.
  rewrite <- list_elem_of_In, list_elem_of_omap. split.
  - intros ([dx dy] & I & G). apply list_elem_of_In, In_offsets2 in I.
    apply get_cell_Some in G as [-> V]. split; [exact V|].
    unfold horizontal_neighbour. cbn. destruct I as (Hx & Hy & N).
    repeat split; try lia. intros [= Ex Ey]. apply N. f_equal; lia.
  - intros [V (Ez & Hx & Hy & N)]. destruct c as [[cx cy] cz]. cbn in *. subst cz.
    exists (cx - ix, cy - iy). split.
    + apply list_elem_of_In, In_offsets2. repeat split; try lia.
      intros [= Ex Ey]. apply N. f_equal; lia.
    + apply get_cell_Some. split; [|exact V].
      replace (ix + (cx - ix)) with cx by lia.
      replace (iy + (cy - iy)) with cy by lia. reflexivity.
Qed.

(** X6: [_find_adjacent_cell] returns a cell that exists, is one of the
    eight horizontal neighbours of the given position, is not the
    excluded cell and holds less than the capacity; it returns [None]
    exactly when no cell is all of that. *)
Theorem find_adjacent_cell_spec (s : State) (fx fy fz : float) (exclude_cell : cell_ref) :
  let candidate c :=
    valid_cell s c
    /\ horizontal_neighbour (int_of_float fx) (int_of_float fy) (int_of_float fz) c
    /\ c <> exclude_cell
    /\ Cell.current_mass (cells s c) < Cell.MAX_CAPACITY in
  match _find_adjacent_cell s fx fy fz exclude_cell with
  | Some adjacent => candidate adjacent
  | None => forall c, ~ candidate c
  end.
Proof.
  intros candidate. unfold _find_adjacent_cell.
  match goal with |- context [List.find ?f ?l] => destruct (List.find f l) as [adj|] eqn:F end.
  - apply find_some in F as [I T]. apply In_horizontal_candidates in I as [V N].
    apply andb_true_iff in T as [Ne Lt].
    repeat split; try apply V; try apply N.
    + intros ->. rewrite (proj2 (cell_ref_eqb_eq _ _) eq_refl) in Ne. discriminate Ne.
    + apply Z.ltb_lt in Lt. exact Lt.
  - intros c (V & N & Ne & Lt).
    pose proof (find_none _ _ F c (proj2 (In_horizontal_candidates _ _ _ _ _) (conj V N))) as T.
    cbn beta in T. apply andb_false_iff in T as [T|T].
    + apply negb_false_iff, cell_ref_eqb_eq in T. contradiction.
    + apply Z.ltb_ge in T. lia.
Qed.

Lemma In_all_cells (s : State) (c : cell_ref) : In c (all_cells s) <-> valid_cell s c.
Proof.
  rewrite <- list_elem_of_In. unfold all_cells, valid_cell, is_valid_position.
  destruct c as [[cx cy] cz]. cbn [fst snd].
  rewrite list_elem_of_bind. split.
  - intros (x & I & Hx). apply list_elem_of_bind in I as (y & I & Hy).
    apply list_elem_of_bind in I as (z & I & Hz).
    apply list_elem_of_singleton in I as [= -> -> ->].
    apply elem_of_seqZ in Hx, Hy, Hz.
    repeat (apply andb_true_iff; split); lia.
  - intros V. repeat (apply andb_true_iff in V as [V ?]).
    exists cx. split; [|apply elem_of_seqZ; lia].
    apply list_elem_of_bind. exists cy. split; [|apply elem_of_seqZ; lia].
    apply list_elem_of_bind. exists cz. split; [|apply elem_of_seqZ; lia].
    apply list_elem_of_singleton. reflexivity.
Qed.

(** X7: the three nested [range] loops over the grid (those of the
    spillover sweep and of the combination pass) visit exactly the
    positions [is_valid_position] accepts, each once. *)
Theorem all_cells_enumerates_grid (s : State) :
  (forall c, In c (all_cells s) <-> valid_cell s c)
  /\ List.NoDup (all_cells s)
  /\ length (all_cells s)
     = (Z.to_nat (size_x s) * Z.to_nat (size_y s) * Z.to_nat (size_z s))%nat.
Proof.
  split; [apply In_all_cells|]. split.
  - unfold all_cells. apply NoDup_ListNoDup.
    apply NoDup_bind; [| |apply NoDup_seqZ].
    { intros x1 x2 c _ _ I1 I2.
      apply list_elem_of_bind in I1 as (y1 & I1 & _), I2 as (y2 & I2 & _).
      apply list_elem_of_bind in I1 as (z1 & I1 & _), I2 as (z2 & I2 & _).
      apply list_elem_of_singleton in I1, I2. congruence. }
    intros x _. apply NoDup_bind; [| |apply NoDup_seqZ].
    { intros y1 y2 c _ _ I1 I2.
      apply list_elem_of_bind in I1 as (z1 & I1 & _), I2 as (z2 & I2 & _).
      apply list_elem_of_singleton in I1, I2. congruence. }
    intros y _. apply NoDup_bind; [| |apply NoDup_seqZ].
    { intros z1 z2 c _ _ I1 I2. apply list_elem_of_singleton in I1, I2. congruence. }
    intros z _. apply NoDup_singleton.
  - unfold all_cells.
    assert (forall {A B : Type} (f : A -> list B) (n : nat) (l : list A),
               (forall a, length (f a) = n) -> length (l ≫= f) = (length l * n)%nat)
      as Count.
    { intros A B f n l E. induction l as [|a l IH]; [reflexivity|].
      cbn. rewrite length_app, E. cbn in IH. rewrite IH. lia. }
    rewrite (Count _ _ _ (Z.to_nat (size_y s) * Z.to_nat (size_z s))%nat).
    + rewrite length_seqZ. lia.
    + intros cx. rewrite (Count _ _ _ (Z.to_nat (size_z s))).
      * rewrite length_seqZ. lia.
      * intros cy. rewrite (Count _ _ _ 1%nat); [rewrite length_seqZ; lia|].
        intros cz. reflexivity.
Qed.

Lemma NoDup_omap_inj {A B : Type} (f : A -> option B) (l : list A) :
  (forall a1 a2 b, f a1 = Some b -> f a2 = Some b -> a1 = a2) ->
  List.NoDup l -> List.NoDup (omap f l).
Proof.
  intros Inj N. induction N as [|a l Na N IH]; cbn; [constructor|].
  destruct (f a) as [b|] eqn:E; [|exact IH].
  constructor; [|exact IH].
  intros I. apply list_elem_of_In, list_elem_of_omap in I as (a' & I & E').
  apply list_elem_of_In in I. rewrite (Inj _ _ _ E E') in Na. contradiction.
Qed.

Lemma length_omap_le {A B : Type} (f : A -> option B) (l : list A) :
  (length (omap f l) <= length l)%nat.
Proof.
  induction l as [|a l IH]; cbn; [lia|]. destruct (f a); cbn; lia.
Qed.

Lemma length_omap_total {A B : Type} (f : A -> option B) (l : list A) :
  (forall a, In a l -> f a <> None) -> length (omap f l) = length l.
Proof.
  induction l as [|a l IH]; cbn; intros T; [reflexivity|].
  destruct (f a) eqn:E; [|exfalso; apply (T a); [left; reflexivity|exact E]].
  cbn. rewrite IH; [reflexivity|]. intros a' I. apply T. right. exact I.
Qed.

(** X8: [get_adjacent_cells] lists exactly the cells that exist among the
    26 around the position, each once and never the cell of the position
    itself: at most 26 of them, and 26 when the position is not on the
    boundary of the grid. *)
Theorem get_adjacent_cells_spec (s : State) (px py pz : Z) :
  (forall c, In c (get_adjacent_cells s px py pz)
             <-> valid_cell s c /\ spatial_neighbour px py pz c)
  /\ List.NoDup (get_adjacent_cells s px py pz)
  /\ (length (get_adjacent_cells s px py pz) <= 26)%nat
  /\ (0 < px < size_x s - 1 -> 0 < py < size_y s - 1 -> 0 < pz < size_z s - 1 ->
      length (get_adjacent_cells s px py pz) = 26%nat).
Proof.
  unfold get_adjacent_cells. split; [|split; [|split]].
  - intros c. rewrite <- list_elem_of_In, list_elem_of_omap. split.
    + intros ([[dx dy] dz] & I & G). apply list_elem_of_In, In_offsets3 in I.
      apply get_cell_Some in G as [-> V]. split; [exact V|].
      unfold spatial_neighbour. cbn. destruct I as (Hx & Hy & Hz & N).
      repeat split; try lia. intros [= Ex Ey Ez]. apply N. repeat f_equal; lia.
    + intros [V (Hx & Hy & Hz & N)]. destruct c as [[cx cy] cz]. cbn in *.
      exists (cx - px, cy - py, cz - pz). split.
      * apply list_elem_of_In, In_offsets3. repeat split; try lia.
        intros [= Ex Ey Ez]. apply N. repeat f_equal; lia.
      * apply get_cell_Some. split; [|exact V].
        replace (px + (cx - px)) with cx by lia.
        replace (py + (cy - py)) with cy by lia.
        replace (pz + (cz - pz)) with cz by lia. reflexivity.
  - apply NoDup_omap_inj.
    + intros [[dx1 dy1] dz1] [[dx2 dy2] dz2] c G1 G2.
      apply get_cell_Some in G1 as [-> _], G2 as [[= Ex Ey Ez] _].
      repeat f_equal; lia.
    + vm_compute. repeat (constructor; [cbn; intuition discriminate|]). constructor.
  - etransitivity; [apply length_omap_le|]. vm_compute. lia.
  - intros Hx Hy Hz. rewrite length_omap_total; [reflexivity|].
    intros [[dx dy] dz] I. apply In_offsets3 in I as (Dx & Dy & Dz & _).
    unfold get_cell, is_valid_position.
    repeat match goal with
           | |- context [?a <=? ?b] => destruct (Z.leb_spec a b); [|lia]
           | |- context [?a <? ?b] => destruct (Z.ltb_spec a b); [|lia]
           end.
    discriminate.
Qed.

(** X9: [get_tokens_in_region] returns the tokens listed by the cells
    that exist within [radius] of the position along every axis, and
    nothing else; with a negative radius it returns the empty list, and
    with radius 0 the list of the cell at the position, if there is
    one. *)
Theorem get_tokens_in_region_spec (s : State) (px py pz : Z) (radius : Z) :
  (forall t, In t (get_tokens_in_region s px py pz radius)
             <-> exists c, valid_cell s c /\ within radius px py pz c
                           /\ In t (Cell.tokens (cells s c)))
  /\ (radius < 0 -> get_tokens_in_region s px py pz radius = [])
  /\ get_tokens_in_region s px py pz 0
     = match get_cell s px py pz with
       | Some cell => Cell.tokens (cells s cell)
       | None => []
       end.
Proof.
  split; [|split].
  - intros t. rewrite <- list_elem_of_In. unfold get_tokens_in_region, radius_range.
    rewrite list_elem_of_bind. split.
    + intros (dx & I & Hx). apply list_elem_of_bind in I as (dy & I & Hy).
      apply list_elem_of_bind in I as (dz & I & Hz).
      apply elem_of_seqZ in Hx, Hy, Hz.
      destruct (get_cell s (px + dx) (py + dy) (pz + dz)) as [c|] eqn:G;
        [|apply elem_of_nil in I; destruct I].
      apply get_cell_Some in G as [-> V]. eexists. split; [exact V|]. split.
      * unfold within. cbn. lia.
      * apply list_elem_of_In. exact I.
    + intros ([[cx cy] cz] & V & W & I). unfold within in W. cbn in W.
      exists (cx - px). split; [|apply elem_of_seqZ; lia].
      apply list_elem_of_bind. exists (cy - py). split; [|apply elem_of_seqZ; lia].
      apply list_elem_of_bind. exists (cz - pz). split; [|apply elem_of_seqZ; lia].
      replace (px + (cx - px)) with cx by lia.
      replace (py + (cy - py)) with cy by lia.
      replace (pz + (cz - pz)) with cz by lia.
      rewrite (proj2 (get_cell_Some s cx cy cz (cx, cy, cz)) (conj eq_refl V)).
      apply list_elem_of_In. exact I.
  - intros Neg. unfold get_tokens_in_region, radius_range.
    rewrite seqZ_nil by lia. reflexivity.
  - unfold get_tokens_in_region, radius_range.
    change (seqZ (- 0) (2 * 0 + 1)) with [0]. cbn [mbind list_bind app].
    rewrite !Z.add_0_r, !app_nil_r. reflexivity.
Qed.

(** ** Chains *)

Lemma walk_length_of_traverse (h : Token.heap) (fuel : nat) :
  forall (c : option tok) (l : list tok),
    TokenChain.traverse fuel h c = Some l ->
    forall (fuel' : nat) (acc : Z),
      (fuel <= fuel')%nat ->
      Token.walk_length fuel' h c acc = Some (acc + Z.of_nat (length l)).
Proof.
  induction fuel as [|fuel IH]; intros [c|] l T fuel' acc Le; cbn in T.
  - discriminate T.
  - injection T as <-. destruct fuel'; cbn; f_equal; lia.
  - destruct (TokenChain.traverse fuel h (Token.next_token (Token.get h c)))
      as [rest|] eqn:R; [|discriminate T].
    cbn in T. injection T as <-.
    destruct fuel' as [|fuel']; [lia|]. cbn.
    rewrite (IH _ _ R) by lia. f_equal. cbn [length]. lia.
  - injection T as <-. destruct fuel'; cbn; f_equal; lia.
Qed.

Lemma walk_mass_of_traverse (h : Token.heap) (fuel : nat) :
  forall (c : option tok) (l : list tok),
    TokenChain.traverse fuel h c = Some l ->
    forall (fuel' : nat) (acc : Z),
      (fuel <= fuel')%nat ->
      Token.walk_mass fuel' h c acc = Some (acc + sum_masses h l).
Proof.
  induction fuel as [|fuel IH]; intros [c|] l T fuel' acc Le; cbn in T.
  - discriminate T.
  - injection T as <-. destruct fuel'; cbn; f_equal; unfold sum_masses; cbn; lia.
  - destruct (TokenChain.traverse fuel h (Token.next_token (Token.get h c)))
      as [rest|] eqn:R; [|discriminate T].
    cbn in T. injection T as <-.
    destruct fuel' as [|fuel']; [lia|]. cbn.
    rewrite (IH _ _ R) by lia. f_equal. unfold sum_masses. cbn [map foldr]. lia.
  - injection T as <-. destruct fuel'; cbn; f_equal; unfold sum_masses; cbn; lia.
Qed.

(** X10: when the forward traversal from a token ends, with the token
    sequence [l], [get_chain_length] returns the length of [l] and
    [get_chain_mass] the sum of the masses along [l] (neither looks at
    the tokens before the one it starts from). *)
Theorem chain_length_and_mass_follow_traversal
    (fuel : nat) (h : Token.heap) (a : tok) (l : list tok) :
  TokenChain.traverse fuel h (Some a) = Some l ->
  Token.get_chain_length fuel h a = Some (Z.of_nat (length l))
  /\ Token.get_chain_mass fuel h a = Some (sum_masses h l).
Proof.
  intros T. destruct fuel as [|fuel]; [discriminate T|]. cbn in T.
  destruct (TokenChain.traverse fuel h (Token.next_token (Token.get h a)))
    as [rest|] eqn:R; [|discriminate T].
  cbn in T. injection T as <-.
  unfold Token.get_chain_length, Token.get_chain_mass. split.
  - rewrite (walk_length_of_traverse _ _ _ _ R) by lia. f_equal. cbn [length]. lia.
  - rewrite (walk_mass_of_traverse _ _ _ _ R) by lia. f_equal.
Qed.

(** The chain [int -> ;]. *)
Lemma chain_length_and_mass_follow_traversal_witness :
  TokenChain.traverse 3 (heap int_semicolon) (Some 0%nat) = Some [0%nat; 1%nat]
  /\ Token.get_chain_length 3 (heap int_semicolon) 0 = Some 2
  /\ Token.get_chain_mass 3 (heap int_semicolon) 0 = Some 4.
Proof.
  split; [reflexivity|].
  apply (chain_length_and_mass_follow_traversal 3 (heap int_semicolon) 0 [0%nat; 1%nat]).
  reflexivity.
Defined.

Lemma last_default_irrelevant {A : Type} (l : list A) (a d d' : A) :
  List.last (a :: l) d = List.last (a :: l) d'.
Proof.
  revert a. induction l as [|b l IH]; intros a; [reflexivity|].
  change (List.last (b :: l) d = List.last (b :: l) d'). apply IH.
Qed.

Lemma find_tail_of_traverse (h : Token.heap) (fuel : nat) :
  forall (c : tok) (l : list tok),
    TokenChain.traverse fuel h (Some c) = Some l ->
    TokenChain.find_tail fuel h c = Some (List.last l c)
    /\ Token.next_token (Token.get h (List.last l c)) = None
    /\ In (List.last l c) l.
Proof.
  induction fuel as [|fuel IH]; intros c l T; [discriminate T|]. cbn in T.
  destruct (Token.next_token (Token.get h c)) as [n|] eqn:N.
  - destruct (TokenChain.traverse fuel h (Some n)) as [rest|] eqn:R; [|discriminate T].
    cbn in T. injection T as <-.
    destruct (IH _ _ R) as (F & E & I).
    destruct (traverse_starts_at _ _ _ _ R) as [rest' ->].
    assert (List.last (c :: n :: rest') c = List.last (n :: rest') n) as ->.
    { change (List.last (n :: rest') c = List.last (n :: rest') n).
      apply last_default_irrelevant. }
    cbn [TokenChain.find_tail]. rewrite N.
    split; [exact F|split; [exact E|right; exact I]].
  - destruct fuel; cbn in T; injection T as <-; cbn; rewrite N;
      (split; [reflexivity|split; [first [exact N|reflexivity]|left; reflexivity]]).
Qed.

(** The traversal after the tail of [l] has been linked to [token]. *)
Lemma traverse_after_link (h h' : Token.heap) (tail token : tok) (fuel : nat) :
  (forall r, r <> tail ->
             Token.next_token (Token.get h' r) = Token.next_token (Token.get h r)) ->
  Token.next_token (Token.get h' tail) = Some token ->
  Token.next_token (Token.get h tail) = None ->
  Token.next_token (Token.get h token) = None ->
  token <> tail ->
  forall (c : tok) (l : list tok),
    TokenChain.traverse fuel h (Some c) = Some l ->
    List.last l c = tail ->
    TokenChain.traverse (S fuel) h' (Some c) = Some (l ++ [token])%list.
Proof.
  intros Same Linked End Free Ne.
  induction fuel as [|fuel IH]; intros c l T L; [discriminate T|].
  cbn in T.
  destruct (Token.next_token (Token.get h c)) as [n|] eqn:N.
  - destruct (TokenChain.traverse fuel h (Some n)) as [rest|] eqn:R; [|discriminate T].
    cbn in T. injection T as <-.
    destruct (traverse_starts_at _ _ _ _ R) as [rest' ->].
    assert (c <> tail) as Nc by (intros ->; rewrite End in N; discriminate N).
    change (TokenChain.traverse (S (S fuel)) h' (Some c))
      with (rest ← TokenChain.traverse (S fuel) h' (Token.next_token (Token.get h' c));
            Some (c :: rest)).
    rewrite (Same _ Nc), N.
    rewrite (IH n (n :: rest') R).
    + reflexivity.
    + rewrite <- L. change (List.last (n :: rest') n = List.last (n :: rest') c).
      apply last_default_irrelevant.
  - assert (l = [c]) as -> by (destruct fuel; cbn in T; injection T as <-; reflexivity).
    cbn in L. subst c.
    change (TokenChain.traverse (S (S fuel)) h' (Some tail))
      with (rest ← TokenChain.traverse (S fuel) h' (Token.next_token (Token.get h' tail));
            Some (tail :: rest)).
    rewrite Linked.
    change (TokenChain.traverse (S fuel) h' (Some token))
      with (rest ← TokenChain.traverse fuel h' (Token.next_token (Token.get h' token));
            Some (token :: rest)).
    rewrite (Same _ Ne), Free. destruct fuel; reflexivity.
Qed.

(** X11: [TokenChain.add_token] keeps the member list and the traversal
    together.  When the traversal from the head ends, with the sequence
    [l], and [token] is an object outside [l] with no successor, the call
    returns 1, appends [token] to the member list, and the traversal from
    the head becomes [l] followed by [token]; [token] then carries the
    chain's id and the old tail as predecessor. *)
Theorem add_token_extends_traversal
    (fuel : nat) (h : Token.heap) (chain : TokenChain.t) (token : tok) (l : list tok) :
  TokenChain.traverse fuel h (Some (TokenChain.head chain)) = Some l ->
  (forall r, In r l -> (r < length h)%nat) ->
  (token < length h)%nat ->
  ~ In token l ->
  Token.next_token (Token.get h token) = None ->
  exists (h' : Token.heap) (chain' : TokenChain.t),
    TokenChain.add_token fuel h chain token = Some (h', chain', 1)
    /\ TokenChain.tokens chain' = (TokenChain.tokens chain ++ [token])%list
    /\ TokenChain.head chain' = TokenChain.head chain
    /\ TokenChain.traverse (S fuel) h' (Some (TokenChain.head chain'))
       = Some (l ++ [token])%list
    /\ Token.chain_id (Token.get h' token) = Some (TokenChain.chain_id chain)
    /\ Token.prev_token (Token.get h' token)
       = Some (List.last l (TokenChain.head chain)).
Proof.
  intros T Alloc At Out Free.
  destruct (find_tail_of_traverse _ _ _ _ T) as (F & End & I).
  set (tail := List.last l (TokenChain.head chain)) in *.
  assert (token <> tail) as Ne by (intros ->; contradiction).
  pose proof (Alloc _ I) as Atail.
  unfold TokenChain.add_token. rewrite F. cbn [mbind option_bind].
  unfold Token.bond_to. eexists. eexists. split; [reflexivity|].
  split; [reflexivity|]. split; [reflexivity|]. split; [|split].
  - cbn [TokenChain.head TokenChain.set_tokens].
    apply (traverse_after_link h _ tail token fuel); try assumption.
    + intros r Nr.
      rewrite (field_upd Token.next_token) by reflexivity.
      rewrite (field_upd Token.next_token) by reflexivity.
      rewrite (field_upd Token.next_token) by reflexivity.
      rewrite get_upd_ne by congruence. reflexivity.
    + rewrite (field_upd Token.next_token) by reflexivity.
      rewrite (field_upd Token.next_token) by reflexivity.
      rewrite (field_upd Token.next_token) by reflexivity.
      rewrite get_upd_eq by exact Atail. reflexivity.
    + reflexivity.
  - rewrite get_upd_eq by (rewrite !length_upd; exact At). reflexivity.
  - rewrite (field_upd Token.prev_token) by reflexivity.
    rewrite (field_upd Token.prev_token) by reflexivity.
    rewrite get_upd_eq by (rewrite !length_upd; exact At). reflexivity.
Qed.

(** Appending the free [y] to the chain [int -> x] of [damaged_link]. *)
Lemma add_token_extends_traversal_witness :
  exists (h' : Token.heap) (chain' : TokenChain.t),
    TokenChain.add_token 3 (heap damaged_link) (chain_at damaged_link 0) 2
    = Some (h', chain', 1)
    /\ TokenChain.tokens chain' = [0; 1; 2]%nat
    /\ TokenChain.traverse 4 h' (Some 0%nat) = Some [0; 1; 2]%nat.
Proof.
  destruct (add_token_extends_traversal 3 (heap damaged_link) (chain_at damaged_link 0)
              2 [0; 1]%nat) as (h' & chain' & A & L & H & T & _).
  - reflexivity.
  - intros r [<-|[<-|[]]]; vm_compute; lia.
  - vm_compute. lia.
  - intros [E|[E|[]]]; discriminate E.
  - reflexivity.
  - exists h', chain'. split; [exact A|]. split; [exact L|]. rewrite H in T. exact T.
Defined.

(** X12: [bond_to] followed by [break_bond].  After [a.bond_to(b, cid)]
    on two distinct tokens, [a.next_token] is [b] and [b.prev_token] is
    [a]; [a.break_bond()] then clears both links and touches nothing
    else: both tokens keep the chain id [cid] (they do not become free
    again), and every other token is as it was before the bond. *)
Theorem bond_then_break (h : Token.heap) (a b : tok) (cid : nat) :
  a <> b -> (a < length h)%nat -> (b < length h)%nat ->
  let h1 := (Token.bond_to h a b cid).1 in
  let h2 := Token.break_bond h1 a in
  (Token.next_token (Token.get h1 a) = Some b
   /\ Token.prev_token (Token.get h1 b) = Some a)
  /\ (Token.next_token (Token.get h2 a) = None
      /\ Token.prev_token (Token.get h2 b) = None)
  /\ (Token.chain_id (Token.get h2 a) = Some cid
      /\ Token.chain_id (Token.get h2 b) = Some cid)
  /\ (Token.prev_token (Token.get h2 a) = Token.prev_token (Token.get h a)
      /\ Token.next_token (Token.get h2 b) = Token.next_token (Token.get h b))
  /\ forall r, r <> a -> r <> b -> Token.get h2 r = Token.get h r.
Proof.
  intros Ne La Lb h1 h2.
  assert (Token.next_token (Token.get h1 a) = Some b) as N1.
  { unfold h1, Token.bond_to. cbn [fst].
    rewrite !(field_upd Token.next_token) by reflexivity.
    rewrite get_upd_eq by exact La. reflexivity. }
  assert (Token.prev_token (Token.get h1 b) = Some a) as P1.
  { unfold h1, Token.bond_to. cbn [fst].
    rewrite !(field_upd Token.prev_token) by reflexivity.
    rewrite get_upd_eq by (rewrite !length_upd; exact Lb). reflexivity. }
  assert (length h1 = length h) as L1 by apply length_bond_to.
  assert (h2 = Token.upd (Token.set_next_token None) a
                 (Token.upd (Token.set_prev_token None) b h1)) as E2.
  { unfold h2, Token.break_bond. rewrite N1. reflexivity. }
  split; [split; assumption|]. rewrite E2. clear h2 E2.
  split; [split|].
  - rewrite get_upd_eq by (rewrite !length_upd, L1; exact La). reflexivity.
  - rewrite get_upd_ne by exact Ne.
    rewrite get_upd_eq by (rewrite L1; exact Lb). reflexivity.
  - split; [split|split; [split|]].
    + rewrite !(field_upd Token.chain_id) by reflexivity.
      unfold h1, Token.bond_to. cbn [fst].
      rewrite get_upd_ne by congruence.
      rewrite get_upd_eq by (rewrite !length_upd; exact La). reflexivity.
    + rewrite !(field_upd Token.chain_id) by reflexivity.
      unfold h1, Token.bond_to. cbn [fst].
      rewrite get_upd_eq by (rewrite !length_upd; exact Lb). reflexivity.
    + rewrite !(field_upd Token.prev_token) by reflexivity.
      rewrite get_upd_ne by congruence.
      unfold h1, Token.bond_to. cbn [fst].
      rewrite !(field_upd Token.prev_token) by reflexivity.
      rewrite get_upd_ne by congruence.
      rewrite (field_upd Token.prev_token) by reflexivity. reflexivity.
    + rewrite get_upd_ne by exact Ne.
      rewrite (field_upd Token.next_token) by reflexivity.
      unfold h1, Token.bond_to. cbn [fst].
      rewrite !(field_upd Token.next_token) by reflexivity.
      rewrite get_upd_ne by exact Ne. reflexivity.
    + intros r Na Nb. rewrite !get_upd_ne by congruence.
      unfold h1, Token.bond_to. cbn [fst]. rewrite !get_upd_ne by congruence.
      reflexivity.
Qed.

(** The tokens [(] and [)] of [paren_pair]. *)
Lemma bond_then_break_witness :
  let h2 := Token.break_bond (Token.bond_to (heap paren_pair) 0 1 7).1 0 in
  Token.next_token (Token.get h2 0) = None
  /\ Token.chain_id (Token.get h2 0) = Some 7%nat.
Proof.
  destruct (bond_then_break (heap paren_pair) 0 1 7) as (_ & [N _] & [C _] & _).
  - discriminate.
  - vm_compute. lia.
  - vm_compute. lia.
  - split; [exact N|exact C].
Defined.

(** ** Statistics *)

Lemma count_if_split (test other : tok -> bool) (l : list tok) :
  (forall t, other t = negb (test t)) ->
  count_if test l + count_if other l = Z.of_nat (length l).
Proof.
  intros C. unfold count_if. induction l as [|a l IH]; [reflexivity|].
  cbn [List.filter]. rewrite (C a). destruct (test a); cbn [negb length]; lia.
Qed.

Lemma count_if_ext (test test' : tok -> bool) (l : list tok) :
  (forall t, test' t = test t) -> count_if test' l = count_if test l.
Proof.
  intros E. unfold count_if. induction l as [|a l IH]; [reflexivity|].
  cbn [List.filter]. rewrite (E a). destruct (test a); cbn [length]; lia.
Qed.

Lemma count_if_and (test1 test2 : tok -> bool) (l : list tok) :
  0 <= count_if (fun t => test1 t && test2 t) l <= count_if test1 l.
Proof.
  unfold count_if. induction l as [|a l IH]; [cbn; lia|].
  cbn [List.filter]. destruct (test1 a), (test2 a); cbn [andb length]; lia.
Qed.

Lemma count_if_zones (zone : tok -> Zone) (test : tok -> bool) (l : list tok) :
  count_if (fun t => Zone_eqb (zone t) zone_low && test t) l
  + count_if (fun t => Zone_eqb (zone t) zone_medium && test t) l
  + count_if (fun t => Zone_eqb (zone t) zone_high && test t) l
  + count_if (fun t => Zone_eqb (zone t) zone_very_high && test t) l
  = count_if test l.
Proof.
  unfold count_if. induction l as [|a l IH]; [reflexivity|].
  cbn [List.filter]. destruct (zone a), (test a); cbn [Zone_eqb andb length]; lia.
Qed.

Lemma count_if_true (l : list tok) : count_if (fun _ => true) l = Z.of_nat (length l).
Proof.
  unfold count_if. induction l as [|a l IH]; [reflexivity|].
  cbn [List.filter length]. lia.
Qed.

Lemma energy_sum_Permutation (f : tok -> Z) (l l' : list tok) :
  l ≡ₚ l' -> foldr Z.add 0 (map f l) = foldr Z.add 0 (map f l').
Proof.
  induction 1 as [|a l l' _ IH|a b l|l1 l2 l3 _ IH1 _ IH2]; cbn; lia.
Qed.

(** X13: in the physics statistics, when iterating the set of live tokens
    yields each of them once, every live token is counted as rising or
    as sinking and never as both: the two counts add up to
    [total_tokens]; the total energy is the sum over the set, whatever
    the order. *)
Theorem physics_statistics_partition `{PyRandom} (s : State) :
  set_order (clock s) (all_tokens s) ≡ₚ elements (all_tokens s) ->
  let stats := physics_get_statistics s in
  rising_tokens stats + sinking_tokens stats = total_tokens stats
  /\ total_tokens stats = get_total_tokens s
  /\ 0 <= rising_tokens stats /\ 0 <= sinking_tokens stats
  /\ stat_total_energy stats = total_energy s.
Proof.
  intros P. cbn.
  rewrite (count_if_split (fun t => 0 <? Token.energy (deref s t))
             (fun t => Token.energy (deref s t) <=? 0)).
  - rewrite (Permutation_length P). unfold get_total_tokens.
    split; [reflexivity|]. split; [reflexivity|].
    unfold count_if. split; [lia|]. split; [lia|].
    unfold total_energy. apply energy_sum_Permutation. exact P.
  - intros t. destruct (Z.ltb_spec 0 (Token.energy (deref s t))),
      (Z.leb_spec (Token.energy (deref s t)) 0); cbn; (reflexivity || lia).
Qed.

(** The statistics of [crossing]: one rising token, one sinking. *)
Lemma physics_statistics_partition_witness :
  rising_tokens (@physics_get_statistics zero_draws crossing)
  + sinking_tokens (@physics_get_statistics zero_draws crossing)
  = total_tokens (@physics_get_statistics zero_draws crossing).
Proof.
  apply (@physics_statistics_partition zero_draws crossing). reflexivity.
Defined.

(** X14: in the damage statistics the four altitude zones partition the
    live tokens: the damaged counts of the zones add up to
    [damaged_tokens], no zone has more damaged tokens than tokens, and,
    when iterating the set yields each live token once, the zone counts
    add up to the number of live tokens.  A token whose altitude is not a
    number is counted in the highest zone. *)
Theorem damage_statistics_partition `{PyRandom} (s : State) :
  set_order (clock s) (all_tokens s) ≡ₚ elements (all_tokens s) ->
  let stats := damage_get_statistics s in
  damage_by_zone stats zone_low + damage_by_zone stats zone_medium
  + damage_by_zone stats zone_high + damage_by_zone stats zone_very_high
  = damaged_tokens stats
  /\ tokens_by_zone stats zone_low + tokens_by_zone stats zone_medium
     + tokens_by_zone stats zone_high + tokens_by_zone stats zone_very_high
     = get_total_tokens s
  /\ (forall zone, 0 <= damage_by_zone stats zone <= tokens_by_zone stats zone)
  /\ zone_of nan = zone_very_high.
Proof.
  intros P. cbn. split; [|split; [|split]].
  - apply (count_if_zones (fun t => zone_of (Token.z (deref s t)))
             (fun t => Token.damaged (deref s t))).
  - pose proof (count_if_zones (fun t => zone_of (Token.z (deref s t)))
                  (fun _ => true) (set_order (clock s) (all_tokens s))) as Zones.
    rewrite !(count_if_ext (fun t => Zone_eqb (zone_of (Token.z (deref s t))) _)
                (fun t => Zone_eqb (zone_of (Token.z (deref s t))) _ && true)) in Zones
      by (intros t; apply andb_true_r).
    rewrite Zones, count_if_true. unfold get_total_tokens.
    rewrite (Permutation_length P). reflexivity.
  - intros zone. apply count_if_and.
  - reflexivity.
Qed.

(** The damage statistics of [damaged_link]. *)
Lemma damage_statistics_partition_witness :
  tokens_by_zone (@damage_get_statistics zero_draws damaged_link) zone_low
  + tokens_by_zone (@damage_get_statistics zero_draws damaged_link) zone_medium
  + tokens_by_zone (@damage_get_statistics zero_draws damaged_link) zone_high
  + tokens_by_zone (@damage_get_statistics zero_draws damaged_link) zone_very_high
  = 3.
Proof.
  apply (@damage_statistics_partition zero_draws damaged_link). reflexivity.
Defined.

(** ** Frames: what each pass leaves alone *)

Lemma foldM_rel {A : Type} (R : State -> State -> Prop)
    (body : State -> A -> option State) :
  (forall s, R s s) ->
  (forall s1 s2 s3, R s1 s2 -> R s2 s3 -> R s1 s3) ->
  (forall s a s', body s a = Some s' -> R s s') ->
  forall l s s', foldM body s l = Some s' -> R s s'.
Proof.
  intros Refl Trans Step.
  induction l as [|a l IH]; intros s s' F; cbn in F.
  - injection F as <-. apply Refl.
  - destruct (body s a) as [s1|] eqn:B; [|discriminate F].
    eapply Trans; [eapply Step, B|apply IH, F].
Qed.

Lemma foldl_rel {A : Type} (R : State -> State -> Prop) (f : State -> A -> State) :
  (forall s, R s s) ->
  (forall s1 s2 s3, R s1 s2 -> R s2 s3 -> R s1 s3) ->
  (forall s a, R s (f s a)) ->
  forall l s, R s (foldl f s l).
Proof.
  intros Refl Trans Step.
  induction l as [|a l IH]; intros s; cbn; [apply Refl|].
  eapply Trans; [apply Step|apply IH].
Qed.

Lemma chain_at_flagged_valid (s : State) (i : nat) :
  chains_flagged_valid s -> TokenChain.is_valid (chain_at s i) = true.
Proof.
  intros V. unfold chain_at. destruct (chains s !! i) as [c|] eqn:L; [|reflexivity].
  cbn. unfold chains_flagged_valid in V. rewrite Forall_lookup in V. eapply V, L.
Qed.

Lemma set_chain_flagged_valid (s : State) (i : nat) (c : TokenChain.t) :
  TokenChain.is_valid c = true ->
  chains_flagged_valid s -> chains_flagged_valid (set_chain i c s).
Proof.
  intros Vc V. unfold chains_flagged_valid, set_chain. cbn.
  apply Forall_insert; assumption.
Qed.

Section Frames.
Context {Fld Msr Obs : Type} (field : Token.t -> Fld) (measure : Token.heap -> Msr)
        (obs : State -> Obs).
Hypothesis field_energy : forall e a, field (Token.set_energy e a) = field a.
Hypothesis field_pos : forall px py pz a, field (Token.set_pos px py pz a) = field a.
Hypothesis field_vel : forall wx wy wz a, field (Token.set_vel wx wy wz a) = field a.
Hypothesis field_type : forall ty a, field (Token.set_type ty a) = field a.
Hypothesis field_damaged : forall d a, field (Token.set_damaged d a) = field a.
Hypothesis field_chain_id : forall c a, field (Token.set_chain_id c a) = field a.
Hypothesis field_next_token : forall n a, field (Token.set_next_token n a) = field a.
Hypothesis field_prev_token : forall p a, field (Token.set_prev_token p a) = field a.
Hypothesis measure_upd : forall f r h, measure (Token.upd f r h) = measure h.
Hypothesis measure_alloc : forall a h, measure (Token.alloc a h).1 = measure h.
Hypothesis obs_heap : forall h s, obs (with_heap h s) = obs s.
Hypothesis obs_cells : forall c s, obs (with_cells c s) = obs s.
Hypothesis obs_all_tokens : forall a s, obs (with_all_tokens a s) = obs s.
Hypothesis obs_chains : forall c s, obs (with_chains c s) = obs s.
Hypothesis obs_next_chain_id : forall n s, obs (with_next_chain_id n s) = obs s.
Hypothesis obs_clock : forall k s, obs (with_clock k s) = obs s.
Hypothesis obs_tick : forall k s, obs (with_tick k s) = obs s.
Hypothesis obs_vent : forall c n s, obs (with_vent c n s) = obs s.

Ltac same_obs :=
  cbv [upd_token set_cell cell_add_token cell_remove_token set_chain];
  cbn [fst snd];
  repeat first [ rewrite obs_heap | rewrite obs_cells | rewrite obs_all_tokens
               | rewrite obs_chains | rewrite obs_next_chain_id | rewrite obs_clock
               | rewrite obs_tick | rewrite obs_vent ];
  reflexivity.

Lemma keeps_refl (h : Token.heap) : keeps field measure h h.
Proof. split; [lia|]. split; reflexivity. Qed.

Lemma keeps_trans (h1 h2 h3 : Token.heap) :
  keeps field measure h1 h2 -> keeps field measure h2 h3 -> keeps field measure h1 h3.
Proof.
  intros (L1 & E1 & M1) (L2 & E2 & M2). split; [lia|]. split; [|congruence].
  intros r Lr. rewrite E2 by lia. apply E1, Lr.
Qed.

Lemma keeps_upd (f : Token.t -> Token.t) (r : tok) (h : Token.heap) :
  (forall a, field (f a) = field a) -> keeps field measure h (Token.upd f r h).
Proof.
  intros E. split; [rewrite length_upd; lia|]. split; [|apply measure_upd].
  intros t _. apply (field_upd field). exact E.
Qed.

Lemma keeps_overwrite (a : Token.t) (r : tok) (h : Token.heap) :
  field a = field (Token.get h r) -> keeps field measure h (Token.upd (fun _ => a) r h).
Proof.
  intros E. split; [rewrite length_upd; lia|]. split; [|apply measure_upd].
  intros t Lt. destruct (decide (r = t)) as [->|N].
  - rewrite get_upd_eq by exact Lt. exact E.
  - rewrite get_upd_ne by exact N. reflexivity.
Qed.

Lemma keeps_alloc (a : Token.t) (h : Token.heap) : keeps field measure h (Token.alloc a h).1.
Proof.
  split; [cbn; rewrite length_app; lia|]. split; [|apply measure_alloc].
  intros r Lr. f_equal. apply get_alloc_old, Lr.
Qed.

Lemma keeps_update_position (h : Token.heap) (self : tok) :
  keeps field measure h (Token.update_position h self).
Proof.
  unfold Token.update_position. apply keeps_overwrite.
  destruct (0 <? Token.energy (Token.get h self));
    rewrite field_vel, field_pos, ?field_energy, field_pos; reflexivity.
Qed.

Lemma keeps_bond_to (h : Token.heap) (a b : tok) (cid : nat) :
  keeps field measure h (Token.bond_to h a b cid).1.
Proof.
  unfold Token.bond_to. cbn [fst].
  repeat (eapply keeps_trans; [|apply keeps_upd; intros; auto]).
  apply keeps_refl.
Qed.

Lemma keeps_break_bond (h : Token.heap) (self : tok) :
  keeps field measure h (Token.break_bond h self).
Proof.
  unfold Token.break_bond. destruct (Token.next_token (Token.get h self)).
  - repeat (eapply keeps_trans; [|apply keeps_upd; intros; auto]). apply keeps_refl.
  - apply keeps_refl.
Qed.

Lemma keeps_apply_damage `{PyRandom} (h : Token.heap) (self : tok) (p : float) (k : nat) :
  keeps field measure h (Token.apply_damage h self p k).1.
Proof.
  unfold Token.apply_damage.
  destruct (PrimFloat.ltb (rand_float k) p); [|apply keeps_refl].
  destruct (PrimFloat.ltb (rand_float (S k)) 0.3); cbn [fst];
    repeat (eapply keeps_trans; [|apply keeps_upd; intros; auto]); apply keeps_refl.
Qed.

Lemma keeps_chain_init (h : Token.heap) (n : nat) (t : tok) :
  keeps field measure h (TokenChain.init h n t).1.1.
Proof. cbn. apply keeps_upd. auto. Qed.

Lemma keeps_chain_add_token (fuel : nat) (h h' : Token.heap)
    (c c' : TokenChain.t) (t : tok) (e : Z) :
  TokenChain.add_token fuel h c t = Some (h', c', e) ->
  keeps field measure h h' /\ TokenChain.is_valid c' = TokenChain.is_valid c.
Proof.
  unfold TokenChain.add_token. destruct (TokenChain.find_tail fuel h _) as [tail|];
    [|discriminate 1].
  cbn. intros [= <- <- _]. split; [|reflexivity].
  apply (keeps_bond_to h tail t (TokenChain.chain_id c)).
Qed.

Lemma keeps_chain_remove_token (h : Token.heap) (c : TokenChain.t) (t : tok) :
  keeps field measure h (TokenChain.remove_token h c t).1
  /\ TokenChain.is_valid (TokenChain.remove_token h c t).2 = TokenChain.is_valid c.
Proof.
  unfold TokenChain.remove_token. destruct (list_mem t (TokenChain.tokens c));
    [|split; [apply keeps_refl|reflexivity]].
  cbn [fst snd]. split; [|reflexivity].
  eapply keeps_trans; [|apply keeps_upd; intros; auto].
  match goal with
  | |- keeps _ _ h (match ?x with Some n => _ | None => ?h1 end) =>
      assert (keeps field measure h h1) as K1
  end.
  { destruct (Token.prev_token (Token.get h t)); [apply keeps_break_bond|apply keeps_refl]. }
  destruct (Token.next_token _); [|exact K1].
  eapply keeps_trans; [exact K1|]. apply keeps_upd. auto.
Qed.

Lemma keeps_distribute_energy (h : Token.heap) (c : TokenChain.t) (e : Z) :
  keeps field measure h (_distribute_energy h c e).
Proof.
  unfold _distribute_energy.
  generalize (take (Z.to_nat e)
                (sorted_by (fun r => Token.energy (Token.get h r)) (TokenChain.tokens c))).
  intros l. revert h. induction l as [|a l IH]; intros h; cbn [foldl].
  - apply keeps_refl.
  - eapply keeps_trans; [|apply IH]. apply keeps_upd. auto.
Qed.

(** *** States *)

Lemma frame_refl (s : State) : frame field measure obs s s.
Proof. split; [apply keeps_refl|]. split; [reflexivity|auto]. Qed.

Lemma frame_trans (s1 s2 s3 : State) :
  frame field measure obs s1 s2 -> frame field measure obs s2 s3 -> frame field measure obs s1 s3.
Proof.
  intros (K1 & O1 & V1) (K2 & O2 & V2).
  split; [eapply keeps_trans; eassumption|].
  split; [congruence|]. auto.
Qed.

(** A state that differs in the heap, the cells, the set of live tokens
    and the clock. *)
Lemma frame_of_heap (s s' : State) :
  keeps field measure (heap s) (heap s') ->
  obs s' = obs s -> chains s' = chains s ->
  frame field measure obs s s'.
Proof.
  intros K O E. split; [exact K|]. split; [exact O|].
  unfold chains_flagged_valid. rewrite E. auto.
Qed.

Lemma frame_with_heap (s : State) (h : Token.heap) :
  keeps field measure (heap s) h -> frame field measure obs s (with_heap h s).
Proof. intros K. apply frame_of_heap; [exact K|same_obs|reflexivity]. Qed.

Lemma frame_upd_token (f : Token.t -> Token.t) (r : tok) (s : State) :
  (forall a, field (f a) = field a) -> frame field measure obs s (upd_token f r s).
Proof. intros E. apply frame_with_heap, keeps_upd, E. Qed.

Lemma frame_grid (s s' : State) :
  heap s' = heap s -> obs s' = obs s -> chains s' = chains s -> frame field measure obs s s'.
Proof. intros E. apply frame_of_heap. rewrite E. apply keeps_refl. Qed.

Lemma frame_cell_add_token (c : cell_ref) (t : tok) (s : State) :
  frame field measure obs s (cell_add_token c t s).
Proof. (apply frame_grid; [reflexivity|same_obs|reflexivity]). Qed.

Lemma frame_cell_remove_token (c : cell_ref) (t : tok) (s : State) :
  frame field measure obs s (cell_remove_token c t s).
Proof. (apply frame_grid; [reflexivity|same_obs|reflexivity]). Qed.

Lemma frame_evict (s : State) (token : tok) (old_cell : option cell_ref) :
  let s1 := match old_cell with
            | Some oc => cell_remove_token oc token s
            | None => s
            end in
  frame field measure obs s (with_all_tokens (all_tokens s1 ∖ {[token]}) s1).
Proof. destruct old_cell; (apply frame_grid; [reflexivity|same_obs|reflexivity]). Qed.

Lemma frame_move_token (fuel : nat) :
  forall (s : State) (token : tok) (nx ny nz : float) (b : bool) (s' : State),
    move_token fuel s token nx ny nz = Some (b, s') -> frame field measure obs s s'.
Proof.
  induction fuel as [|fuel IH]; intros s token nx ny nz b s' M; [discriminate M|].
  cbn [move_token] in M.
  destruct (get_cell_from_float s nx ny nz) as [new_cell|].
  2:{ injection M as _ <-. apply frame_evict. }
  match type of M with
  | mbind _ ?target = _ => destruct target as [[[nc [[x' y'] z']]|]|]
  end; cbn [mbind option_bind] in M; [| |discriminate M].
  2:{ injection M as _ <-. apply frame_refl. }
  destruct (Cell.can_accept (heap s) (cells s nc) token).
  - injection M as _ <-.
    eapply frame_trans; [|apply frame_upd_token; intros; apply field_pos].
    eapply frame_trans; [|apply frame_cell_add_token].
    destruct (get_cell_from_float s _ _ _) as [oc|]; [|apply frame_refl].
    destruct (negb (cell_ref_eqb oc nc)); [apply frame_cell_remove_token|apply frame_refl].
  - unfold _handle_spillover in M.
    destruct (cell_pos nc) as [[fx fy] fz].
    destruct (_find_adjacent_cell s fx fy fz nc) as [adj|].
    + destruct (cell_pos adj) as [[ax ay] az]. eapply IH; eassumption.
    + injection M as _ <-. apply frame_refl.
Qed.

Lemma frame_add_token_to_grid (s : State) (token : tok) :
  frame field measure obs s (add_token_to_grid s token).1.
Proof.
  unfold add_token_to_grid.
  destruct (get_cell_from_float s _ _ _) as [cell|]; [|apply frame_refl].
  destruct (Cell.add_token (heap s) (cells s cell) token).2; [|apply frame_refl].
  (apply frame_grid; [reflexivity|same_obs|reflexivity]).
Qed.

Lemma frame_remove_token_from_grid (s : State) (token : tok) :
  frame field measure obs s (remove_token_from_grid s token).
Proof. unfold remove_token_from_grid. apply (frame_evict s token). Qed.

Section PhysicsFrames.
Context `{PyRandom}.

Lemma frame_push_token_aside (fuel : nat) (s : State) (token : tok)
    (current_cell : cell_ref) (s' : State) :
  _push_token_aside fuel s token current_cell = Some s' -> frame field measure obs s s'.
Proof.
  intros P. unfold _push_token_aside in P.
  destruct current_cell as [[cx cy] cz].
  destruct (List.filter _ _) as [|first rest].
  - injection P as <-. apply frame_refl.
  - destruct (cell_pos _) as [[fx fy] fz].
    destruct (move_token _ _ _ _ _ _) as [[b s1]|] eqn:M; [|discriminate P].
    injection P as <-.
    eapply frame_trans; [|eapply frame_move_token, M].
    (apply frame_grid; [reflexivity|same_obs|reflexivity]).
Qed.

Lemma frame_handle_collisions (fuel : nat) (s : State) (rising_token : tok)
    (old_z : float) (s' : State) :
  _handle_collisions fuel s rising_token old_z = Some s' -> frame field measure obs s s'.
Proof.
  intros C. unfold _handle_collisions in C.
  destruct (Token.energy (deref s rising_token) <=? 0);
    [injection C as <-; apply frame_refl|].
  destruct (PrimFloat.leb _ old_z); [injection C as <-; apply frame_refl|].
  destruct (get_cell_from_float s _ _ _) as [cell|];
    [|injection C as <-; apply frame_refl].
  revert C. apply (foldM_rel (frame field measure obs)); [apply frame_refl|apply frame_trans|].
  intros s1 a s2 B.
  destruct (Nat.eqb a rising_token); [injection B as <-; apply frame_refl|].
  destruct (_ && _); [|injection B as <-; apply frame_refl].
  eapply frame_trans; [|eapply frame_push_token_aside, B].
  apply frame_upd_token. intros. apply field_energy.
Qed.

Lemma frame_apply_gravity_pull (s : State) (token : tok) :
  frame field measure obs s (_apply_gravity_pull s token).
Proof.
  unfold _apply_gravity_pull.
  destruct (0 <? Token.energy (deref s token)); [apply frame_refl|].
  destruct (get_cell_from_float s _ _ _) as [[[cx cy] cz]|]; [|apply frame_refl].
  destruct (foldl _ _ offsets3) as [[[[lx ly] lz]|] lowest_z]; [|apply frame_refl].
  destruct (PrimFloat.ltb 0 _); [|apply frame_refl].
  apply frame_upd_token. intros. apply field_vel.
Qed.

Lemma frame_before_move (fuel : nat) (s : State) (token : tok) (s3 : State)
    (p : float * float * float) :
  before_move fuel s token = Some (s3, p) -> frame field measure obs s s3.
Proof.
  intros B. unfold before_move in B.
  destruct (_handle_collisions fuel _ token _) as [s2|] eqn:C; [|discriminate B].
  injection B as <- _.
  eapply frame_trans; [|apply frame_apply_gravity_pull].
  eapply frame_trans; [|eapply frame_handle_collisions, C].
  apply frame_with_heap, keeps_update_position.
Qed.

Lemma frame_update_token (fuel : nat) (s : State) (token : tok) (s' : State) :
  update_token fuel s token = Some s' -> frame field measure obs s s'.
Proof.
  intros U. unfold update_token in U.
  destruct (negb _); [injection U as <-; apply frame_refl|].
  destruct (before_move fuel s token) as [[s3 [[nx ny] nz]]|] eqn:B; [|discriminate U].
  eapply frame_trans; [eapply frame_before_move, B|].
  destruct (PrimFloat.ltb nz 0).
  - injection U as <-. apply frame_remove_token_from_grid.
  - destruct (move_token fuel s3 token nx ny nz) as [[success s4]|] eqn:M;
      [|discriminate U].
    apply frame_move_token in M.
    destruct success; injection U as <-; [exact M|].
    eapply frame_trans; [exact M|]. apply frame_upd_token. intros. apply field_pos.
Qed.

Lemma frame_update_all_tokens (fuel : nat) (s s' : State) :
  update_all_tokens fuel s = Some s' -> frame field measure obs s s'.
Proof.
  intros U. unfold update_all_tokens in U.
  apply (frame_trans s (with_clock (S (clock s)) s)); [(apply frame_grid; [reflexivity|same_obs|reflexivity])|].
  revert U. apply (foldM_rel (frame field measure obs));
    [apply frame_refl|apply frame_trans|apply frame_update_token].
Qed.

Lemma frame_redistribute_tokens (fuel : nat) :
  forall (s : State) (cell : cell_ref) (s' : State),
    _redistribute_tokens fuel s cell = Some s' -> frame field measure obs s s'.
Proof.
  induction fuel as [|fuel IH]; intros s cell s' R; [discriminate R|].
  cbn [_redistribute_tokens] in R.
  destruct (Cell.tokens (cells s cell)) as [|first rest];
    [injection R as <-; apply frame_refl|].
  destruct (Cell.MAX_CAPACITY <? _); [|injection R as <-; apply frame_refl].
  destruct (cell_pos cell) as [[fx fy] fz].
  destruct (_find_adjacent_cell s fx fy fz cell) as [adjacent|].
  - destruct (cell_pos adjacent) as [[ax ay] az].
    destruct (move_token fuel s _ ax ay az) as [[b s1]|] eqn:M; [|discriminate R].
    eapply frame_trans; [eapply frame_move_token, M|]. eapply IH, R.
  - injection R as <-. apply frame_remove_token_from_grid.
Qed.

Lemma frame_handle_spillover (fuel : nat) (s s' : State) :
  handle_spillover fuel s = Some s' -> frame field measure obs s s'.
Proof.
  unfold handle_spillover. apply (foldM_rel (frame field measure obs)); [apply frame_refl|apply frame_trans|].
  intros s1 c s2 B.
  destruct (Cell.MAX_CAPACITY <? _); [eapply frame_redistribute_tokens, B|].
  injection B as <-. apply frame_refl.
Qed.

End PhysicsFrames.

(** *** Biochemistry *)

Lemma frame_set_chain (i : nat) (c : TokenChain.t) (s : State) :
  (chains_flagged_valid s -> TokenChain.is_valid c = true) ->
  frame field measure obs s (set_chain i c s).
Proof.
  intros Vc. split; [apply keeps_refl|]. split; [same_obs|].
  intros V. apply set_chain_flagged_valid; auto.
Qed.

Lemma frame_create_or_extend_chain (fuel : nat) (s : State)
    (token1 token2 : tok) (s' : State) :
  _create_or_extend_chain fuel s token1 token2 = Some s' -> frame field measure obs s s'.
Proof.
  unfold _create_or_extend_chain. cbn [TokenChain.init].
  destruct (TokenChain.add_token fuel _ _ token2) as [[[h2 chain1] energy]|] eqn:A;
    [|discriminate 1].
  intros [= <-]. apply keeps_chain_add_token in A as [K V].
  split; [|split; [same_obs|]].
  - cbn. eapply keeps_trans; [|apply keeps_distribute_energy].
    eapply keeps_trans; [|exact K]. apply keeps_upd. auto.
  - unfold chains_flagged_valid. cbn. intros F. apply Forall_app. split; [exact F|].
    constructor; [|constructor]. rewrite V. reflexivity.
Qed.

Lemma frame_first_bond (fuel : nat) (token1 : tok) (l : list tok) :
  forall s s', first_bond fuel s token1 l = Some s' -> frame field measure obs s s'.
Proof.
  induction l as [|token2 l IH]; intros s s' B; cbn in B.
  - injection B as <-. apply frame_refl.
  - destruct (Token.can_bond_with _ _) as [can_bond strength].
    destruct (can_bond && (50 <? strength)).
    + eapply frame_create_or_extend_chain, B.
    + apply IH, B.
Qed.

Lemma frame_bond_pairs (fuel : nat) (l : list tok) :
  forall s s', bond_pairs fuel s l = Some s' -> frame field measure obs s s'.
Proof.
  induction l as [|token1 l IH]; intros s s' B; cbn in B.
  - injection B as <-. apply frame_refl.
  - destruct (first_bond fuel s token1 l) as [s1|] eqn:F; [|discriminate B].
    eapply frame_trans; [eapply frame_first_bond, F|apply IH, B].
Qed.

Lemma frame_extend_chain (fuel : nat) (i : nat) (l : list tok) :
  forall s s', extend_chain fuel s i l = Some s' -> frame field measure obs s s'.
Proof.
  induction l as [|token l IH]; intros s s' E; cbn in E.
  - injection E as <-. apply frame_refl.
  - destruct (Token.chain_id (deref s token)); [apply IH, E|].
    destruct (TokenChain.find_tail fuel (heap s) _) as [tail|]; [|discriminate E].
    destruct (Token.can_bond_with _ _) as [can_bond strength].
    destruct (can_bond && (50 <? strength)); [|apply IH, E].
    destruct (TokenChain.add_token fuel (heap s) (chain_at s i) token)
      as [[[h1 chain1] energy]|] eqn:A; [|discriminate E].
    injection E as <-. apply keeps_chain_add_token in A as [K V].
    eapply frame_trans; [apply (frame_set_chain i chain1 s)|].
    + intros F. rewrite V. apply chain_at_flagged_valid, F.
    + (apply frame_of_heap; [|same_obs|reflexivity]). cbn.
      eapply keeps_trans; [exact K|apply keeps_distribute_energy].
Qed.

Lemma frame_combine_tokens_in_cell (fuel : nat) (s : State) (cell : cell_ref)
    (s' : State) :
  _combine_tokens_in_cell fuel s cell = Some s' -> frame field measure obs s s'.
Proof.
  unfold _combine_tokens_in_cell.
  destruct (List.filter _ _) as [|t0 free]; [intros [= <-]; apply frame_refl|].
  destruct (bond_pairs fuel s (t0 :: free)) as [s1|] eqn:B; [|discriminate 1].
  intros F. eapply frame_trans; [eapply frame_bond_pairs, B|].
  revert F. apply (foldM_rel (frame field measure obs)); [apply frame_refl|apply frame_trans|].
  intros s2 i s3. apply frame_extend_chain.
Qed.

Lemma frame_attempt_token_combinations (fuel : nat) (s s' : State) :
  _attempt_token_combinations fuel s = Some s' -> frame field measure obs s s'.
Proof.
  unfold _attempt_token_combinations.
  apply (foldM_rel (frame field measure obs)); [apply frame_refl|apply frame_trans|].
  intros s1 c s2 B. destruct (_ <? _)%nat; [injection B as <-; apply frame_refl|].
  eapply frame_combine_tokens_in_cell, B.
Qed.

Lemma frame_fix_one (i : nat) (s : State) (e : tok * tok) :
  frame field measure obs s (fix_one i s e).
Proof.
  unfold fix_one. destruct e as [token1 token2].
  eapply frame_trans; [apply frame_with_heap, keeps_break_bond|].
  destruct (get_cell_from_float _ _ _ _) as [cell|]; [|apply frame_refl].
  destruct (reconnect_candidate _ cell token1 token2) as [other_token|].
  - apply frame_with_heap. apply keeps_bond_to.
  - match goal with
    | |- context [TokenChain.remove_token ?h ?c ?t] =>
        pose proof (keeps_chain_remove_token h c t) as [K V];
        destruct (TokenChain.remove_token h c t) as [h2 chain1]
    end.
    cbn [fst snd] in K, V.
    eapply frame_trans; [apply frame_with_heap, K|].
    apply frame_set_chain. intros F. rewrite V.
    apply (chain_at_flagged_valid (with_heap (Token.break_bond (heap s) token1) s)), F.
Qed.

Lemma frame_validate_chains (fuel : nat) (s : State) (tick : Z) (s' : State) :
  _validate_chains fuel s tick = Some s' -> frame field measure obs s s'.
Proof.
  unfold _validate_chains.
  apply (foldM_rel (frame field measure obs)); [apply frame_refl|apply frame_trans|].
  intros s1 i s2 B.
  destruct (_ <? 10); [injection B as <-; apply frame_refl|].
  assert (frame field measure obs s1
            (set_chain i (TokenChain.set_last_validated_tick tick (chain_at s1 i)) s1))
    as F1 by (apply frame_set_chain; intros F; apply (chain_at_flagged_valid s1 i F)).
  destruct (_validate_grammar fuel _ _) as [[is_valid errors]|]; [|discriminate B].
  destruct (negb is_valid); injection B as <-; [|exact F1].
  eapply frame_trans; [exact F1|].
  unfold _fix_grammar_errors.
  apply (foldl_rel (frame field measure obs)); [apply frame_refl|apply frame_trans|].
  intros s3 e. apply frame_fix_one.
Qed.

Lemma frame_update_all_chains (fuel : nat) (s : State) (tick : Z) (s' : State) :
  update_all_chains fuel s tick = Some s' -> frame field measure obs s s'.
Proof.
  unfold update_all_chains.
  destruct (_attempt_token_combinations fuel s) as [s1|] eqn:A; [|discriminate 1].
  destruct (_validate_chains fuel s1 tick) as [s2|] eqn:V; [|discriminate 1].
  intros [= <-].
  eapply frame_trans; [eapply frame_attempt_token_combinations, A|].
  eapply frame_trans; [eapply frame_validate_chains, V|].
  split; [apply keeps_refl|]. split; [same_obs|].
  unfold chains_flagged_valid. cbn. intros F.
  apply Forall_forall. intros c I. apply list_elem_of_In, filter_In in I as [I _].
  rewrite Forall_forall in F. apply F, list_elem_of_In, I.
Qed.

(** *** The engine's default values, damage and repair *)

Section EngineFrames.
Context `{PyStr} `{PyRandom}.

Lemma frame_insert_walk (fuel : nat) :
  forall (s : State) (current : tok) (s' : State),
    insert_walk fuel s current = Some s' -> frame field measure obs s s'.
Proof.
  induction fuel as [|fuel IH]; intros s current s' W; cbn [insert_walk] in W.
  - destruct (Token.next_token _); [discriminate W|].
    injection W as <-. apply frame_refl.
  - destruct (Token.next_token (deref s current)) as [next_token|];
      [|injection W as <-; apply frame_refl].
    eapply frame_trans; [|eapply IH, W].
    destruct (_ && _); [|apply frame_refl].
    unfold _generate_default_value.
    destruct (negb _); [|(apply frame_grid; [reflexivity|same_obs|reflexivity])].
    cbn [Token.alloc].
    eapply frame_trans; [|apply frame_add_token_to_grid].
    (apply frame_of_heap; [|same_obs|reflexivity]). cbn [heap with_heap with_clock].
    apply (keeps_alloc _ (heap s)).
Qed.

Lemma frame_insert_default_values (fuel : nat) (s s' : State) :
  insert_default_values fuel s = Some s' -> frame field measure obs s s'.
Proof.
  unfold insert_default_values.
  apply (foldM_rel (frame field measure obs)); [apply frame_refl|apply frame_trans|].
  intros s1 i s2. apply frame_insert_walk.
Qed.

Lemma frame_handle_damaged_token (s : State) (token : tok) :
  frame field measure obs s (_handle_damaged_token s token).
Proof.
  unfold _handle_damaged_token.
  destruct (Token.chain_id (deref s token)); [|apply frame_refl].
  destruct (PrimFloat.ltb _ 0.7); [|(apply frame_grid; [reflexivity|same_obs|reflexivity])].
  eapply frame_trans; [|apply frame_upd_token; intros; apply field_chain_id].
  apply (frame_trans _ (with_clock (S (clock s)) s)); [(apply frame_grid; [reflexivity|same_obs|reflexivity])|].
  match goal with
  | |- frame _ _ _ ?s0 (match _ with Some _ => _ | None => ?s1 end) =>
      assert (frame field measure obs s0 s1) as F1
  end.
  { destruct (Token.prev_token _); [|apply frame_refl].
    apply frame_with_heap, keeps_break_bond. }
  destruct (Token.next_token _); [|exact F1].
  eapply frame_trans; [exact F1|]. apply frame_with_heap, keeps_break_bond.
Qed.

Lemma frame_apply_damage_to_all_tokens (s : State) :
  frame field measure obs s (apply_damage_to_all_tokens s).
Proof.
  unfold apply_damage_to_all_tokens.
  apply (frame_trans _ (with_clock (S (clock s)) s)); [(apply frame_grid; [reflexivity|same_obs|reflexivity])|].
  apply (foldl_rel (frame field measure obs)); [apply frame_refl|apply frame_trans|].
  intros s1 token. destruct (negb _); [apply frame_refl|].
  destruct (PrimFloat.ltb 0 _); [|apply frame_refl].
  pose proof (keeps_apply_damage (heap s1) token
                (calculate_damage_probability s1 (Token.z (deref s1 token))) (clock s1))
    as K.
  destruct (Token.apply_damage _ _ _ _) as [h k]. cbn [fst] in K.
  assert (frame field measure obs s1 (with_clock k (with_heap h s1))) as F1
    by (apply frame_of_heap; [exact K|same_obs|reflexivity]).
  destruct (Token.damaged _); [|exact F1].
  eapply frame_trans; [exact F1|apply frame_handle_damaged_token].
Qed.

Lemma frame_repair_damaged_tokens (s : State) :
  frame field measure obs s (repair_damaged_tokens s).
Proof.
  unfold repair_damaged_tokens.
  apply (frame_trans _ (with_clock (S (clock s)) s)); [(apply frame_grid; [reflexivity|same_obs|reflexivity])|].
  apply (foldl_rel (frame field measure obs)); [apply frame_refl|apply frame_trans|].
  intros s1 token. destruct (negb _); [apply frame_refl|].
  destruct (PrimFloat.ltb _ _); [|(apply frame_grid; [reflexivity|same_obs|reflexivity])].
  apply (frame_trans _ (with_clock (S (clock s1)) s1)); [(apply frame_grid; [reflexivity|same_obs|reflexivity])|].
  apply frame_upd_token. intros a. rewrite field_type, field_damaged. reflexivity.
Qed.


(** *** The tick *)

Lemma frame_after_spawn (s : State) : frame field measure obs s (after_spawn s).
Proof.
  unfold after_spawn, vent_update.
  destruct (spawn_rate _ <=? tick_counter _).
  - unfold spawn_token. cbn [Token.alloc].
    eapply frame_trans; [|apply frame_add_token_to_grid].
    apply frame_of_heap; [|same_obs|reflexivity]. apply (keeps_alloc _ (heap s)).
  - apply frame_grid; [reflexivity|same_obs|reflexivity].
Qed.

Lemma frame_step_after_spawn (fuel : nat) (s s' : State) :
  step fuel s = Some s' -> frame field measure obs (after_spawn s) s'.
Proof.
  unfold step. fold (after_spawn s).
  destruct (update_all_tokens fuel (after_spawn s)) as [s2|] eqn:P; [|discriminate 1].
  cbn [mbind option_bind].
  destruct (handle_spillover fuel s2) as [s3|] eqn:S; [|discriminate 1].
  cbn [mbind option_bind].
  destruct (update_all_chains fuel s3 (tick s3)) as [s4|] eqn:C; [|discriminate 1].
  cbn [mbind option_bind].
  destruct (if tick s4 mod 50 =? 0 then insert_default_values fuel s4 else Some s4)
    as [s5|] eqn:D; [|discriminate 1].
  cbn [mbind option_bind]. intros [= <-].
  eapply frame_trans; [eapply frame_update_all_tokens, P|].
  eapply frame_trans; [eapply frame_handle_spillover, S|].
  eapply frame_trans; [eapply frame_update_all_chains, C|].
  eapply frame_trans.
  { destruct (tick s4 mod 50 =? 0);
      [eapply frame_insert_default_values, D|injection D as <-; apply frame_refl]. }
  eapply frame_trans; [apply frame_apply_damage_to_all_tokens|].
  destruct (tick _ mod 20 =? 0); [apply frame_repair_damaged_tokens|apply frame_refl].
Qed.

Lemma frame_step (fuel : nat) (s s' : State) :
  step fuel s = Some s' -> frame field measure obs s s'.
Proof.
  intros S. eapply frame_trans; [apply frame_after_spawn|].
  eapply frame_step_after_spawn, S.
Qed.

Lemma frame_run (fuel : nat) (n : nat) :
  forall s s', run fuel n s = Some s' -> frame field measure obs s s'.
Proof.
  induction n as [|n IH]; intros s s' R; cbn in R.
  - injection R as <-. apply frame_refl.
  - destruct (step fuel s) as [s1|] eqn:S; [|discriminate R].
    eapply frame_trans; [eapply frame_step, S|apply IH, R].
Qed.

End EngineFrames.
End Frames.

(** ** What each pass writes *)

(** X15: the physics pass and the spillover sweep write positions,
    velocities and energies, the cells, the set of live tokens, and
    nothing else: every token keeps its value, mass, type, damage flag,
    chain id and links; the engine's chains and id counter, the
    parameters, the tick and the vent's counters are as before. *)
Theorem physics_pass_writes_motion_only `{PyRandom} (fuel : nat) (s s1 s2 : State) :
  update_all_tokens fuel s = Some s1 ->
  handle_spillover fuel s1 = Some s2 ->
  frame (fun a => (identity_fields a, bond_fields a)) heap_size
        (fun s => (config s, counters s, chain_content s)) s s2.
Proof.
  intros P S. eapply frame_trans.
  - eapply frame_update_all_tokens; [..|exact P];
      first [reflexivity|intros; apply length_upd].
  - eapply frame_handle_spillover; [..|exact S];
      first [reflexivity|intros; apply length_upd].
Qed.

(** The physics pass on [crossing]. *)
Lemma physics_pass_writes_motion_only_witness :
  frame (fun a => (identity_fields a, bond_fields a)) heap_size
        (fun s => (config s, counters s, chain_content s))
        crossing crossing_after_sweep.
Proof.
  apply (@physics_pass_writes_motion_only zero_draws 3 crossing crossing_after_physics);
    vm_compute; reflexivity.
Defined.

(** X16: [update_all_chains] writes energies, chain ids and links, and
    the engine's chains, and nothing else: no token is moved, no type or
    damage flag changes, the cells and the set of live tokens stay as
    they are, and no random draw is made. *)
Theorem chain_update_writes_bonds_only (fuel : nat) (s : State) (tick : Z) (s' : State) :
  update_all_chains fuel s tick = Some s' ->
  frame (fun a => (identity_fields a, motion_fields a, Token.type a, Token.damaged a))
        heap_size (fun s => (config s, counters s, grid_content s, clock s)) s s'.
Proof.
  intros U. eapply frame_update_all_chains; [..|exact U];
    first [reflexivity|intros; apply length_upd].
Qed.

(** The chain update on [three_free]. *)
Lemma chain_update_writes_bonds_only_witness :
  frame (fun a => (identity_fields a, motion_fields a, Token.type a, Token.damaged a))
        heap_size (fun s => (config s, counters s, grid_content s, clock s))
        three_free three_free_after_chains.
Proof.
  apply (chain_update_writes_bonds_only 3 three_free 10 three_free_after_chains).
  vm_compute. reflexivity.
Defined.

(** X17: the damage pass and the repair pass write the damage flag, the
    type and (the damage pass only) chain ids and links of tokens: no
    token is moved, gains or loses energy; the cells, the set of live
    tokens and the engine's chain objects are not touched, so that a
    chain whose bond the damage breaks keeps the token in its member
    list.  The repair pass does not touch chain ids or links either. *)
Theorem damage_and_repair_write_metadata_only `{PyStr} `{PyRandom} (s : State) :
  frame (fun a => (identity_fields a, motion_fields a, Token.energy a)) heap_size
        (fun s => (config s, counters s, grid_content s, chain_content s))
        s (apply_damage_to_all_tokens s)
  /\ frame (fun a => (identity_fields a, motion_fields a, Token.energy a,
                      (Token.chain_id a, Token.next_token a, Token.prev_token a)))
           heap_size
           (fun s => (config s, counters s, grid_content s, chain_content s))
           s (repair_damaged_tokens s).
Proof.
  split.
  - apply frame_apply_damage_to_all_tokens; first [reflexivity|intros; apply length_upd].
  - apply frame_repair_damaged_tokens; first [reflexivity|intros; apply length_upd].
Qed.

(** ** Default values *)

Lemma only_adds_defaults_refl (s : State) : only_adds_defaults s s.
Proof.
  split; [apply frame_refl|]. intros r [L1 L2]. lia.
Qed.

Lemma only_adds_defaults_trans (s1 s2 s3 : State) :
  only_adds_defaults s1 s2 -> only_adds_defaults s2 s3 -> only_adds_defaults s1 s3.
Proof.
  intros [F1 N1] [F2 N2]. split; [eapply frame_trans; eassumption|].
  intros r [L1 L3]. destruct (Nat.lt_ge_cases r (length (heap s2))) as [L2|L2].
  - destruct F2 as ((_ & K & _) & _). unfold deref. rewrite (K r L2).
    apply N1. split; assumption.
  - apply N2. split; assumption.
Qed.

Lemma heap_add_token_to_grid (s : State) (token : tok) :
  heap (add_token_to_grid s token).1 = heap s.
Proof.
  unfold add_token_to_grid. destruct (get_cell_from_float _ _ _ _); [|reflexivity].
  destruct (Cell.add_token _ _ _).2; reflexivity.
Qed.

Section DefaultValues.
Context `{PyStr} `{PyRandom}.

Lemma only_adds_defaults_insert_walk (fuel : nat) :
  forall (s : State) (current : tok) (s' : State),
    insert_walk fuel s current = Some s' -> only_adds_defaults s s'.
Proof.
  induction fuel as [|fuel IH]; intros s current s' W; cbn [insert_walk] in W.
  - destruct (Token.next_token _); [discriminate W|].
    injection W as <-. apply only_adds_defaults_refl.
  - destruct (Token.next_token (deref s current)) as [next_token|];
      [|injection W as <-; apply only_adds_defaults_refl].
    eapply only_adds_defaults_trans; [|eapply IH, W].
    destruct (_ && _); [|apply only_adds_defaults_refl].
    unfold _generate_default_value.
    set (default_value := nth (rand_below (clock s) 5) [0; 1; 2; 5; 10] 0).
    destruct (negb (default_value =? 0)) eqn:NZ.
    2:{ split; [apply frame_grid; reflexivity|]. intros r [L1 L2]. cbn in L2. lia. }
    cbn [Token.alloc]. split.
    + eapply frame_trans; [|apply frame_add_token_to_grid; reflexivity].
      apply frame_of_heap; [|reflexivity..]. apply keeps_alloc. reflexivity.
    + intros r [L1 L2]. unfold deref.
      rewrite heap_add_token_to_grid in L2 |- *. cbn [heap with_heap with_clock] in L2 |- *.
      rewrite length_app in L2. cbn in L2.
      assert (r = length (heap s)) as -> by lia.
      unfold Token.get. rewrite lookup_app_r by lia. rewrite Nat.sub_diag. cbn.
      unfold default_value_token. split; [|repeat split; reflexivity].
      cbn [Token.value Token.init]. unfold default_value in *.
      destruct (rand_below (clock s) 5) as [|[|[|[|[|[|n]]]]]]; cbn in NZ;
        try discriminate NZ; vm_compute; repeat first [left; reflexivity|right].
Qed.

Lemma only_adds_defaults_insert_default_values (fuel : nat) (s s' : State) :
  insert_default_values fuel s = Some s' -> only_adds_defaults s s'.
Proof.
  unfold insert_default_values.
  apply (foldM_rel only_adds_defaults);
    [apply only_adds_defaults_refl|apply only_adds_defaults_trans|].
  intros s1 i s2. apply only_adds_defaults_insert_walk.
Qed.

(** X18: [insert_default_values] only drops free tokens into the grid.
    It changes no token that exists and no chain: the chain whose pattern
    [= punctuation] asked for a value is not extended.  Every token it
    creates is undamaged, has energy 10, one of the values [1], [2], [5],
    [10], and neither chain id nor links. *)
Theorem default_values_are_free_tokens (fuel : nat) (s s' : State) :
  insert_default_values fuel s = Some s' ->
  frame (fun a => a) any_size (fun s => (config s, counters s, chain_content s)) s s'
  /\ forall r, allocated_since s s' r -> default_value_token (deref s' r).
Proof. apply only_adds_defaults_insert_default_values. Qed.

End DefaultValues.

(** The chain [x -> = -> ;]: the token [5] is created. *)
Lemma default_values_are_free_tokens_witness :
  allocated_since assignment_chain assignment_chain_after_insert 3
  /\ default_value_token (deref assignment_chain_after_insert 3).
Proof.
  assert (allocated_since assignment_chain assignment_chain_after_insert 3) as A
    by (unfold allocated_since; vm_compute; lia).
  split; [exact A|].
  apply (@default_values_are_free_tokens ascii_builtins three_draws 4
           assignment_chain assignment_chain_after_insert); [|exact A].
  vm_compute. reflexivity.
Defined.

(** ** Whole runs *)

Lemma identities_kept_refl (s : State) : identities_kept s s.
Proof. split; [apply frame_refl|]. intros r [L1 L2]. lia. Qed.

Lemma identities_kept_trans (s1 s2 s3 : State) :
  identities_kept s1 s2 -> identities_kept s2 s3 -> identities_kept s1 s3.
Proof.
  intros [F1 N1] [F2 N2]. split; [eapply frame_trans; eassumption|].
  intros r [L1 L3]. destruct (Nat.lt_ge_cases r (length (heap s2))) as [L2|L2].
  - destruct F2 as ((_ & K & _) & _). specialize (K r L2).
    injection K as Ev Em. unfold init_shaped, deref. rewrite Ev, Em.
    apply N1. split; assumption.
  - apply N2. split; assumption.
Qed.

(** A pass that creates no token. *)
Lemma identities_kept_exact (s s' : State) :
  frame identity_fields heap_size config s s' -> identities_kept s s'.
Proof.
  intros ((L & K & M) & O & V). split.
  - split; [|split; assumption]. split; [exact L|]. split; [exact K|reflexivity].
  - intros r [L1 L2]. unfold heap_size in M. lia.
Qed.

Section RunFacts.
Context `{PyStr} `{PyRandom}.

Lemma identities_kept_after_spawn (s : State) : identities_kept s (after_spawn s).
Proof.
  split; [apply frame_after_spawn; reflexivity|].
  intros r [L1 L2]. revert L2. unfold after_spawn, vent_update, deref.
  destruct (spawn_rate _ <=? tick_counter _); [|cbn; lia].
  unfold spawn_token. cbn [Token.alloc]. rewrite heap_add_token_to_grid.
  cbn [heap with_heap with_clock with_vent with_tick]. rewrite length_app. cbn [length].
  intros L2. assert (r = length (heap s)) as -> by lia.
  unfold Token.get. rewrite lookup_app_r by lia. rewrite Nat.sub_diag. reflexivity.
Qed.

Lemma identities_kept_step (fuel : nat) (s s' : State) :
  step fuel s = Some s' -> identities_kept s s'.
Proof.
  intros S. eapply identities_kept_trans; [apply identities_kept_after_spawn|].
  revert S. unfold step. fold (after_spawn s).
  destruct (update_all_tokens fuel (after_spawn s)) as [s2|] eqn:P; [|discriminate 1].
  cbn [mbind option_bind].
  destruct (handle_spillover fuel s2) as [s3|] eqn:S; [|discriminate 1].
  cbn [mbind option_bind].
  destruct (update_all_chains fuel s3 (tick s3)) as [s4|] eqn:C; [|discriminate 1].
  cbn [mbind option_bind].
  destruct (if tick s4 mod 50 =? 0 then insert_default_values fuel s4 else Some s4)
    as [s5|] eqn:D; [|discriminate 1].
  cbn [mbind option_bind]. intros [= <-].
  eapply identities_kept_trans.
  { apply identities_kept_exact. eapply frame_update_all_tokens; [..|exact P];
      first [reflexivity|intros; apply length_upd]. }
  eapply identities_kept_trans.
  { apply identities_kept_exact. eapply frame_handle_spillover; [..|exact S];
      first [reflexivity|intros; apply length_upd]. }
  eapply identities_kept_trans.
  { apply identities_kept_exact. eapply frame_update_all_chains; [..|exact C];
      first [reflexivity|intros; apply length_upd]. }
  eapply identities_kept_trans.
  { destruct (tick s4 mod 50 =? 0);
      [|injection D as <-; apply identities_kept_refl].
    split; [eapply frame_insert_default_values; [..|exact D]; reflexivity|].
    intros r A. apply (only_adds_defaults_insert_default_values _ _ _ D), A. }
  eapply identities_kept_trans.
  { apply identities_kept_exact. apply frame_apply_damage_to_all_tokens;
      first [reflexivity|intros; apply length_upd]. }
  destruct (tick _ mod 20 =? 0); [|apply identities_kept_refl].
  apply identities_kept_exact. apply frame_repair_damaged_tokens;
    first [reflexivity|intros; apply length_upd].
Qed.

Lemma identities_kept_run (fuel : nat) (n : nat) :
  forall s s', run fuel n s = Some s' -> identities_kept s s'.
Proof.
  induction n as [|n IH]; intros s s' R; cbn in R.
  - injection R as <-. apply identities_kept_refl.
  - destruct (step fuel s) as [s1|] eqn:S; [|discriminate R].
    eapply identities_kept_trans; [eapply identities_kept_step, S|apply IH, R].
Qed.

(** X19: a token's value and mass never change.  Through any number of
    ticks every token keeps the value and the mass it had, the
    parameters of the grid, of the vent and of the damage system stay as
    they were, and if every token had the length of its value as mass,
    then so has every token afterwards, the spawned and inserted ones
    included. *)
Theorem token_identity_is_immutable (fuel : nat) (n : nat) (s s' : State) :
  run fuel n s = Some s' ->
  (forall r, (r < length (heap s))%nat ->
             Token.value (deref s' r) = Token.value (deref s r)
             /\ Token.mass (deref s' r) = Token.mass (deref s r))
  /\ config s' = config s
  /\ (masses_are_lengths (heap s) -> masses_are_lengths (heap s')).
Proof.
  intros R. destruct (identities_kept_run _ _ _ _ R) as [((_ & K & _) & O & _) N].
  split; [|split; [exact O|]].
  - intros r L. specialize (K r L). injection K as Ev Em. split; assumption.
  - intros M r L. destruct (Nat.lt_ge_cases r (length (heap s))) as [L0|L0].
    + specialize (K r L0). injection K as Ev Em. unfold init_shaped. rewrite Ev, Em.
      apply M, L0.
    + apply N. split; assumption.
Qed.

End RunFacts.

(** Forty-five ticks of a new simulation of side 4. *)
Lemma token_identity_is_immutable_witness :
  config small_run = config (Simulation_init 4)
  /\ masses_are_lengths (heap small_run).
Proof.
  destruct (@token_identity_is_immutable ascii_builtins mixed_draws 50 45
              (Simulation_init 4) small_run) as (_ & O & M).
  - vm_compute. reflexivity.
  - split; [exact O|]. apply M. intros r L. cbn in L. lia.
Defined.

Lemma counters_add_token_to_grid (s : State) (token : tok) :
  counters (add_token_to_grid s token).1 = counters s.
Proof.
  unfold add_token_to_grid. destruct (get_cell_from_float _ _ _ _); [|reflexivity].
  destruct (Cell.add_token _ _ _).2; reflexivity.
Qed.

Section Cadence.
Context `{PyStr} `{PyRandom}.

Lemma counters_after_spawn (s : State) :
  counters (after_spawn s)
  = if spawn_rate s <=? tick_counter s + 1
    then (tick s + 1, 0, tokens_spawned s + 1)
    else (tick s + 1, tick_counter s + 1, tokens_spawned s).
Proof.
  unfold after_spawn, vent_update.
  cbn [spawn_rate tick_counter with_vent with_tick].
  destruct (spawn_rate s <=? tick_counter s + 1); [|reflexivity].
  unfold spawn_token. cbn [Token.alloc]. rewrite counters_add_token_to_grid. reflexivity.
Qed.

Lemma counters_step (fuel : nat) (s s' : State) :
  step fuel s = Some s' ->
  counters s' = counters (after_spawn s) /\ spawn_rate s' = spawn_rate s.
Proof.
  intros S. split.
  - apply (frame_step_after_spawn (fun _ : Token.t => tt) any_size counters) in S;
      try reflexivity. apply S.
  - apply (frame_step (fun _ : Token.t => tt) any_size spawn_rate) in S;
      try reflexivity. apply S.
Qed.

(** The vent's counters stay in step with the tick. *)
Lemma cadence_run (fuel : nat) (n : nat) :
  forall s s',
    0 <= tick_counter s < spawn_rate s ->
    run fuel n s = Some s' ->
    tick s' = tick s + Z.of_nat n
    /\ spawn_rate s' = spawn_rate s
    /\ 0 <= tick_counter s' < spawn_rate s
    /\ tokens_spawned s' * spawn_rate s + tick_counter s'
       = tokens_spawned s * spawn_rate s + tick_counter s + Z.of_nat n.
Proof.
  induction n as [|n IH]; intros s s' B R; cbn [run] in R.
  - injection R as <-. repeat split; lia.
  - destruct (step fuel s) as [s1|] eqn:S; [|discriminate R].
    destruct (counters_step _ _ _ S) as [C Rate].
    rewrite counters_after_spawn in C.
    assert (tick s1 = tick s + 1
            /\ 0 <= tick_counter s1 < spawn_rate s
            /\ tokens_spawned s1 * spawn_rate s + tick_counter s1
               = tokens_spawned s * spawn_rate s + tick_counter s + 1) as (T1 & B1 & E1).
    { destruct (Z.leb_spec (spawn_rate s) (tick_counter s + 1));
        injection C as -> -> ->; repeat split; nia. }
    destruct (IH s1 s') as (T & Rt & B' & E); [rewrite Rate; exact B1|exact R|].
    rewrite Rate in *. repeat split; lia.
Qed.

(** X20: the vent spawns one token every ten ticks.  After [n] ticks of a
    new simulation the tick is [n], the vent has spawned [n // 10]
    tokens, and its counter stands at [n % 10]. *)
Theorem vent_spawns_every_ten_ticks (fuel : nat) (n : nat) (grid_size : Z) (s' : State) :
  run fuel n (Simulation_init grid_size) = Some s' ->
  tick s' = Z.of_nat n
  /\ tokens_spawned s' = Z.of_nat n / 10
  /\ tick_counter s' = Z.of_nat n mod 10.
Proof.
  intros R. apply cadence_run in R as (T & _ & B & E); [|cbn; lia].
  cbn [Simulation_init tick tick_counter tokens_spawned spawn_rate] in T, B, E.
  split; [lia|].
  assert (Z.of_nat n = 10 * tokens_spawned s' + tick_counter s') as D by lia.
  split.
  - apply (Z.div_unique_pos _ _ _ _ B D).
  - apply (Z.mod_unique_pos _ _ _ _ B D).
Qed.

(** X21: no chain is ever flagged invalid.  [is_valid] is set by the
    constructor and never written again, also when validation finds
    errors and repairs the chain: when every chain is flagged valid, so
    is every chain after any number of ticks, and the statistics report
    as many valid chains as chains. *)
Theorem chains_stay_flagged_valid (fuel : nat) (n : nat) (s s' : State) :
  chains_flagged_valid s ->
  run fuel n s = Some s' ->
  chains_flagged_valid s'
  /\ valid_chains (biochemistry_get_statistics s')
     = total_chains (biochemistry_get_statistics s').
Proof.
  intros V R.
  apply (frame_run (fun _ : Token.t => tt) any_size (fun _ : State => tt)) in R;
    try reflexivity.
  destruct R as (_ & _ & V'). specialize (V' V). split; [exact V'|].
  cbn. f_equal. unfold chains_flagged_valid in V'.
  induction V' as [|c l Vc _ IH]; [reflexivity|].
  cbn. rewrite Vc. cbn. f_equal. exact IH.
Qed.

End Cadence.

(** Forty-five ticks of a new simulation of side 4. *)
Lemma vent_spawns_every_ten_ticks_witness :
  tick small_run = 45 /\ tokens_spawned small_run = 4 /\ tick_counter small_run = 5.
Proof.
  apply (@vent_spawns_every_ten_ticks ascii_builtins mixed_draws 50 45 4 small_run).
  vm_compute. reflexivity.
Defined.

(** Forty-five ticks of a new simulation of side 4. *)
Lemma chains_stay_flagged_valid_witness :
  chains_flagged_valid small_run
  /\ valid_chains (biochemistry_get_statistics small_run)
     = total_chains (biochemistry_get_statistics small_run).
Proof.
  apply (@chains_stay_flagged_valid ascii_builtins mixed_draws 50 45 (Simulation_init 4)).
  - constructor.
  - vm_compute. reflexivity.
Defined.

(** ** Floats: a clamped coordinate is an index of the grid *)

Lemma digits2_pos_bounds (m : positive) :
  2 ^ (Z.pos (digits2_pos m) - 1) <= Z.pos m < 2 ^ Z.pos (digits2_pos m).
Proof.
  induction m as [m IH|m IH|]; cbn [digits2_pos].
  - rewrite Pos2Z.inj_succ, (Pos2Z.inj_xI m).
    replace (Z.succ (Z.pos (digits2_pos m)) - 1) with (Z.succ (Z.pos (digits2_pos m) - 1))
      by lia.
    rewrite !Z.pow_succ_r by lia. lia.
  - rewrite Pos2Z.inj_succ, (Pos2Z.inj_xO m).
    replace (Z.succ (Z.pos (digits2_pos m)) - 1) with (Z.succ (Z.pos (digits2_pos m) - 1))
      by lia.
    rewrite !Z.pow_succ_r by lia. lia.
  - cbn. lia.
Qed.

(** The mantissa and exponent of a float satisfy the format's bounds;
    above the least exponent the mantissa has 53 digits. *)
Lemma finite_float_shape (x : float) (s : bool) (m : positive) (e : Z) :
  Prim2SF x = S754_finite s m e ->
  -1074 <= e /\ Z.pos m < 2 ^ 53 /\ (-1074 < e -> 2 ^ 52 <= Z.pos m).
Proof.
  intros E. pose proof (Prim2SF_valid x) as V. rewrite E in V.
  unfold valid_binary, bounded, canonical_mantissa, fexp, SpecFloat.emin in V.
  apply andb_true_iff in V as [V _]. apply Z.eqb_eq in V.
  change prec with 53 in V. change emax with 1024 in V.
  pose proof (digits2_pos_bounds m) as [Lo Hi].
  assert (Z.pos (digits2_pos m) <= 53) as D by lia.
  split; [lia|]. split.
  - eapply Z.lt_le_trans; [exact Hi|]. apply Z.pow_le_mono_r; lia.
  - intros N. assert (Z.pos (digits2_pos m) = 53) as D53 by lia.
    rewrite D53 in Lo. exact Lo.
Qed.

(** [int(x)] on a positive finite float. *)
Lemma int_of_finite (x : float) (m : positive) (e : Z) :
  Prim2SF x = S754_finite false m e ->
  int_of_float x = if 0 <=? e then Z.pos m * 2 ^ e else Z.pos m / 2 ^ (- e).
Proof. intros E. unfold int_of_float. rewrite E. reflexivity. Qed.

Lemma magnitude_monotone (m1 m2 : positive) (e1 e2 : Z) :
  Z.pos m1 < 2 ^ 53 -> (e1 < e2 -> 2 ^ 52 <= Z.pos m2) ->
  e1 < e2 \/ (e1 = e2 /\ Z.pos m1 < Z.pos m2) ->
  0 <= (if 0 <=? e1 then Z.pos m1 * 2 ^ e1 else Z.pos m1 / 2 ^ (- e1))
    <= (if 0 <=? e2 then Z.pos m2 * 2 ^ e2 else Z.pos m2 / 2 ^ (- e2)).
Proof.
  intros B1 B2 [Lt|[-> Lt]].
  - specialize (B2 Lt).
    destruct (Z.leb_spec 0 e1) as [P1|N1], (Z.leb_spec 0 e2) as [P2|N2]; try lia.
    + split; [apply Z.mul_nonneg_nonneg; [lia|apply Z.pow_nonneg; lia]|].
      assert (2 ^ e2 = 2 ^ e1 * 2 ^ (e2 - e1)) as ->
        by (rewrite <- Z.pow_add_r by lia; f_equal; lia).
      assert (2 <= 2 ^ (e2 - e1))
        by (change 2 with (2 ^ 1) at 1; apply Z.pow_le_mono_r; lia).
      assert (0 < 2 ^ e1) by (apply Z.pow_pos_nonneg; lia).
      change (2 ^ 53) with (2 * 2 ^ 52) in B1.
      set (A := 2 ^ e1) in *. set (K := 2 ^ (e2 - e1)) in *. set (C := 2 ^ 52) in *.
      assert (Z.pos m1 * A <= 2 * C * A) by nia.
      assert (2 * C * A <= Z.pos m2 * A * 2) by nia.
      assert (Z.pos m2 * A * 2 <= Z.pos m2 * A * K)
        by (apply Z.mul_le_mono_nonneg_l; nia).
      rewrite Z.mul_assoc. lia.
    + assert (0 < 2 ^ (- e1)) by (apply Z.pow_pos_nonneg; lia).
      split; [apply Z.div_pos; lia|].
      assert (2 <= 2 ^ (- e1))
        by (change 2 with (2 ^ 1) at 1; apply Z.pow_le_mono_r; lia).
      assert (Z.pos m1 / 2 ^ (- e1) <= Z.pos m1 / 2)
        by (apply Z.div_le_compat_l; lia).
      assert (Z.pos m1 / 2 < 2 ^ 52)
        by (apply Z.div_lt_upper_bound; [lia|]; change (2 ^ 53) with (2 * 2 ^ 52) in B1; lia).
      assert (0 < 2 ^ e2) by (apply Z.pow_pos_nonneg; lia).
      assert (Z.pos m2 <= Z.pos m2 * 2 ^ e2) by nia.
      lia.
    + assert (0 < 2 ^ (- e1)) by (apply Z.pow_pos_nonneg; lia).
      assert (0 < 2 ^ (- e2)) by (apply Z.pow_pos_nonneg; lia).
      split; [apply Z.div_pos; lia|].
      assert (2 ^ (- e1) = 2 ^ (e2 - e1) * 2 ^ (- e2)) as ->
        by (rewrite <- Z.pow_add_r by lia; f_equal; lia).
      assert (2 <= 2 ^ (e2 - e1))
        by (change 2 with (2 ^ 1) at 1; apply Z.pow_le_mono_r; lia).
      rewrite <- Z.div_div by lia.
      apply Z.div_le_mono; [lia|].
      assert (Z.pos m1 / 2 ^ (e2 - e1) <= Z.pos m1 / 2)
        by (apply Z.div_le_compat_l; lia).
      assert (Z.pos m1 / 2 < 2 ^ 52)
        by (apply Z.div_lt_upper_bound; [lia|]; change (2 ^ 53) with (2 * 2 ^ 52) in B1; lia).
      lia.
  - destruct (Z.leb_spec 0 e2) as [P|N].
    + assert (0 < 2 ^ e2) by (apply Z.pow_pos_nonneg; lia). nia.
    + assert (0 < 2 ^ (- e2)) by (apply Z.pow_pos_nonneg; lia).
      split; [apply Z.div_pos; lia|]. apply Z.div_le_mono; lia.
Qed.

(** A float strictly between 0 and a float whose integer part is [n]
    has its integer part between 0 and [n]. *)
Lemma int_of_float_below (x M : float) (n : Z) :
  0 < n -> int_of_float M = n ->
  PrimFloat.ltb 0 x = true -> PrimFloat.ltb x M = true ->
  0 <= int_of_float x <= n.
Proof.
  intros Pn EM P0 PM. rewrite ltb_spec in P0, PM.
  change (Prim2SF 0) with (S754_zero false) in P0.
  unfold SFltb in P0, PM.
  destruct (Prim2SF M) as [sM| | |sM mM eM] eqn:FM;
    try (unfold int_of_float in EM; rewrite FM in EM; lia).
  destruct sM.
  { unfold int_of_float in EM. rewrite FM in EM.
    destruct (Z.leb_spec 0 eM).
    - assert (0 < 2 ^ eM) by (apply Z.pow_pos_nonneg; lia). nia.
    - assert (0 <= Z.pos mM / 2 ^ (- eM)); [|lia].
      apply Z.div_pos; [lia|]. apply Z.pow_pos_nonneg; lia. }
  destruct (Prim2SF x) as [sx|sx| |sx mx ex] eqn:Fx; cbn in P0, PM;
    try discriminate P0; try (destruct sx; discriminate P0 || discriminate PM).
  destruct sx; [discriminate P0|].
  rewrite (int_of_finite _ _ _ Fx). rewrite (int_of_finite _ _ _ FM) in EM.
  rewrite <- EM.
  pose proof (finite_float_shape _ _ _ _ Fx) as (Lx & Bx & _).
  pose proof (finite_float_shape _ _ _ _ FM) as (_ & _ & BM).
  apply magnitude_monotone; [exact Bx|intros; apply BM; lia|].
  destruct (Z.compare_spec ex eM) as [->|Lt|Gt]; [|left; exact Lt|discriminate PM].
  right. split; [reflexivity|].
  destruct (Pos.compare_cont Eq mx mM) eqn:C; try discriminate PM.
  change (Pos.compare mx mM = Lt) in C. exact C.
Qed.

(** What [max(0, min(size - 1, v))] leaves is an index below [size]. *)
Lemma clamp_in_bounds (n : Z) (v : float) :
  0 <= n -> exact_index n ->
  0 <= int_of_float (py_max 0 (py_min (float_of_int n) v)) <= n.
Proof.
  intros Pn Ex. unfold exact_index in Ex.
  assert (int_of_float 0 = 0) as Z0 by reflexivity.
  unfold py_max, py_min.
  destruct (PrimFloat.ltb v (float_of_int n)) eqn:Lt.
  - destruct (PrimFloat.ltb 0 v) eqn:Pos; [|rewrite Z0; lia].
    destruct (Z.eq_dec n 0) as [->|Nz].
    + change (float_of_int 0) with 0%float in Lt.
      rewrite (above_zero_not_below _ Pos) in Lt. discriminate Lt.
    + apply (int_of_float_below v (float_of_int n)); [lia|exact Ex|exact Pos|exact Lt].
  - destruct (PrimFloat.ltb 0 (float_of_int n)); [rewrite Ex; lia|rewrite Z0; lia].
Qed.

(** ** Where the live tokens are *)

Lemma get_cell_from_float_sizes (s s' : State) (fx fy fz : float) :
  sizes s' = sizes s -> get_cell_from_float s' fx fy fz = get_cell_from_float s fx fy fz.
Proof.
  intros [= Ex Ey Ez]. unfold get_cell_from_float, get_cell, is_valid_position.
  rewrite Ex, Ey, Ez. reflexivity.
Qed.

Lemma grid_indices_exact_sizes (s s' : State) :
  sizes s' = sizes s -> grid_indices_exact s -> grid_indices_exact s'.
Proof.
  intros [= Ex Ey Ez] X px py pz V. apply X.
  unfold is_valid_position in *. rewrite <- Ex, <- Ey, <- Ez. exact V.
Qed.

Lemma grid_nonempty_sizes (s s' : State) :
  sizes s' = sizes s -> grid_nonempty s -> grid_nonempty s'.
Proof. intros [= Ex Ey Ez]. unfold grid_nonempty. rewrite Ex, Ey, Ez. tauto. Qed.

(** A token that keeps its coordinates and its entries keeps its
    location. *)
Lemma located_transfer (s s' : State) (r : tok) :
  sizes s' = sizes s ->
  get_position (deref s' r) = get_position (deref s r) ->
  (forall c, In r (Cell.tokens (cells s c)) -> In r (Cell.tokens (cells s' c))) ->
  located s r -> located s' r.
Proof.
  intros Z [= Ex Ey Ez] I (c & G & Ic). exists c.
  rewrite Ex, Ey, Ez, (get_cell_from_float_sizes _ _ _ _ _ Z). split; [exact G|apply I, Ic].
Qed.

Lemma same_membership_In (r : tok) (s s' : State) (c : cell_ref) :
  same_membership r s s' ->
  In r (Cell.tokens (cells s c)) -> In r (Cell.tokens (cells s' c)).
Proof.
  intros M I. apply (count_occ_In Nat.eq_dec) in I. apply (count_occ_In Nat.eq_dec).
  specialize (M c). unfold occurrences in M. lia.
Qed.

Lemma sizes_move_token (fuel : nat) (s : State) (token : tok) (nx ny nz : float)
    (b : bool) (s' : State) :
  move_token fuel s token nx ny nz = Some (b, s') -> sizes s' = sizes s.
Proof.
  intros M. apply (frame_move_token (fun _ : Token.t => tt) any_size sizes) in M;
    try reflexivity. apply M.
Qed.

(** A move writes to no token but the one it moves. *)
Lemma move_token_others (fuel : nat) :
  forall (s : State) (token : tok) (nx ny nz : float) (b : bool) (s' : State) (r : tok),
    r <> token ->
    move_token fuel s token nx ny nz = Some (b, s') ->
    deref s' r = deref s r.
Proof.
  induction fuel as [|fuel IH]; intros s token nx ny nz b s' r N M; [discriminate M|].
  cbn [move_token] in M.
  destruct (get_cell_from_float s nx ny nz) as [new_cell|].
  2:{ injection M as _ <-. destruct (get_cell_from_float s _ _ _); reflexivity. }
  match type of M with
  | mbind _ ?target = _ => destruct target as [[[nc [[x' y'] z']]|]|]
  end; cbn [mbind option_bind] in M; [| |discriminate M].
  2:{ injection M as _ <-. reflexivity. }
  destruct (Cell.can_accept (heap s) (cells s nc) token).
  - injection M as _ <-. unfold deref, upd_token. cbn [heap with_heap].
    rewrite get_upd_ne by congruence.
    destruct (get_cell_from_float s _ _ _) as [oc|]; [|reflexivity].
    destruct (negb (cell_ref_eqb oc nc)); reflexivity.
  - unfold _handle_spillover in M.
    destruct (cell_pos nc) as [[fx fy] fz].
    destruct (_find_adjacent_cell s fx fy fz nc) as [adj|].
    + destruct (cell_pos adj) as [[ax ay] az]. eapply IH; eassumption.
    + injection M as _ <-. reflexivity.
Qed.

(** A move to a destination in the grid keeps the set of live tokens. *)
Lemma move_token_keeps_live (fuel : nat) :
  forall (s : State) (token : tok) (nx ny nz : float) (b : bool) (s' : State),
    grid_indices_exact s ->
    get_cell_from_float s nx ny nz <> None ->
    move_token fuel s token nx ny nz = Some (b, s') ->
    all_tokens s' = all_tokens s.
Proof.
  induction fuel as [|fuel IH]; intros s token nx ny nz b s' X B M; [discriminate M|].
  cbn [move_token] in M.
  destruct (get_cell_from_float s nx ny nz) as [new_cell|]; [|contradiction].
  match type of M with
  | mbind _ ?target = _ => destruct target as [[[nc [[x' y'] z']]|]|]
  end; cbn [mbind option_bind] in M; [| |discriminate M].
  2:{ injection M as _ <-. reflexivity. }
  destruct (Cell.can_accept (heap s) (cells s nc) token).
  - injection M as _ <-. cbn.
    destruct (get_cell_from_float s _ _ _) as [oc|]; [|reflexivity].
    destruct (negb (cell_ref_eqb oc nc)); reflexivity.
  - unfold _handle_spillover in M.
    destruct (cell_pos nc) as [[fx fy] fz].
    destruct (_find_adjacent_cell s fx fy fz nc) as [adj|] eqn:F.
    + apply find_adjacent_cell_valid in F.
      pose proof (get_cell_of_cell_pos s adj X F) as G.
      destruct (cell_pos adj) as [[ax ay] az]. cbn [fst snd] in G.
      eapply IH; [exact X| |exact M]. rewrite G. discriminate.
    + injection M as _ <-. reflexivity.
Qed.

(** After a successful move the token is in the cell of its
    coordinates. *)
Lemma successful_move_locates (fuel : nat) :
  forall (s : State) (token : tok) (nx ny nz : float) (s' : State),
    grid_indices_exact s -> (token < length (heap s))%nat ->
    get_cell_from_float s nx ny nz <> None ->
    move_token fuel s token nx ny nz = Some (true, s') ->
    located s' token.
Proof.
  induction fuel as [|fuel IH]; intros s token nx ny nz s' X L B M; [discriminate M|].
  assert (forall nc x' y' z',
             get_cell_from_float s x' y' z' = Some nc ->
             (if Cell.can_accept (heap s) (cells s nc) token
              then Some (true,
                         upd_token (Token.set_pos x' y' z') token
                           (cell_add_token nc token
                              match get_cell_from_float s (Token.x (deref s token))
                                      (Token.y (deref s token)) (Token.z (deref s token)) with
                              | Some oc => if negb (cell_ref_eqb oc nc)
                                           then cell_remove_token oc token s else s
                              | None => s
                              end))
              else _handle_spillover (move_token fuel) s token nc) = Some (true, s') ->
             located s' token) as Tail.
  { intros nc x' y' z' G T.
    destruct (Cell.can_accept (heap s) (cells s nc) token) eqn:A.
    - injection T as <-.
      match goal with
      | |- located (upd_token _ _ (cell_add_token _ _ ?st)) _ => set (s1 := st)
      end.
      assert (heap s1 = heap s /\ sizes s1 = sizes s /\ cells s1 nc = cells s nc)
        as (Eh & Ez & Ec).
      { unfold s1. destruct (get_cell_from_float s (Token.x _) _ _) as [oc|];
          [|repeat split; reflexivity].
        destruct (negb (cell_ref_eqb oc nc)) eqn:Ne; [|repeat split; reflexivity].
        split; [reflexivity|]. split; [reflexivity|].
        unfold cell_remove_token. rewrite cells_set_cell.
        destruct (cell_ref_eqb nc oc) eqn:E; [|reflexivity].
        apply cell_ref_eqb_eq in E. subst oc.
        rewrite (proj2 (cell_ref_eqb_eq nc nc) eq_refl) in Ne. discriminate Ne. }
      clearbody s1. exists nc. split.
      + assert (deref (upd_token (Token.set_pos x' y' z') token (cell_add_token nc token s1))
                      token
                = Token.set_pos x' y' z' (deref s1 token)) as ->.
        { unfold deref, upd_token. cbn [heap with_heap cell_add_token set_cell with_cells].
          apply get_upd_eq. rewrite Eh. exact L. }
        cbn [Token.x Token.y Token.z Token.set_pos].
        rewrite <- G. apply get_cell_from_float_sizes.
        transitivity (sizes s1); [reflexivity|exact Ez].
      + unfold upd_token. cbn [cells with_heap]. unfold cell_add_token.
        rewrite cells_set_cell, (proj2 (cell_ref_eqb_eq nc nc) eq_refl).
        rewrite Eh, Ec.
        unfold Cell.add_token. rewrite A. cbn. apply in_or_app. right. left. reflexivity.
    - unfold _handle_spillover in T.
      destruct (cell_pos nc) as [[fx fy] fz].
      destruct (_find_adjacent_cell s fx fy fz nc) as [adj|] eqn:F; [|discriminate T].
      apply find_adjacent_cell_valid in F.
      pose proof (get_cell_of_cell_pos s adj X F) as Ga.
      destruct (cell_pos adj) as [[ax ay] az]. cbn [fst snd] in Ga.
      eapply IH; [exact X|exact L| |exact T]. rewrite Ga. discriminate. }
  cbn [move_token] in M.
  destruct (get_cell_from_float s nx ny nz) as [new_cell|] eqn:G; [|contradiction].
  destruct (Cell.has_mutually_exclusive_token (heap s) (cells s new_cell) token)
    as [exclusive_token|].
  - destruct (Token.get_chain_mass fuel (heap s) token) as [m1|];
      [|discriminate M]. cbn [mbind option_bind] in M.
    destruct (Token.get_chain_mass fuel (heap s) exclusive_token) as [m2|];
      [|discriminate M]. cbn [mbind option_bind] in M.
    destruct (m1 <? m2).
    + destruct (_find_adjacent_cell s nx ny nz new_cell) as [alt_cell|] eqn:F;
        cbn [mbind option_bind] in M; [|discriminate M].
      apply find_adjacent_cell_valid in F.
      pose proof (get_cell_of_cell_pos s alt_cell X F) as Ga.
      destruct (cell_pos alt_cell) as [[ax ay] az]. cbn [fst snd] in Ga.
      eapply Tail; [exact Ga|exact M].
    + cbn [mbind option_bind] in M. eapply Tail; [exact G|exact M].
  - cbn [mbind option_bind] in M. eapply Tail; [exact G|exact M].
Qed.

Lemma settled_except_of_habitable (t : tok) (s : State) :
  habitable s -> settled_except t s.
Proof.
  intros (W & X & _ & A). split; [exact W|]. split; [exact X|].
  intros r I _. apply A, I.
Qed.

(** Moving another token than the one under way. *)
Lemma settled_move_other (fuel : nat) (t : tok) (s : State) (o : tok)
    (nx ny nz : float) (b : bool) (s' : State) :
  settled_except t s -> o <> t -> (o < length (heap s))%nat ->
  get_cell_from_float s nx ny nz <> None ->
  move_token fuel s o nx ny nz = Some (b, s') ->
  settled_except t s' /\ all_tokens s' = all_tokens s.
Proof.
  intros (W & X & A) No Lo B M.
  pose proof (sizes_move_token _ _ _ _ _ _ _ _ M) as Z.
  pose proof (move_token_keeps_live _ _ _ _ _ _ _ _ X B M) as E.
  split; [|exact E]. split; [apply (wf_move_token _ _ _ _ _ _ _ _ W Lo M)|].
  split; [apply (grid_indices_exact_sizes _ _ Z X)|].
  intros r I Nr. rewrite E in I. destruct (decide (r = o)) as [->|Ne].
  - destruct b.
    + apply (successful_move_locates _ _ _ _ _ _ _ X Lo B M).
    + rewrite (failed_move_keeps_state _ _ _ _ _ _ _ X B M). apply A; assumption.
  - apply (located_transfer s).
    + exact Z.
    + f_equal. eapply move_token_others; [exact Ne|exact M].
    + intros c. apply same_membership_In.
      eapply same_membership_move_token; [|exact M]. congruence.
    + apply A; assumption.
Qed.

(** A successful move of the token under way. *)
Lemma settled_move_self (fuel : nat) (t : tok) (s : State)
    (nx ny nz : float) (s' : State) :
  settled_except t s -> (t < length (heap s))%nat ->
  get_cell_from_float s nx ny nz <> None ->
  move_token fuel s t nx ny nz = Some (true, s') ->
  grid_wf s' /\ grid_indices_exact s' /\ all_located s' /\ all_tokens s' = all_tokens s.
Proof.
  intros (W & X & A) Lt B M.
  pose proof (sizes_move_token _ _ _ _ _ _ _ _ M) as Z.
  pose proof (move_token_keeps_live _ _ _ _ _ _ _ _ X B M) as E.
  split; [apply (wf_move_token _ _ _ _ _ _ _ _ W Lt M)|].
  split; [apply (grid_indices_exact_sizes _ _ Z X)|]. split; [|exact E].
  intros r I. rewrite E in I. destruct (decide (r = t)) as [->|Ne].
  - apply (successful_move_locates _ _ _ _ _ _ _ X Lt B M).
  - apply (located_transfer s).
    + exact Z.
    + f_equal. eapply move_token_others; [exact Ne|exact M].
    + intros c. apply same_membership_In.
      eapply same_membership_move_token; [|exact M]. congruence.
    + apply A; assumption.
Qed.

(** A heap write to the token under way. *)
Lemma settled_write_self (t : tok) (s : State) (h : Token.heap) :
  settled_except t s ->
  same_masses (heap s) h ->
  (forall r, r <> t -> Token.get h r = Token.get (heap s) r) ->
  settled_except t (with_heap h s).
Proof.
  intros (W & X & A) Sm O.
  split; [apply (wf_heap_only s _ W (heap_only_with_heap s h Sm))|].
  split; [exact X|].
  intros r I Nr. apply (located_transfer s).
  - reflexivity.
  - unfold deref. cbn [heap with_heap]. rewrite (O r Nr). reflexivity.
  - intros c Ic. exact Ic.
  - apply A; assumption.
Qed.

Section PhysicsLocations.
Context `{PyRandom}.

Lemma settled_push_token_aside (fuel : nat) (t : tok) (s : State) (o : tok)
    (current_cell : cell_ref) (s' : State) :
  settled_except t s -> o <> t -> (o < length (heap s))%nat ->
  _push_token_aside fuel s o current_cell = Some s' ->
  settled_except t s' /\ all_tokens s' = all_tokens s.
Proof.
  intros S No Lo P. unfold _push_token_aside in P.
  destruct current_cell as [[cx cy] cz].
  destruct (List.filter _ _) as [|first rest] eqn:F.
  - injection P as <-. split; [exact S|reflexivity].
  - assert (valid_cell s (nth (rand_below (clock s) (length (first :: rest)))
                              (first :: rest) first)) as V.
    { assert (In (nth (rand_below (clock s) (length (first :: rest)))
                      (first :: rest) first) (first :: rest)) as I
        by (destruct (nth_in_or_default (rand_below (clock s) (length (first :: rest)))
                        (first :: rest) first) as [I| ->]; [exact I|left; reflexivity]).
      set (target := nth _ _ _) in *. clearbody target.
      rewrite <- F in I. apply filter_In in I as [I _].
      apply list_elem_of_In, list_elem_of_omap in I as ([dx dy] & _ & G).
      apply get_cell_Some in G as [_ V]. exact V. }
    destruct S as (W & X & A).
    pose proof (get_cell_of_cell_pos s _ X V) as G.
    destruct (cell_pos _) as [[fx fy] fz]. cbn [fst snd] in G.
    destruct (move_token _ _ _ _ _ _) as [[b s1]|] eqn:M; [|discriminate P].
    injection P as <-.
    assert (settled_except t (with_clock (S (clock s)) s)) as Sc
      by exact (conj W (conj X A)).
    apply (settled_move_other _ t _ _ _ _ _ _ _ Sc No Lo) in M; [exact M|].
    change (get_cell_from_float s fx fy fz <> None). rewrite G. discriminate.
Qed.

Lemma settled_handle_collisions (fuel : nat) (s : State) (t : tok)
    (old_z : float) (s' : State) :
  settled_except t s ->
  _handle_collisions fuel s t old_z = Some s' ->
  settled_except t s' /\ all_tokens s' = all_tokens s.
Proof.
  intros S C. unfold _handle_collisions in C.
  destruct (Token.energy (deref s t) <=? 0);
    [injection C as <-; split; [exact S|reflexivity]|].
  destruct (PrimFloat.leb _ old_z); [injection C as <-; split; [exact S|reflexivity]|].
  destruct (get_cell_from_float s _ _ _) as [cell|];
    [|injection C as <-; split; [exact S|reflexivity]].
  assert (Forall (fun a => (a < length (heap s))%nat) (Cell.tokens (cells s cell))) as Al.
  { apply Forall_forall. intros a I. destruct S as ((_ & [RC _] & _) & _).
    eapply RC. apply list_elem_of_In. exact I. }
  revert C Al S. generalize (Cell.tokens (cells s cell)) as l. generalize s as s0.
  intros s0 l. revert s0. induction l as [|a l IH]; intros s0 C Al S; cbn [foldM] in C.
  - injection C as <-. split; [exact S|reflexivity].
  - apply Forall_cons in Al as [La Al].
    match type of C with
    | match ?body with _ => _ end = _ => destruct body as [s1|] eqn:B; [|discriminate C]
    end.
    assert (settled_except t s1 /\ all_tokens s1 = all_tokens s0
            /\ (length (heap s0) <= length (heap s1))%nat) as (S1 & E1 & L1).
    { destruct (Nat.eqb_spec a t) as [_|Na];
        [injection B as <-; split; [exact S|split; [reflexivity|lia]]|].
      destruct (_ && _); [|injection B as <-; split; [exact S|split; [reflexivity|lia]]].
      assert (settled_except t
                (upd_token (fun a => Token.set_energy (Token.energy a - 1) a) t s0)) as Se.
      { unfold upd_token. apply settled_write_self; [exact S| |].
        - apply same_masses_upd. reflexivity.
        - intros r Nr. apply get_upd_ne. congruence. }
      pose proof (wf_push_token_aside _ _ _ _ _ (proj1 Se)
                    ltac:(unfold upd_token; cbn [heap with_heap]; rewrite length_upd; exact La)
                    B) as [_ Le].
      apply (settled_push_token_aside _ t) in B;
        [|exact Se|exact Na|unfold upd_token; cbn [heap with_heap]; rewrite length_upd; exact La].
      destruct B as [S1 E1]. split; [exact S1|]. split; [exact E1|].
      unfold upd_token in Le. cbn [heap with_heap] in Le. rewrite length_upd in Le. exact Le. }
    destruct (IH s1 C) as [S' E']; [|exact S1|].
    + eapply Forall_impl; [exact Al|]. cbn. intros; lia.
    + split; [exact S'|congruence].
Qed.

Lemma gravity_pull_others (s : State) (t r : tok) :
  r <> t -> deref (_apply_gravity_pull s t) r = deref s r.
Proof.
  intros N. unfold _apply_gravity_pull.
  destruct (0 <? Token.energy (deref s t)); [reflexivity|].
  destruct (get_cell_from_float s _ _ _) as [[[cx cy] cz]|]; [|reflexivity].
  destruct (foldl _ _ offsets3) as [[[[lx ly] lz]|] lowest_z]; [|reflexivity].
  destruct (PrimFloat.ltb 0 _); [|reflexivity].
  unfold deref, upd_token. cbn [heap with_heap]. apply get_upd_ne. congruence.
Qed.

(** The clamped position is a position of the grid. *)
Lemma clamped_position_in_grid (s : State) (vx vy vz : float) :
  grid_indices_exact s -> grid_nonempty s ->
  get_cell_from_float s
    (py_max 0 (py_min (float_of_int (size_x s - 1)) vx))
    (py_max 0 (py_min (float_of_int (size_y s - 1)) vy))
    (py_max 0 (py_min (float_of_int (size_z s - 1)) vz)) <> None.
Proof.
  intros X (Nx & Ny & Nz).
  assert (is_valid_position s (size_x s - 1) (size_y s - 1) (size_z s - 1) = true) as V.
  { unfold is_valid_position. repeat (apply andb_true_iff; split); lia. }
  destruct (X _ _ _ V) as (Ex & Ey & Ez).
  pose proof (clamp_in_bounds (size_x s - 1) vx ltac:(lia) Ex) as Bx.
  pose proof (clamp_in_bounds (size_y s - 1) vy ltac:(lia) Ey) as By.
  pose proof (clamp_in_bounds (size_z s - 1) vz ltac:(lia) Ez) as Bz.
  unfold get_cell_from_float, get_cell, is_valid_position.
  repeat match goal with
         | |- context [?a <=? ?b] => destruct (Z.leb_spec a b); [|lia]
         | |- context [?a <? ?b] => destruct (Z.ltb_spec a b); [|lia]
         end.
  discriminate.
Qed.

Lemma sizes_handle_collisions (fuel : nat) (s : State) (t : tok) (old_z : float)
    (s' : State) :
  _handle_collisions fuel s t old_z = Some s' -> sizes s' = sizes s.
Proof.
  intros C. apply (frame_handle_collisions (fun _ : Token.t => tt) any_size sizes) in C;
    try reflexivity. apply C.
Qed.

Lemma sizes_apply_gravity_pull (s : State) (t : tok) :
  sizes (_apply_gravity_pull s t) = sizes s.
Proof.
  apply (frame_apply_gravity_pull (fun _ : Token.t => tt) any_size sizes); reflexivity.
Qed.

Lemma settled_before_move (fuel : nat) (s : State) (t : tok) (s3 : State)
    (nx ny nz : float) :
  habitable s ->
  before_move fuel s t = Some (s3, (nx, ny, nz)) ->
  settled_except t s3 /\ all_tokens s3 = all_tokens s /\ sizes s3 = sizes s
  /\ get_cell_from_float s3 nx ny nz <> None.
Proof.
  intros Hb B. pose proof Hb as (W & X & Ne & A). unfold before_move in B.
  destruct (_handle_collisions fuel _ t _) as [s2|] eqn:C; [|discriminate B].
  assert (settled_except t (with_heap (Token.update_position (heap s) t) s)) as S1.
  { apply settled_write_self; [apply settled_except_of_habitable, Hb| |].
    - apply same_masses_update_position.
    - intros r Nr. unfold Token.update_position. apply get_upd_ne. congruence. }
  pose proof (sizes_handle_collisions _ _ _ _ _ C) as Z2.
  destruct (settled_handle_collisions _ _ _ _ _ S1 C) as [(W2 & X2 & A2) E2].
  assert (settled_except t (_apply_gravity_pull s2 t)
          /\ all_tokens (_apply_gravity_pull s2 t) = all_tokens s2
          /\ sizes (_apply_gravity_pull s2 t) = sizes s2) as (S3 & E3 & Z3).
  { pose proof (heap_only_apply_gravity_pull s2 t) as Ho.
    pose proof (sizes_apply_gravity_pull s2 t) as Zg.
    split; [|split; [apply Ho|exact Zg]].
    split; [apply (wf_heap_only s2 _ W2 Ho)|].
    split; [apply (grid_indices_exact_sizes _ _ Zg X2)|].
    intros r I Nr. destruct Ho as (Ec & Ea & _). rewrite Ea in I.
    apply (located_transfer s2).
    - exact Zg.
    - f_equal. apply gravity_pull_others, Nr.
    - intros c Ic. rewrite Ec. exact Ic.
    - apply A2; assumption. }
  injection B as <- <- <- <-.
  split; [exact S3|]. split; [rewrite E3, E2; reflexivity|].
  split; [rewrite Z3, Z2; reflexivity|].
  apply clamped_position_in_grid; [apply S3|].
  apply (grid_nonempty_sizes s); [rewrite Z3, Z2; reflexivity|exact Ne].
Qed.

End PhysicsLocations.

(** A pass that writes to the heap only and moves no token. *)
Lemma habitable_heap_pass (s s' : State) :
  heap_only s s' -> sizes s' = sizes s ->
  (forall r, (r < length (heap s))%nat ->
             get_position (deref s' r) = get_position (deref s r)) ->
  habitable s -> habitable s'.
Proof.
  intros Ho Z P (W & X & Ne & A).
  split; [apply (wf_heap_only s s' W Ho)|].
  split; [apply (grid_indices_exact_sizes _ _ Z X)|].
  split; [apply (grid_nonempty_sizes _ _ Z Ne)|].
  destruct Ho as (Ec & Ea & _). intros r I. rewrite Ea in I.
  apply (located_transfer s).
  - exact Z.
  - apply P. destruct W as (_ & [_ RA] & _). apply RA, I.
  - intros c Ic. rewrite Ec. exact Ic.
  - apply A, I.
Qed.

Lemma In_cell_add_token (cell : cell_ref) (t r : tok) (s : State) (c : cell_ref) :
  In r (Cell.tokens (cells s c)) ->
  In r (Cell.tokens (cells (cell_add_token cell t s) c)).
Proof.
  intros I. unfold cell_add_token. rewrite cells_set_cell.
  destruct (cell_ref_eqb c cell) eqn:E; [|exact I].
  apply cell_ref_eqb_eq in E. subst c. unfold Cell.add_token.
  destruct (Cell.can_accept _ _ _); [|exact I].
  cbn. apply in_or_app. left. exact I.
Qed.

Lemma habitable_add_token_to_grid (s : State) (token : tok) :
  habitable s -> (token < length (heap s))%nat ->
  habitable (add_token_to_grid s token).1
  /\ all_tokens s ⊆ all_tokens (add_token_to_grid s token).1.
Proof.
  intros Hb L. pose proof Hb as (W & X & Ne & A).
  pose proof (wf_add_token_to_grid s token W L) as [W' _].
  revert W'. unfold add_token_to_grid.
  destruct (get_cell_from_float s _ _ _) as [cell|] eqn:G; [|split; [exact Hb|reflexivity]].
  destruct (Cell.add_token (heap s) (cells s cell) token).2 eqn:Ad;
    [|split; [exact Hb|reflexivity]].
  cbn [fst]. intros W'. split; [|cbn; apply union_subseteq_r].
  split; [exact W'|]. split; [exact X|]. split; [exact Ne|].
  intros r I. cbn [all_tokens with_all_tokens] in I.
  destruct (decide (r = token)) as [->|Nr].
  - exists cell. split; [exact G|].
    cbn [cells with_all_tokens]. unfold cell_add_token.
    rewrite cells_set_cell, (proj2 (cell_ref_eqb_eq cell cell) eq_refl).
    revert Ad. unfold Cell.add_token. destruct (Cell.can_accept _ _ _); [|discriminate 1].
    intros _. cbn. apply in_or_app. right. left. reflexivity.
  - assert (r ∈ all_tokens s) as I0
      by (apply elem_of_union in I as [I|I];
          [apply elem_of_singleton in I; contradiction|exact I]).
    destruct (A r I0) as (c & Gc & Ic). exists c. split; [exact Gc|].
    cbn [cells with_all_tokens]. apply In_cell_add_token, Ic.
Qed.

(** Allocating a token and adding it to the grid. *)
Lemma habitable_add_new_token (s : State) (a : Token.t) :
  habitable s -> 0 <= Token.mass a ->
  habitable (add_token_to_grid (with_heap (heap s ++ [a]) s) (length (heap s))).1
  /\ all_tokens s
     ⊆ all_tokens (add_token_to_grid (with_heap (heap s ++ [a]) s) (length (heap s))).1.
Proof.
  intros (W & X & Ne & A) Ma.
  destruct (wf_alloc a s W Ma) as [[W1 _] L1]. cbn [Token.alloc fst snd] in W1, L1.
  apply (habitable_add_token_to_grid (with_heap (heap s ++ [a]) s) (length (heap s)));
    [|exact L1].
  split; [exact W1|]. split; [exact X|]. split; [exact Ne|].
  intros r I. apply (located_transfer s).
  - reflexivity.
  - unfold deref. cbn [heap with_heap]. f_equal.
    apply (get_alloc_old a (heap s) r). destruct W as (_ & [_ RA] & _). apply RA, I.
  - intros c Ic. exact Ic.
  - apply A, I.
Qed.

Section Locations.
Context `{PyStr} `{PyRandom}.

Lemma habitable_update_token (fuel : nat) (s : State) (t : tok) (s' : State) :
  habitable s ->
  update_token fuel s t = Some s' ->
  habitable s' /\ all_tokens s' = all_tokens s.
Proof.
  intros Hb U. pose proof Hb as (W & X & Ne & A). unfold update_token in U.
  destruct (bool_decide (t ∈ all_tokens s)) eqn:In; cbn [negb] in U;
    [|injection U as <-; split; [exact Hb|reflexivity]].
  apply bool_decide_eq_true in In.
  assert (t < length (heap s))%nat as L by (destruct W as (_ & [_ RA] & _); apply RA, In).
  destruct (before_move fuel s t) as [[s3 [[nx ny] nz]]|] eqn:B; [|discriminate U].
  assert (PrimFloat.ltb nz 0 = false) as Fl.
  { pose proof B as B'. unfold before_move in B'.
    destruct (_handle_collisions fuel _ t _); [|discriminate B'].
    injection B' as _ _ _ <-. apply clamped_not_below_floor. }
  rewrite Fl in U.
  destruct (settled_before_move _ _ _ _ _ _ _ Hb B) as (S3 & E3 & Z3 & G3).
  pose proof (wf_before_move _ _ _ _ _ W B) as [_ L3].
  destruct (move_token fuel s3 t nx ny nz) as [[success s4]|] eqn:M; [|discriminate U].
  destruct success; injection U as <-.
  - destruct (settled_move_self _ _ _ _ _ _ _ S3 ltac:(lia) G3 M) as (W4 & X4 & A4 & E4).
    split; [|congruence]. split; [exact W4|]. split; [exact X4|]. split; [|exact A4].
    apply (grid_nonempty_sizes s); [|exact Ne].
    rewrite (sizes_move_token _ _ _ _ _ _ _ _ M). exact Z3.
  - rewrite (failed_move_keeps_state _ _ _ _ _ _ _ (proj1 (proj2 S3)) G3 M).
    destruct S3 as (W3 & X3 & A3).
    split; [|exact E3].
    split; [apply (wf_heap_only s3 _ W3), heap_only_upd_token; reflexivity|].
    split; [exact X3|]. split; [apply (grid_nonempty_sizes s _ Z3 Ne)|].
    intros r I. cbn in I. destruct (decide (r = t)) as [->|Nr].
    + destruct (A t In) as (c & Gc & Ic). exists c. split.
      * unfold deref, upd_token. cbn [heap with_heap].
        rewrite get_upd_eq by lia. cbn [Token.x Token.y Token.z Token.set_pos].
        rewrite <- Gc. apply get_cell_from_float_sizes. exact Z3.
      * cbn. eapply same_membership_In; [|exact Ic].
        eapply same_membership_before_move, B.
    + apply (located_transfer s3).
      * reflexivity.
      * unfold deref, upd_token. cbn [heap with_heap].
        rewrite get_upd_ne by congruence. reflexivity.
      * intros c Ic. exact Ic.
      * apply A3; assumption.
Qed.

Lemma habitable_update_all_tokens (fuel : nat) (s s' : State) :
  habitable s ->
  update_all_tokens fuel s = Some s' ->
  habitable s' /\ all_tokens s' = all_tokens s.
Proof.
  intros Hb U. unfold update_all_tokens in U.
  assert (habitable (with_clock (S (clock s)) s)) as Hc by exact Hb.
  change (all_tokens s) with (all_tokens (with_clock (S (clock s)) s)).
  revert Hc U. generalize (with_clock (S (clock s)) s) as s0.
  generalize (set_order (clock s) (all_tokens s)) as l.
  induction l as [|t l IH]; intros s0 Hc U; cbn [foldM] in U.
  - injection U as <-. split; [exact Hc|reflexivity].
  - destruct (update_token fuel s0 t) as [s1|] eqn:T; [|discriminate U].
    destruct (habitable_update_token _ _ _ _ Hc T) as [H1 E1].
    destruct (IH s1 H1 U) as [H' E']. split; [exact H'|congruence].
Qed.

Lemma habitable_update_all_chains (fuel : nat) (s : State) (tick : Z) (s' : State) :
  habitable s -> update_all_chains fuel s tick = Some s' ->
  habitable s' /\ all_tokens s' = all_tokens s.
Proof.
  intros Hb U.
  pose proof (heap_only_update_all_chains _ _ _ _ U) as Ho.
  apply (frame_update_all_chains get_position any_size sizes) in U; try reflexivity.
  destruct U as ((_ & K & _) & Z & _).
  split; [|apply Ho]. apply (habitable_heap_pass s s' Ho Z K Hb).
Qed.

Lemma habitable_damage_and_repair (s : State) :
  habitable s ->
  (habitable (apply_damage_to_all_tokens s)
   /\ all_tokens (apply_damage_to_all_tokens s) = all_tokens s)
  /\ (habitable (repair_damaged_tokens s)
      /\ all_tokens (repair_damaged_tokens s) = all_tokens s).
Proof.
  intros Hb. split.
  - pose proof (heap_only_apply_damage_to_all_tokens s) as Ho.
    pose proof (frame_apply_damage_to_all_tokens get_position any_size sizes) as F.
    destruct (F ltac:(reflexivity) ltac:(reflexivity) ltac:(reflexivity)
                ltac:(reflexivity) ltac:(reflexivity) ltac:(reflexivity)
                ltac:(reflexivity) ltac:(reflexivity) _ s) as ((_ & K & _) & Z & _).
    split; [|apply Ho]. apply (habitable_heap_pass s _ Ho Z K Hb).
  - pose proof (heap_only_repair_damaged_tokens s) as Ho.
    pose proof (frame_repair_damaged_tokens get_position any_size sizes) as F.
    destruct (F ltac:(reflexivity) ltac:(reflexivity) ltac:(reflexivity)
                ltac:(reflexivity) ltac:(reflexivity) _ _ s) as ((_ & K & _) & Z & _).
    split; [|apply Ho]. apply (habitable_heap_pass s _ Ho Z K Hb).
Qed.

Lemma habitable_insert_walk (fuel : nat) :
  forall (s : State) (current : tok) (s' : State),
    habitable s -> insert_walk fuel s current = Some s' ->
    habitable s' /\ all_tokens s ⊆ all_tokens s'.
Proof.
  induction fuel as [|fuel IH]; intros s current s' Hb W; cbn [insert_walk] in W.
  - destruct (Token.next_token _); [discriminate W|].
    injection W as <-. split; [exact Hb|reflexivity].
  - destruct (Token.next_token (deref s current)) as [next_token|];
      [|injection W as <-; split; [exact Hb|reflexivity]].
    match type of W with
    | insert_walk _ ?st _ = _ =>
        assert (habitable st /\ all_tokens s ⊆ all_tokens st) as [H1 S1]
    end.
    { destruct (_ && _); [|split; [exact Hb|reflexivity]].
      unfold _generate_default_value.
      destruct (negb _); [|split; [exact Hb|reflexivity]].
      cbn [Token.alloc].
      apply (habitable_add_new_token (with_clock (S (clock s)) s));
        [exact Hb|apply init_mass_nonneg]. }
    destruct (IH _ _ _ H1 W) as [H' S']. split; [exact H'|etransitivity; eassumption].
Qed.

Lemma habitable_insert_default_values (fuel : nat) (s s' : State) :
  habitable s -> insert_default_values fuel s = Some s' ->
  habitable s' /\ all_tokens s ⊆ all_tokens s'.
Proof.
  unfold insert_default_values. generalize (seq 0%nat (length (chains s))) as l.
  intros l. revert s. induction l as [|i l IH]; intros s Hb F; cbn [foldM] in F.
  - injection F as <-. split; [exact Hb|reflexivity].
  - destruct (insert_walk fuel s _) as [s1|] eqn:W; [|discriminate F].
    destruct (habitable_insert_walk _ _ _ _ Hb W) as [H1 S1].
    destruct (IH s1 H1 F) as [H' S']. split; [exact H'|etransitivity; eassumption].
Qed.

Lemma habitable_after_spawn (s : State) :
  habitable s -> habitable (after_spawn s) /\ all_tokens s ⊆ all_tokens (after_spawn s).
Proof.
  intros Hb. unfold after_spawn, vent_update.
  destruct (spawn_rate _ <=? tick_counter _); [|split; [exact Hb|reflexivity]].
  unfold spawn_token. cbn [Token.alloc].
  match goal with
  | |- habitable (add_token_to_grid ?st ?tk).1 /\ _ =>
      match st with
      | context [(heap _ ++ [?a])%list] =>
          change st with (with_heap (heap (with_vent 0 (tokens_spawned s + 1)
                                             (with_clock (S (clock s))
                                                (with_tick (tick s + 1) s)))
                                     ++ [a])
                            (with_vent 0 (tokens_spawned s + 1)
                               (with_clock (S (clock s)) (with_tick (tick s + 1) s))));
          apply (habitable_add_new_token
                   (with_vent 0 (tokens_spawned s + 1)
                      (with_clock (S (clock s)) (with_tick (tick s + 1) s))) a);
          [exact Hb|apply init_mass_nonneg]
      end
  end.
Qed.

Lemma habitable_step (fuel : nat) (s s' : State) :
  habitable s -> step fuel s = Some s' ->
  habitable s' /\ all_tokens s ⊆ all_tokens s'.
Proof.
  intros Hb. destruct (habitable_after_spawn s Hb) as [H1 S1].
  unfold step. fold (after_spawn s).
  destruct (update_all_tokens fuel (after_spawn s)) as [s2|] eqn:P; [|discriminate 1].
  cbn [mbind option_bind].
  destruct (habitable_update_all_tokens _ _ _ H1 P) as [H2 E2].
  rewrite (handle_spillover_idle fuel s2 (proj1 (proj1 H2))).
  cbn [mbind option_bind].
  destruct (update_all_chains fuel s2 (tick s2)) as [s4|] eqn:C; [|discriminate 1].
  cbn [mbind option_bind].
  destruct (habitable_update_all_chains _ _ _ _ H2 C) as [H4 E4].
  destruct (if tick s4 mod 50 =? 0 then insert_default_values fuel s4 else Some s4)
    as [s5|] eqn:D; [|discriminate 1].
  cbn [mbind option_bind]. intros [= <-].
  assert (habitable s5 /\ all_tokens s4 ⊆ all_tokens s5) as [H5 S5].
  { destruct (tick s4 mod 50 =? 0);
      [apply (habitable_insert_default_values _ _ _ H4 D)|].
    injection D as <-. split; [exact H4|reflexivity]. }
  destruct (habitable_damage_and_repair s5 H5) as [[H6 E6] _].
  assert (all_tokens s ⊆ all_tokens (apply_damage_to_all_tokens s5)) as S6
    by (rewrite E6; etransitivity; [|exact S5]; rewrite E4, E2; exact S1).
  destruct (tick _ mod 20 =? 0); [|split; assumption].
  destruct (habitable_damage_and_repair _ H6) as [_ [H7 E7]].
  split; [exact H7|]. rewrite E7. exact S6.
Qed.

Lemma habitable_run (fuel : nat) (n : nat) :
  forall s s', habitable s -> run fuel n s = Some s' ->
               habitable s' /\ all_tokens s ⊆ all_tokens s'.
Proof.
  induction n as [|n IH]; intros s s' Hb R; cbn in R.
  - injection R as <-. split; [exact Hb|reflexivity].
  - destruct (step fuel s) as [s1|] eqn:S; [|discriminate R].
    destruct (habitable_step _ _ _ Hb S) as [H1 S1].
    destruct (IH _ _ H1 R) as [H' S']. split; [exact H'|etransitivity; eassumption].
Qed.

End Locations.

Lemma habitable_Simulation_init (grid_size : Z) :
  1 <= grid_size <= 1024 -> habitable (Simulation_init grid_size).
Proof.
  intros B. split; [apply wf_Simulation_init|].
  split; [apply small_grid_indices_exact; cbn; lia|].
  split; [unfold grid_nonempty; cbn; lia|].
  intros r I. cbn in I. apply elem_of_empty in I. destruct I.
Qed.

Lemma habitable_crossing : habitable crossing.
Proof.
  split; [|split; [apply small_grid_indices_exact; vm_compute; discriminate|]].
  - pose proof (wf_Simulation_init 2) as W0.
    destruct (wf_alloc (new_token "if" 0 0 0 3) _ W0
                ltac:(apply (@init_mass_nonneg ascii_builtins))) as [[W1 _] L1].
    pose proof (wf_add_token_to_grid _ _ W1 L1) as [W2 _].
    destruct (wf_alloc (new_token "while" 0 0 1 0) _ W2
                ltac:(apply (@init_mass_nonneg ascii_builtins))) as [[W3 _] L3].
    exact (proj1 (wf_add_token_to_grid _ _ W3 L3)).
  - split; [unfold grid_nonempty; vm_compute; repeat split; discriminate|].
    intros r I.
    assert (r = 0%nat \/ r = 1%nat) as [-> | ->].
    { apply elem_of_elements in I. vm_compute in I.
      apply list_elem_of_In in I. destruct I as [E|[E|E]]; [| |destruct E]; subst r; auto. }
    + exists (0, 0, 0). split; [reflexivity|]. vm_compute. tauto.
    + exists (0, 0, 1). split; [reflexivity|]. vm_compute. tauto.
Qed.

(** X22: a live token is never removed.  On a habitable grid (well
    formed, indices exact, every live token in the cell of its
    coordinates; the grid of a new simulation is one) none of the three
    removals of the code is ever reached: the destination the physics
    pass hands to [move_token] is clamped into the grid, the test
    [new_z < 0] is made after the clamping, and no cell exceeds its
    capacity.  Through any number of ticks the set of live tokens only
    grows. *)
Theorem live_tokens_are_never_removed `{PyStr} `{PyRandom}
    (fuel : nat) (n : nat) (s s' : State) :
  habitable s ->
  run fuel n s = Some s' ->
  all_tokens s ⊆ all_tokens s' /\ get_total_tokens s <= get_total_tokens s'.
Proof.
  intros Hb R. destruct (habitable_run _ _ _ _ Hb R) as [_ Sub].
  split; [exact Sub|]. unfold get_total_tokens.
  apply Nat2Z.inj_le, subseteq_size, Sub.
Qed.

(** One tick of [crossing]: the [if] and the [while] are still live. *)
Lemma live_tokens_are_never_removed_witness :
  habitable crossing
  /\ all_tokens crossing ⊆ all_tokens crossing_after_tick.
Proof.
  split; [exact habitable_crossing|].
  apply (@live_tokens_are_never_removed ascii_builtins zero_draws 3 1 crossing
           crossing_after_tick habitable_crossing).
  vm_compute. reflexivity.
Defined.

(** X23: every live token is in the grid, in the cell of its
    coordinates.  On a habitable grid this holds after any number of
    ticks: the coordinates of a live token fall in a cell that exists,
    and that cell lists the token (other cells may still list it too). *)
Theorem live_tokens_stay_in_their_cells `{PyStr} `{PyRandom}
    (fuel : nat) (n : nat) (s s' : State) :
  habitable s ->
  run fuel n s = Some s' ->
  forall r, r ∈ all_tokens s' ->
    exists c,
      get_cell_from_float s' (Token.x (deref s' r)) (Token.y (deref s' r))
                          (Token.z (deref s' r)) = Some c
      /\ valid_cell s' c
      /\ In r (Cell.tokens (cells s' c)).
Proof.
  intros Hb R r I. destruct (habitable_run _ _ _ _ Hb R) as [(_ & _ & _ & A) _].
  destruct (A r I) as (c & G & Ic). exists c. split; [exact G|]. split; [|exact Ic].
  unfold get_cell_from_float in G. apply get_cell_Some in G as [_ V]. exact V.
Qed.

(** One tick of [crossing]: the [while] is in the cell (0,1,1). *)
Lemma live_tokens_stay_in_their_cells_witness :
  exists c,
    get_cell_from_float crossing_after_tick
      (Token.x (deref crossing_after_tick 1)) (Token.y (deref crossing_after_tick 1))
      (Token.z (deref crossing_after_tick 1)) = Some c
    /\ valid_cell crossing_after_tick c
    /\ In 1%nat (Cell.tokens (cells crossing_after_tick c)).
Proof.
  apply (@live_tokens_stay_in_their_cells ascii_builtins zero_draws 3 1 crossing
           crossing_after_tick habitable_crossing).
  - vm_compute. reflexivity.
  - apply elem_of_elements. vm_compute. apply list_elem_of_In. cbn. tauto.
Defined.

(** X24: the spillover sweep finds nothing to do.  The physics pass
    leaves a well-formed grid well formed, so no cell holds more than its
    capacity when the sweep runs: [handle_spillover] returns, whatever
    the fuel, and changes nothing; [_redistribute_tokens] is not
    called. *)
Theorem spillover_sweep_finds_nothing `{PyRandom} (fuel fuel' : nat) (s s1 : State) :
  grid_wf s ->
  update_all_tokens fuel s = Some s1 ->
  handle_spillover fuel' s1 = Some s1.
Proof.
  intros W P. apply handle_spillover_idle.
  apply (wf_update_all_tokens _ _ _ W P).
Qed.

(** The sweep after the physics pass on [crossing]. *)
Lemma spillover_sweep_finds_nothing_witness :
  handle_spillover 0 crossing_after_physics = Some crossing_after_physics.
Proof.
  apply (@spillover_sweep_finds_nothing zero_draws 3 0 crossing crossing_after_physics).
  - apply habitable_crossing.
  - vm_compute. reflexivity.
Defined.

(** ** Damage and altitude *)

Section DamageFacts.
Context `{PyRandom}.

Lemma no_damage_at_the_floor (s : State) (fz : float) :
  PrimFloat.leb fz 0 = true ->
  PrimFloat.ltb 0 (calculate_damage_probability s fz) = false.
Proof. intros L. unfold calculate_damage_probability. rewrite L. reflexivity. Qed.

(** One round of the damage loop leaves the altitude, the damage flag and
    the type of a token at or below the floor as they are. *)
Lemma damage_round_spares_the_floor (r : tok) (s : State) (token : tok) :
  (r < length (heap s))%nat ->
  PrimFloat.leb (Token.z (deref s r)) 0 = true ->
  let s' :=
    if negb (bool_decide (token ∈ all_tokens s)) then s
    else
      let damage_prob := calculate_damage_probability s (Token.z (deref s token)) in
      if PrimFloat.ltb 0 damage_prob then
        let '(h, k) := Token.apply_damage (heap s) token damage_prob (clock s) in
        let s1 := with_clock k (with_heap h s) in
        if Token.damaged (deref s1 token) then _handle_damaged_token s1 token else s1
      else s in
  (length (heap s) <= length (heap s'))%nat
  /\ (Token.z (deref s' r), Token.damaged (deref s' r), Token.type (deref s' r))
     = (Token.z (deref s r), Token.damaged (deref s r), Token.type (deref s r)).
Proof.
  intros L Fl. cbv zeta.
  destruct (negb _); [split; [lia|reflexivity]|].
  destruct (PrimFloat.ltb 0 _) eqn:P; [|split; [lia|reflexivity]].
  assert (token <> r) as N.
  { intros ->. rewrite (no_damage_at_the_floor s _ Fl) in P. discriminate P. }
  set (p := calculate_damage_probability s (Token.z (deref s token))) in *.
  assert (length (Token.apply_damage (heap s) token p (clock s)).1 = length (heap s)
          /\ Token.get (Token.apply_damage (heap s) token p (clock s)).1 r
             = Token.get (heap s) r) as [El Eg].
  { unfold Token.apply_damage. destruct (PrimFloat.ltb (rand_float (clock s)) p);
      [|split; reflexivity].
    destruct (PrimFloat.ltb (rand_float (S (clock s))) 0.3); cbn [fst];
      rewrite ?length_upd, ?get_upd_ne by exact N; split; reflexivity. }
  destruct (Token.apply_damage (heap s) token p (clock s)) as [h k]. cbn [fst] in El, Eg.
  assert (deref (with_clock k (with_heap h s)) r = deref s r) as E1 by exact Eg.
  destruct (Token.damaged (deref (with_clock k (with_heap h s)) token));
    [|split; [cbn; lia|rewrite E1; reflexivity]].
  pose proof (frame_handle_damaged_token
                (fun a => (Token.z a, Token.damaged a, Token.type a)) any_size
                (fun _ : State => tt)) as F.
  destruct (F ltac:(reflexivity) ltac:(reflexivity) ltac:(reflexivity)
              ltac:(reflexivity) ltac:(reflexivity) ltac:(reflexivity) _
              (with_clock k (with_heap h s)) token) as ((Le & K & _) & _).
  cbn [heap with_heap with_clock] in Le, K. split; [lia|].
  etransitivity; [exact (K r ltac:(lia))|].
  cbn beta. rewrite Eg. reflexivity.
Qed.

(** X25: the damage pass spares the floor and never exceeds one half.
    [calculate_damage_probability] returns no more than 0.5 whatever the
    altitude, and 0 at or below altitude 0; a token at or below altitude
    0 keeps its damage flag and its type through
    [apply_damage_to_all_tokens], whatever is drawn. *)
Theorem damage_spares_the_floor (s : State) (r : tok) :
  (r < length (heap s))%nat ->
  PrimFloat.leb (Token.z (deref s r)) 0 = true ->
  Token.damaged (deref (apply_damage_to_all_tokens s) r) = Token.damaged (deref s r)
  /\ Token.type (deref (apply_damage_to_all_tokens s) r) = Token.type (deref s r)
  /\ forall fz, PrimFloat.ltb 0.5 (calculate_damage_probability s fz) = false.
Proof.
  intros L Fl. split; [|split].
  3:{ intros fz. unfold calculate_damage_probability, py_min.
      destruct (PrimFloat.leb fz 0); [reflexivity|].
      match goal with
      | |- PrimFloat.ltb _ (if PrimFloat.ltb 0.5 ?d then _ else _) = _ =>
          destruct (PrimFloat.ltb 0.5 d) eqn:C; [reflexivity|exact C]
      end. }
  all: unfold apply_damage_to_all_tokens.
  all: assert (forall l s0,
                  (r < length (heap s0))%nat ->
                  PrimFloat.leb (Token.z (deref s0 r)) 0 = true ->
                  let s' := foldl (fun s token =>
                     if negb (bool_decide (token ∈ all_tokens s)) then s
                     else
                       let damage_prob :=
                         calculate_damage_probability s (Token.z (deref s token)) in
                       if PrimFloat.ltb 0 damage_prob then
                         let '(h, k) :=
                           Token.apply_damage (heap s) token damage_prob (clock s) in
                         let s1 := with_clock k (with_heap h s) in
                         if Token.damaged (deref s1 token)
                         then _handle_damaged_token s1 token
                         else s1
                       else s) s0 l in
                  (Token.z (deref s' r), Token.damaged (deref s' r), Token.type (deref s' r))
                  = (Token.z (deref s0 r), Token.damaged (deref s0 r),
                     Token.type (deref s0 r))) as Loop.
  1,3: induction l as [|token l IH]; intros s0 L0 F0; cbn [foldl]; [reflexivity|];
    destruct (damage_round_spares_the_floor r s0 token L0 F0) as [Le E];
    cbv zeta in Le, E, IH |- *; injection E as Ez Ed Et;
    rewrite IH by (first [lia|rewrite Ez; exact F0]);
    rewrite Ez, Ed, Et; reflexivity.
  all: specialize (Loop (set_order (clock s) (all_tokens s)) (with_clock (S (clock s)) s)
                     L Fl); cbv zeta in Loop; injection Loop as _ Ed Et; assumption.
Qed.

End DamageFacts.

(** The [if] at the floor of [crossing]. *)
Lemma damage_spares_the_floor_witness :
  Token.damaged (deref (@apply_damage_to_all_tokens mixed_draws crossing) 0) = false.
Proof.
  apply (@damage_spares_the_floor mixed_draws crossing 0).
  - vm_compute. lia.
  - reflexivity.
Defined.
